(** * telegram-report: the photo pairing engine and its job pipeline

    A shallow embedding of [app/web.py] (the web job runner: [hamming],
    [score_pair], [build_report], [push], [sse_stream], [run_job], [start])
    and of [app/report_menu_table.py] ([best_pairs]), followed by the
    properties of the pairing and of the progress channel. The last part
    adds the month menu of [app/web.py] ([is_month_name],
    [scan_months_sites]) and, of the bot [telegram_bot.py], the chat
    context ([set_ctx], [get_ctx], the pop of [cmd_reset]) and
    [unique_path].

    Conventions of the embedding.
    - Python [float] scores and thresholds are rationals ([Q]) and their
      arithmetic is exact; the sentinel [-1.0] is [-1]. Infinities and
      NaN are not values of the model.
    - Python [int] is [Z]; list positions and counts are [nat].
    - A raised exception is [inl msg], with [msg] what [str(e)] gives;
      state changed before the raise is kept.
    - A [pathlib.Path] is the string of its text, and [a / b] is
      [path_join a b], which follows [pathlib] on POSIX: an absolute [b]
      replaces [a], empty and ["."] components are dropped.
    - The document of a report is the list of the python-docx calls
      made on it. *)

From Stdlib Require Import QArith Qminmax.
From stdpp Require Import base gmap strings pretty list sorting.

Set Default Proof Using "Type".

(** ** Exceptions and stateful code *)

Definition Exc (A : Type) : Type := (string + A)%type.

Definition exc_bind {A B} (c : Exc A) (k : A → Exc B) : Exc B :=
  match c with
  | inl e => inl e
  | inr a => k a
  end.

(** A computation over a mutable object of type [St] that may raise. *)
Definition M (St A : Type) : Type := St → St * Exc A.

Definition m_ret {St A} (a : A) : M St A := λ st, (st, inr a).
Definition m_raise {St A} (e : string) : M St A := λ st, (st, inl e).
Definition m_bind {St A B} (c : M St A) (k : A → M St B) : M St B :=
  λ st, match c st with
        | (st', inl e) => (st', inl e)
        | (st', inr a) => k a st'
        end.
Definition m_modify {St} (f : St → St) : M St unit := λ st, (f st, inr tt).
Definition m_lift {St A} (c : Exc A) : M St A := λ st, (st, c).

Declare Scope m_scope.
Delimit Scope m_scope with M.
Notation "'let!' x ':=' c 'in' k" := (m_bind c (λ x, k))
  (at level 10, x pattern, c at level 100, k at level 200) : m_scope.
Notation "c ';;;' k" := (m_bind c (λ _, k))
  (at level 100, k at level 200, right associativity) : m_scope.

Declare Scope exc_scope.
Delimit Scope exc_scope with E.
Notation "'let?' x ':=' c 'in' k" := (exc_bind c (λ x, k))
  (at level 10, x pattern, c at level 100, k at level 200) : exc_scope.

(** ** Rational comparisons as the code's boolean tests *)

Definition Qlt_bool (a b : Q) : bool := negb (Qle_bool b a).

(** ** [hamming]: [bin(a ^ b).count("1")] *)

Fixpoint pos_ones (p : positive) : nat :=
  match p with
  | xH => 1
  | xO p' => pos_ones p'
  | xI p' => S (pos_ones p')
  end.

(** [bin(z).count("1")]: the binary digits of [|z|] ([bin] writes a
    negative number as ["-0b..."] of its absolute value). *)
Definition bin_count_ones (z : Z) : nat :=
  match z with
  | Z0 => 0
  | Zpos p => pos_ones p
  | Zneg p => pos_ones p
  end.

Definition hamming (a b : Z) : nat := bin_count_ones (Z.lxor a b).

(** ** [list.sort(key=...)]: the stable sort by a key *)

Section StableSort.
Context {A : Type} (key : A → nat).

Fixpoint insert_by (x : A) (l : list A) : list A :=
  match l with
  | [] => [x]
  | y :: l' => if decide (key x ≤ key y) then x :: y :: l'
               else y :: insert_by x l'
  end.

Fixpoint sort_by (l : list A) : list A :=
  match l with
  | [] => []
  | x :: l' => insert_by x (sort_by l')
  end.
End StableSort.

(** ** Data of the matcher *)

Abbreviation Path := string.

(** One row of [bf.knnMatch(des_a, des_b, k=2)]: the distances of the
    (at most two) nearest neighbours of one query descriptor. *)
Inductive knn_row : Type :=
  | Knn0
  | Knn1 (m : Q)
  | Knn2 (m n : Q).

(** An entry of [pairs]: [(b, afters[j], score)]. *)
Definition Pair : Type := (Path * Path * Q)%type.

(** How one before-image was resolved by the loop body of the matcher:
    the [if] branch (a confident match with after-index [j] and score
    [s]), the [else] branch with [j = idx] (positional fallback), or the
    [else] branch with [j = None] (nothing appended). *)
Inductive Resolution : Type :=
  | Confident (j : nat) (s : Q)
  | Fallback (j : nat)
  | Unpaired.

Definition assigned_after (r : Resolution) : option nat :=
  match r with
  | Confident j _ => Some j
  | Fallback j => Some j
  | Unpaired => None
  end.

(** The dict [JOBS[job_id]], with the keys [start] creates and the two
    that [build_report] and [run_job] add. *)
Record Progress : Type := mkProgress {
  state : string;
  done : Z;
  total : Z;
  matched : Z;
  unmatched : Z;
  before : Z;
  after : Z;
  pages : Z;
  download : option string;
  error : option string
}.

Definition sentinel : Q := (-1)%Q.

(** [not used.get(j)] for the dict [used] of [build_report]. *)
Definition unused (used : gmap nat bool) (j : nat) : bool :=
  negb (default false (used !! j)).

(** [l[i]] *)
Definition list_index {A} (l : list A) (i : nat) : Exc A :=
  match l !! i with
  | Some x => inr x
  | None => inl "list index out of range"%string
  end.

(** [d[p]] for a dict keyed by paths *)
Definition dict_index {A} (d : gmap string A) (p : Path) : Exc A :=
  match d !! p with
  | Some x => inr x
  | None => inl ("PosixPath('" +:+ p +:+ "')")%string
  end.

Fixpoint exc_map {A B} (f : A → Exc B) (l : list A) : Exc (list B) :=
  match l with
  | [] => inr []
  | x :: l' => let? y := f x in let? ys := exc_map f l' in inr (y :: ys)
  end%E.

(** The python-docx calls of [build_report]: [add_header] and
    [add_title] (their arguments are read from the environment, not from
    the arguments of [build_report]), [add_pair_table],
    [doc.add_page_break] and [doc.save]. *)
Inductive doc_op : Type :=
  | DocHeader
  | DocTitle
  | DocPairTable (before_path after_path : Path)
  | DocPageBreak
  | DocSave (out_path : Path).

(** The document [doc], as the calls made on it so far. *)
Abbreviation Doc := (list doc_op).

(** *** [pathlib]: the operator [/] on the text of POSIX paths *)

Definition is_slash (c : Ascii.ascii) : bool :=
  bool_decide (String c EmptyString = "/"%string).

Definition starts_with_slash (s : string) : bool :=
  match s with
  | String c _ => is_slash c
  | EmptyString => false
  end.

Fixpoint ends_with_slash (s : string) : bool :=
  match s with
  | EmptyString => false
  | String c EmptyString => is_slash c
  | String _ s' => ends_with_slash s'
  end.

(** [posixpath.join(a, b)] *)
Definition posix_join (a b : string) : string :=
  if starts_with_slash b then b
  else if bool_decide (a = EmptyString) || ends_with_slash a
       then (a +:+ b)%string
       else (a +:+ "/" +:+ b)%string.

(** [posixpath.splitroot(p)]: the root and the rest. Exactly two
    leading slashes are a root of their own; one, or three and more, are
    the root ["/"] and [p[1:]]. *)
Definition splitroot (p : string) : string * string :=
  match p with
  | String c1 r1 =>
      if is_slash c1 then
        match r1 with
        | String c2 r2 =>
            if is_slash c2 then
              if starts_with_slash r2 then ("/"%string, r1)
              else ("//"%string, r2)
            else ("/"%string, r1)
        | EmptyString => ("/"%string, r1)
        end
      else (EmptyString, p)
  | EmptyString => (EmptyString, p)
  end.

(** [s.split("/")] *)
Fixpoint split_slash (s : string) : list string :=
  match s with
  | EmptyString => [EmptyString]
  | String c s' =>
      if is_slash c then EmptyString :: split_slash s'
      else match split_slash s' with
           | x :: xs => String c x :: xs
           | [] => [String c EmptyString]
           end
  end.

(** [str(PurePosixPath(p))]: the root, then the components that are
    neither empty nor ["."], joined by ["/"]; ["."] when nothing is
    left. *)
Definition path_text (p : string) : Path :=
  let '(root, rel) := splitroot p in
  let parts :=
    filter (λ x, x ≠ EmptyString ∧ x ≠ "."%string) (split_slash rel) in
  let text := (root +:+ String.concat "/" parts)%string in
  if bool_decide (text = EmptyString) then "."%string else text.

(** [a / b] for a path [a] and a string or path [b]. *)
Definition path_join (a b : Path) : Path := path_text (posix_join a b).

(** ** [report_menu_table.py]: [best_pairs] *)

Section BestPairs.
(** [orb_score] reads the two files and catches every exception. *)
Variable orb_score : Path → Path → Q.
Variable afters : list Path.
Variable threshold : Q.

(** The body of [for j, a in enumerate(afters)]. *)
Definition scan_step (b : Path) (used : gset nat) (best : option nat * Q)
    (ja : nat * Path) : option nat * Q :=
  if bool_decide (ja.1 ∈ used) then best
  else let s := orb_score b ja.2 in
       if Qlt_bool best.2 s then (Some ja.1, s) else best.

Definition scan (b : Path) (used : gset nat) : option nat * Q :=
  foldl (scan_step b used) (None, sentinel) (imap pair afters).

(** [j = bi if (bi < len(afters) and bi not in used) else None] *)
Definition cli_fallback (bi : nat) (used : gset nat) : Resolution :=
  if bool_decide (bi < length afters) && bool_decide (bi ∉ used)
  then Fallback bi else Unpaired.

Definition cli_resolve (bi : nat) (b : Path) (used : gset nat) : Resolution :=
  match scan b used with
  | (Some best_j, best_s) =>
      if Qle_bool threshold best_s then Confident best_j best_s
      else cli_fallback bi used
  | (None, _) => cli_fallback bi used
  end.

Definition cli_commit (b : Path) (r : Resolution)
    (st : list Pair * gset nat) : Exc (list Pair * gset nat) :=
  match r with
  | Confident j s =>
      let? a := list_index afters j in
      inr (st.1 ++ [(b, a, s)], {[j]} ∪ st.2)
  | Fallback j =>
      let? a := list_index afters j in
      inr (st.1 ++ [(b, a, sentinel)], {[j]} ∪ st.2)
  | Unpaired => inr st
  end%E.

(** The loop over [bs], the before-images from position [bi] on. *)
Fixpoint best_pairs_from (bi : nat) (bs : list Path)
    (st : list Pair * gset nat)
    : Exc (list Resolution * (list Pair * gset nat)) :=
  match bs with
  | [] => inr ([], st)
  | b :: bs' =>
      let r := cli_resolve bi b st.2 in
      let? st' := cli_commit b r st in
      let? rest := best_pairs_from (S bi) bs' st' in
      inr (r :: rest.1, rest.2)
  end%E.

(** [best_pairs]: the returned [pairs], with the resolution of every
    before-image. *)
Definition best_pairs (befores : list Path)
    : Exc (list Resolution * list Pair) :=
  (let? res := best_pairs_from 0 befores ([], ∅) in
   inr (res.1, res.2.1))%E.
End BestPairs.

(** ** The progress channel: the job's [Queue] and its [sse_stream]s *)

(** What an [sse_stream] generator yields. *)
Inductive Frame : Type :=
  | Ping
  | Data (msg : Progress).

(** The queue [EVENTS[job_id]] and, for every observer that has started
    an [sse_stream] on it, the frames its generator has yielded so far.
    [delivery_log] is a ghost field: who took which message off the
    queue, in the order of the [q.get()] calls that returned. *)
Record Channel : Type := mkChannel {
  queue : list Progress;
  yielded : gmap nat (list Frame);
  delivery_log : list (nat * Progress)
}.

Inductive Action : Type :=
  | Put (msg : Progress)      (* the worker: [q.put(...)] in [push] *)
  | Subscribe (o : nat)       (* a new [sse_stream]: yields the ping *)
  | Get (o : nat).            (* [q.get()] of observer [o] returns *)

(** One step; [None] when the action cannot happen in this state (a
    second generator for the same connection, a [q.get()] for which there
    is no generator, or one that stays blocked on the empty queue). *)
Definition chan_step (c : Channel) (a : Action) : option Channel :=
  match a with
  | Put msg => Some (mkChannel (queue c ++ [msg]) (yielded c) (delivery_log c))
  | Subscribe o =>
      match yielded c !! o with
      | Some _ => None
      | None =>
          Some (mkChannel (queue c) (<[o := [Ping]]> (yielded c))
                          (delivery_log c))
      end
  | Get o =>
      match yielded c !! o, queue c with
      | Some fs, msg :: q' =>
          Some (mkChannel q' (<[o := fs ++ [Data msg]]> (yielded c))
                          (delivery_log c ++ [(o, msg)]))
      | _, _ => None
      end
  end.

Fixpoint chan_run (c : Channel) (acts : list Action) : option Channel :=
  match acts with
  | [] => Some c
  | a :: acts' =>
      match chan_step c a with
      | Some c' => chan_run c' acts'
      | None => None
      end
  end.

(** The queue as [start] creates it. *)
Definition chan_init : Channel := mkChannel [] ∅ [].

(** The messages put on the queue by a run. *)
Definition published (acts : list Action) : list Progress :=
  omap (λ a, match a with Put msg => Some msg | _ => None end) acts.

(** The messages an observer has received. *)
Definition data_of (fs : list Frame) : list Progress :=
  omap (λ f, match f with Data msg => Some msg | Ping => None end) fs.

Definition received (c : Channel) (o : nat) : list Progress :=
  data_of (default [] (yielded c !! o)).

(** ** [web.py]: scoring, candidate pruning and the matching loop *)

Section Engine.
(** An ORB descriptor (a row of the array [detectAndCompute] returns). *)
Context {D : Type}.

(** Module constants, read from the environment at import time. *)
Variable RATIO : Q.
Variable TOPK : Z.
Variable DATA_ROOT REPORT_ROOT : Path.

(** The libraries and the file system.
    - [knnMatch a b]: [bf.knnMatch(a, b, k=2)]; [None] is [cv2.error].
    - [phash p]: the perceptual hash of the file, or what [Image.open]
      raises.
    - [describe p]: [imread_gray_resized] followed by
      [orb.detectAndCompute]; [inr None] when decoding gives [None] or
      ORB finds nothing.
    - [load_images folder]: the sorted image files of the folder.
    - [docx_call op]: the python-docx calls made at [op].
    - [repr k]: Python's [repr] of the string [k], which is what
      [str(KeyError(k))] gives.
    - [float_of_string]: [float(s)], [inl] for [ValueError]. *)
Variable knnMatch : list D → list D → option (list knn_row).
Variable phash : Path → Exc Z.
Variable describe : Path → Exc (option (list D)).
Variable load_images : Path → list Path.
Variable docx_call : doc_op → Exc unit.
Variable repr : string → string.
Variable float_of_string : string → Exc Q.

(** The loop of [score_pair] counting the good matches. *)
Definition good_matches (matches : list knn_row) : nat :=
  foldl (λ good m_n,
           match m_n with
           | Knn2 m n => if Qlt_bool m (RATIO * n) then S good else good
           | _ => good
           end) 0 matches.

Definition score_pair (des_a des_b : option (list D)) : Q :=
  match des_a, des_b with
  | Some a, Some b =>
      if (length a =? 0) || (length b =? 0) then 0%Q
      else match knnMatch a b with
           | None => 0%Q
           | Some matches =>
               Qmin 1 (Z.of_nat (good_matches matches) # 200)
           end
  | _, _ => 0%Q
  end.

(** The two preprocessing loops of [build_report]: [ph] is [be_ph] (or
    [af_ph]) and [desc] is [be_desc] (or [af_desc]). *)
Fixpoint fingerprint (ps : list Path) (ph : list Z)
    (desc : gmap string (option (list D)))
    : Exc (list Z * gmap string (option (list D))) :=
  match ps with
  | [] => inr (ph, desc)
  | p :: ps' =>
      let? h := phash p in
      let? d := describe p in
      fingerprint ps' (ph ++ [h]) (<[p := d]> desc)
  end%E.

(** [max(1, TOPK)], the width of the slice [dlist[:max(1, TOPK)]]. *)
Definition top_k : nat := Z.to_nat (Z.max 1 TOPK).

Section Matching.
Variable afters : list Path.
Variables (be_ph af_ph : list Z).
Variables (be_desc af_desc : gmap string (option (list D))).
Variable threshold : Q.

(** [af_items = list(zip(afters, af_ph))] *)
Definition af_items : list (Path * Z) := zip afters af_ph.

(** The comprehension building [dlist]; [be_ph[idx]] is evaluated
    once per after-image that passes the filter. *)
Definition dlist (idx : nat) (used : gmap nat bool)
    : Exc (list (nat * nat)) :=
  exc_map (λ x : nat * (Path * Z),
             let? ph := list_index be_ph idx in
             inr (x.1, hamming ph x.2.2))%E
          (filter (λ x : nat * (Path * Z), unused used x.1)
                  (imap pair af_items)).

(** [dlist.sort(key=lambda x: x[1])] and
    [cand = [j for j,_ in dlist[:max(1, TOPK)]]] *)
Definition cand_of (dl : list (nat * nat)) : list nat :=
  (take top_k (sort_by snd dl)).*1.

(** [apath = af_items[j][0]] and
    [s = score_pair(be_desc[b], af_desc[apath])] *)
Definition pair_score (b : Path) (j : nat) : Exc Q :=
  (let? item := list_index af_items j in
   let? da := dict_index be_desc b in
   let? db := dict_index af_desc item.1 in
   inr (score_pair da db))%E.

(** The body of [for j in cand], from [(best_j, best_s)]. *)
Definition score_step (b : Path) (j : nat) (best : option nat * Q)
    : Exc (option nat * Q) :=
  (let? s := pair_score b j in
   inr (if Qlt_bool best.2 s then (Some j, s) else best))%E.

Fixpoint best_loop (b : Path) (cand : list nat) (best : option nat * Q)
    : Exc (option nat * Q) :=
  match cand with
  | [] => inr best
  | j :: cand' => let? best' := score_step b j best in
                  best_loop b cand' best'
  end%E.

(** [j = idx if (idx < len(afters) and not used.get(idx)) else None] *)
Definition fallback (idx : nat) (used : gmap nat bool) : Resolution :=
  if bool_decide (idx < length afters) && unused used idx
  then Fallback idx else Unpaired.

(** The test [best_j is not None and best_s >= threshold] and, in
    its [else], the choice of [j]. *)
Definition decide_pair (idx : nat) (used : gmap nat bool)
    (best : option nat * Q) : Resolution :=
  match best with
  | (Some best_j, best_s) =>
      if Qle_bool threshold best_s then Confident best_j best_s
      else fallback idx used
  | (None, _) => fallback idx used
  end.

(** Lines 121 to 130 and 135: what the body decides for [idx]. *)
Definition resolve (idx : nat) (b : Path) (used : gmap nat bool)
    : Exc Resolution :=
  (let? dl := dlist idx used in
   let? best := best_loop b (cand_of dl) (None, sentinel) in
   inr (decide_pair idx used best))%E.

Definition incr_matched (p : Progress) : Progress :=
  mkProgress (state p) (done p) (total p) (matched p + 1) (unmatched p)
             (before p) (after p) (pages p) (download p) (error p).
Definition incr_unmatched (p : Progress) : Progress :=
  mkProgress (state p) (done p) (total p) (matched p) (unmatched p + 1)
             (before p) (after p) (pages p) (download p) (error p).
Definition set_done (n : Z) (p : Progress) : Progress :=
  mkProgress (state p) n (total p) (matched p) (unmatched p)
             (before p) (after p) (pages p) (download p) (error p).

(** Lines 131 to 133 and 136 to 139: the effects of the branch taken,
    on [(pairs, used)] and on the progress dict. *)
Definition commit (b : Path) (r : Resolution)
    (st : list Pair * gmap nat bool)
    : M Progress (list Pair * gmap nat bool) :=
  match r with
  | Confident j s =>
      let! a := m_lift (list_index afters j) in
      m_modify incr_matched ;;;
      m_ret (st.1 ++ [(b, a, s)], <[j := true]> st.2)
  | Fallback j =>
      let! a := m_lift (list_index afters j) in
      m_modify incr_unmatched ;;;
      m_ret (st.1 ++ [(b, a, sentinel)], <[j := true]> st.2)
  | Unpaired => m_ret st
  end%M.

(** One turn of [for idx, b in enumerate(befores)]. *)
Definition iteration (idx : nat) (b : Path)
    (st : list Pair * gmap nat bool)
    : M Progress (Resolution * (list Pair * gmap nat bool)) :=
  (let! r := m_lift (resolve idx b st.2) in
   let! st' := commit b r st in
   m_modify (set_done (Z.of_nat idx + 1)) ;;;
   m_ret (r, st'))%M.

(** The loop over [bs], the before-images from position [idx] on. It
    returns the resolution of each of them, in order, with the final
    [(pairs, used)]. *)
Fixpoint matching (idx : nat) (bs : list Path)
    (st : list Pair * gmap nat bool)
    : M Progress (list Resolution * (list Pair * gmap nat bool)) :=
  match bs with
  | [] => m_ret ([], st)
  | b :: bs' =>
      let! step := iteration idx b st in
      let! rest := matching (S idx) bs' step.2 in
      m_ret (step.1 :: rest.1, rest.2)
  end%M.
End Matching.

(** *** The document part of [build_report] *)

Definition set_pages (n : Z) (p : Progress) : Progress :=
  mkProgress (state p) (done p) (total p) (matched p) (unmatched p)
             (before p) (after p) n (download p) (error p).

(** One python-docx call on [doc]. *)
Definition doc_do (op : doc_op) (doc : Doc) : M Progress Doc :=
  (m_lift (docx_call op) ;;; m_ret (doc ++ [op]))%M.

(** [add_pair_table(pairs[j][0], pairs[j][1])] *)
Definition add_pair_table (pairs : list Pair) (j : nat) (doc : Doc)
    : M Progress Doc :=
  (let! pr := m_lift (list_index pairs j) in
   doc_do (DocPairTable pr.1.1 pr.1.2) doc)%M.

(** [for i in range(min(per_page, len(pairs)))], over the values of
    [i] *)
Fixpoint first_page (ixs : list nat) (pairs : list Pair) (doc : Doc)
    : M Progress Doc :=
  match ixs with
  | [] => m_ret doc
  | i :: ixs' =>
      let! doc := add_pair_table pairs i doc in
      first_page ixs' pairs doc
  end%M.

(** [for k in range(per_page)] with [j = idx + k] and its [break] *)
Fixpoint page_tables (ks : list nat) (idx : nat) (pairs : list Pair)
    (doc : Doc) : M Progress Doc :=
  match ks with
  | [] => m_ret doc
  | k :: ks' =>
      let j := idx + k in
      if bool_decide (length pairs ≤ j) then m_ret doc
      else
        let! doc := add_pair_table pairs j doc in
        page_tables ks' idx pairs doc
  end%M.

(** [while idx < len(pairs)], run for at most [fuel] turns. *)
Fixpoint pages_loop (fuel idx pgs : nat) (pairs : list Pair) (doc : Doc)
    : M Progress Doc :=
  match fuel with
  | 0 => m_ret doc
  | S fuel' =>
      if bool_decide (idx < length pairs) then
        let! doc := doc_do DocPageBreak doc in
        let! doc := doc_do DocHeader doc in
        let! doc := page_tables (seq 0 4) idx pairs doc in
        m_modify (set_pages (Z.of_nat (pgs + 1))) ;;;
        pages_loop fuel' (idx + 4) (pgs + 1) pairs doc
      else m_ret doc
  end%M.

(** The layout: the result is the document that was saved. *)
Definition render (pairs : list Pair) (out_path : Path) : M Progress Doc :=
  (let! doc := doc_do DocHeader [] in
   let! doc := doc_do DocTitle doc in
   let! doc := first_page (seq 0 (4 `min` length pairs)) pairs doc in
   let! doc := (if bool_decide (4 < length pairs)
                then pages_loop (length pairs) 4 1 pairs doc
                else m_ret doc) in
   doc_do (DocSave out_path) doc)%M.

(** *** [build_report] *)

(** [progress.update(total=.., state="preprocess", done=0, before=..,
    after=..)] *)
Definition update_preprocess (nb na : nat) (p : Progress) : Progress :=
  mkProgress "preprocess" 0 (Z.of_nat nb) (matched p) (unmatched p)
             (Z.of_nat nb) (Z.of_nat na) (pages p) (download p) (error p).

(** [progress.update(state="matching", done=0, matched=0, unmatched=0)] *)
Definition update_matching (p : Progress) : Progress :=
  mkProgress "matching" 0 (total p) 0 0
             (before p) (after p) (pages p) (download p) (error p).

(** [progress.update(state="done", download=str(out_path))] *)
Definition update_done (out_path : Path) (p : Progress) : Progress :=
  mkProgress "done" (done p) (total p) (matched p) (unmatched p)
             (before p) (after p) (pages p) (Some out_path) (error p).

Definition no_images : string := "No images in before/ or after/".

(** [build_report], on the progress dict it is given. Its result is the
    resolution of every before-image together with the local [pairs]. *)
Definition build_report (input_root out_path : Path)
    (company zone title : string) (threshold : Q)
    : M Progress (list Resolution * list Pair) :=
  let before_dir := path_join input_root "before" in
  let after_dir := path_join input_root "after" in
  let befores := load_images before_dir in
  let afters := load_images after_dir in
  (m_modify (update_preprocess (length befores) (length afters)) ;;;
   if bool_decide (befores = []) || bool_decide (afters = [])
   then m_raise no_images
   else
     let! be := m_lift (fingerprint befores [] ∅) in
     let! af := m_lift (fingerprint afters [] ∅) in
     m_modify update_matching ;;;
     let! res := matching afters be.1 af.1 be.2 af.2 threshold
                          0 befores ([], ∅) in
     render res.2.1 out_path ;;;
     m_modify (update_done out_path) ;;;
     m_ret (res.1, res.2.1))%M.

(** *** The job registries, [push], [run_job] and [start] *)

(** The module globals [JOBS] and [EVENTS]; a queued message is the
    content of the job's dict when [push] serialised it. *)
Record Server : Type := mkServer {
  JOBS : gmap string Progress;
  EVENTS : gmap string (list Progress)
}.

(** A computation on the dict [JOBS[job_id]], which it changes in
    place; [KeyError] when the job is not registered. *)
Definition with_job {A} (job_id : string) (c : M Progress A) : M Server A :=
  λ s, match JOBS s !! job_id with
       | None => (s, inl (repr job_id))
       | Some p => let '(p', r) := c p in
                   (mkServer (<[job_id := p']> (JOBS s)) (EVENTS s), r)
       end.

(** [push]: a [Queue] object is always true, so [if q] only tests
    that the job has a queue. *)
Definition push (job_id : string) : M Server unit :=
  λ s, match EVENTS s !! job_id with
       | Some q =>
           match JOBS s !! job_id with
           | None => (s, inl (repr job_id))
           | Some p =>
               (mkServer (JOBS s) (<[job_id := q ++ [p]]> (EVENTS s)),
                inr tt)
           end
       | None => (s, inr tt)
       end.

(** [try: c except Exception as e: h(str(e))] *)
Definition m_catch {St A} (c : M St A) (h : string → M St A) : M St A :=
  λ st, match c st with
        | (st', inl e) => h e st'
        | (st', inr a) => (st', inr a)
        end.

(** The arguments [start] gives to the thread it creates. *)
Record Worker : Type := mkWorker {
  w_job_id : string;
  w_month : string;
  w_site : string;
  w_task : string;
  w_company : string;
  w_zone : string;
  w_title : string;
  w_threshold : Q
}.

(** [JOBS[job_id].update(state="starting", done=0, total=0)] *)
Definition update_starting (p : Progress) : Progress :=
  mkProgress "starting" 0 0 (matched p) (unmatched p)
             (before p) (after p) (pages p) (download p) (error p).

(** [JOBS[job_id].update(state="error", error=str(e))] *)
Definition update_error (e : string) (p : Progress) : Progress :=
  mkProgress "error" (done p) (total p) (matched p) (unmatched p)
             (before p) (after p) (pages p) (download p) (Some e).

Definition out_name (month site task : string) : string :=
  (month +:+ "_" +:+ site +:+ "_" +:+
   (if bool_decide (task = "grass_cutting") then "grass_cutting"
    else "drainage") +:+ ".docx")%string.

Definition input_root_of (month site task : string) : Path :=
  path_join (path_join (path_join DATA_ROOT month) site) task.

Definition run_job (w : Worker) : M Server unit :=
  let job_id := w_job_id w in
  m_catch
    (with_job job_id (m_modify update_starting) ;;;
     push job_id ;;;
     let input_root := input_root_of (w_month w) (w_site w) (w_task w) in
     let out_path :=
       path_join REPORT_ROOT (out_name (w_month w) (w_site w) (w_task w)) in
     with_job job_id
       (build_report input_root out_path (w_company w) (w_zone w)
                     (w_title w) (w_threshold w)) ;;;
     push job_id)%M
    (λ e, with_job job_id (m_modify (update_error e)) ;;; push job_id)%M.

(** The form of [POST /start] after the [get], default and [strip] of
    each field; [form_threshold] is the text given to [float]. *)
Record Form : Type := mkForm {
  form_month : string;
  form_site : string;
  form_task : string;
  form_company : string;
  form_zone : string;
  form_title : string;
  form_threshold : string
}.

Inductive Response : Type :=
  | Json200 (job_id : string)
  | Json400 (err : string)
  | Error500 (msg : string).

(** The dict [start] registers for a new job. *)
Definition queued : Progress :=
  mkProgress "queued" 0 0 0 0 0 0 0 None None.

(** [start]: the response, the registries, and the thread started (if
    any). [job_id] is [uuid.uuid4().hex]. *)
Definition start (form : Form) (job_id : string) (s : Server)
    : Server * Response * option Worker :=
  match float_of_string (form_threshold form) with
  | inl e => (s, Error500 e, None)
  | inr threshold =>
      if bool_decide (form_month form = ""%string)
         || bool_decide (form_site form = ""%string)
      then (s, Json400 "Please choose a month and a site", None)
      else (mkServer (<[job_id := queued]> (JOBS s))
                     (<[job_id := []]> (EVENTS s)),
            Json200 job_id,
            Some (mkWorker job_id (form_month form) (form_site form)
                           (form_task form) (form_company form)
                           (form_zone form) (form_title form) threshold))
  end.

(** A submission run to its end: [start], then the worker (the only
    writer of its job's dict and queue). *)
Definition submit (form : Form) (job_id : string) (s : Server)
    : Server * Response :=
  match start form job_id s with
  | (s', resp, Some w) => ((run_job w s').1, resp)
  | (s', resp, None) => (s', resp)
  end.

(** * Properties *)

(** ** Comparisons *)

Lemma Qlt_bool_iff a b : Qlt_bool a b = true ↔ (a < b)%Q.
Proof.
  unfold Qlt_bool. rewrite negb_true_iff. split.
  - intros H. apply Qnot_le_lt. intros Hle.
    apply Qle_bool_iff in Hle. congruence.
  - intros H. destruct (Qle_bool b a) eqn:E; [|done].
    apply Qle_bool_iff in E. exfalso. by apply (Qlt_not_le a b).
Qed.

Lemma Qlt_bool_false a b : Qlt_bool a b = false ↔ (b <= a)%Q.
Proof. unfold Qlt_bool. rewrite negb_false_iff. apply Qle_bool_iff. Qed.

(** ** The stable sort puts an index-ordered list in (key, index) order *)

(** [(j, d)] before [(j', d')]: smaller distance, or the same distance
    and a smaller index. *)
Definition lex_lt (x y : nat * nat) : Prop :=
  x.2 < y.2 ∨ (x.2 = y.2 ∧ x.1 < y.1).

Definition idx_lt (x y : nat * nat) : Prop := x.1 < y.1.

Lemma insert_by_perm {A} (key : A → nat) x l : insert_by key x l ≡ₚ x :: l.
Proof.
  induction l as [|y l IH]; simpl; [done|].
  case_decide; [done|]. rewrite IH. apply Permutation_swap.
Qed.

Lemma sort_by_perm {A} (key : A → nat) l : sort_by key l ≡ₚ l.
Proof.
  induction l as [|x l IH]; simpl; [done|].
  by rewrite insert_by_perm, IH.
Qed.

Lemma lex_lt_key_le x y : lex_lt x y → x.2 ≤ y.2.
Proof. unfold lex_lt. lia. Qed.

Lemma insert_by_lex x l :
  StronglySorted lex_lt l → Forall (idx_lt x) l →
  StronglySorted lex_lt (insert_by snd x l).
Proof.
  induction 1 as [|y l Hl IH Hy]; intros Hx; simpl.
  - repeat constructor.
  - apply Forall_cons in Hx as [Hxy Hxl]. case_decide as Hk.
    + constructor; [by constructor|].
      constructor; [unfold lex_lt, idx_lt in *; lia|].
      rewrite Forall_forall in Hy, Hxl |- *. intros z Hz.
      specialize (Hy z Hz). specialize (Hxl z Hz).
      unfold lex_lt, idx_lt in *. lia.
    + constructor; [by apply IH|].
      rewrite insert_by_perm. constructor; [|done].
      unfold lex_lt. lia.
Qed.

Lemma sort_by_lex l :
  StronglySorted idx_lt l → StronglySorted lex_lt (sort_by snd l).
Proof.
  induction 1 as [|x l Hl IH Hx]; simpl; [constructor|].
  apply insert_by_lex; [done|]. by rewrite sort_by_perm.
Qed.

(** [sort_by] is the stable sort: its result is in key order, and the
    elements of one key are in the order they had before. This fixes the
    result, so it is what [list.sort(key=...)] returns. *)
Lemma insert_by_sorted {A} (key : A → nat) x l :
  StronglySorted (λ y z, key y ≤ key z) l →
  StronglySorted (λ y z, key y ≤ key z) (insert_by key x l).
Proof.
  induction 1 as [|y l Hl IH Hy]; simpl.
  - repeat constructor.
  - case_decide as Hk.
    + constructor; [by constructor|]. constructor; [done|].
      rewrite Forall_forall in Hy |- *. intros z Hz.
      specialize (Hy z Hz). simpl in *. lia.
    + constructor; [done|]. rewrite insert_by_perm.
      constructor; [lia|done].
Qed.

Lemma sort_by_sorted {A} (key : A → nat) l :
  StronglySorted (λ y z, key y ≤ key z) (sort_by key l).
Proof.
  induction l as [|x l IH]; simpl; [constructor|]. by apply insert_by_sorted.
Qed.

Lemma insert_by_stable {A} (key : A → nat) k x l :
  StronglySorted (λ y z, key y ≤ key z) l →
  filter (λ y, key y = k) (insert_by key x l)
  = filter (λ y, key y = k) (x :: l).
Proof.
  induction 1 as [|y l Hl IH Hy]; simpl; [done|].
  case_decide as Hk; [done|].
  rewrite (filter_cons _ y), IH, !filter_cons.
  destruct (decide (key y = k)) as [Hyk|Hyk];
    destruct (decide (key x = k)) as [Hxk|Hxk]; try done.
  lia.
Qed.

Lemma sort_by_stable {A} (key : A → nat) k l :
  filter (λ y, key y = k) (sort_by key l) = filter (λ y, key y = k) l.
Proof.
  induction l as [|x l IH]; simpl; [done|].
  rewrite insert_by_stable by apply sort_by_sorted.
  by rewrite !filter_cons, IH.
Qed.

(** [enumerate] lists the positions in increasing order, and the filter
    and the projection of [dlist] keep that order. *)
Lemma imap_pair_sorted {A} (l : list A) k :
  StronglySorted (λ x y : nat * A, x.1 < y.1) (imap (λ i, pair (k + i)) l).
Proof.
  revert k. induction l as [|a l IH]; intros k; [constructor|].
  rewrite imap_cons. constructor.
  - assert (Heq : imap ((λ i, pair (k + i)) ∘ S) l
                  = imap (λ i, pair (S k + i)) l).
    { apply imap_ext. intros i y _. simpl. f_equal. lia. }
    rewrite Heq. apply IH.
  - rewrite Forall_forall. intros [i y] Hin.
    apply elem_of_lookup_imap in Hin as (i' & y' & Heq & _).
    simpl in Heq. injection Heq as -> ->. simpl. lia.
Qed.

Lemma StronglySorted_filter {A} (R : relation A) (P : A → Prop)
    `{!∀ x, Decision (P x)} l :
  StronglySorted R l → StronglySorted R (filter P l).
Proof.
  induction 1 as [|x l Hl IH Hx]; [constructor|].
  rewrite filter_cons. case_decide; [|done].
  constructor; [done|].
  rewrite Forall_forall in Hx |- *. intros y Hy.
  apply list_elem_of_filter in Hy as [_ Hy]. by apply Hx.
Qed.

Lemma imap_pair_fst_filter {A} (P : nat → Prop) `{!∀ j, Decision (P j)}
    (l : list A) k :
  (filter (λ x : nat * A, P x.1) (imap (λ i, pair (k + i)) l)).*1
  = filter P (seq k (length l)).
Proof.
  revert k. induction l as [|a l IH]; intros k; [done|].
  rewrite imap_cons. simpl length. simpl seq.
  rewrite !filter_cons. simpl. replace (k + 0) with k by lia.
  assert (Heq : imap ((λ i, pair (k + i)) ∘ S) l
                = imap (λ i, pair (S k + i)) l).
  { apply imap_ext. intros i y _. simpl. f_equal. lia. }
  rewrite Heq. case_decide; rewrite ?fmap_cons, <- IH; done.
Qed.

Lemma StronglySorted_fst (g : nat → nat) (l : list (nat * nat)) :
  StronglySorted lex_lt l → Forall (λ x, x.2 = g x.1) l →
  StronglySorted (λ j j', lex_lt (j, g j) (j', g j')) (l.*1).
Proof.
  induction 1 as [|x l Hl IH Hx]; intros Hg; csimpl; [constructor|].
  apply Forall_cons in Hg as [Hgx Hgl]. constructor; [by apply IH|].
  rewrite Forall_fmap, Forall_forall in *. intros y Hy. simpl.
  specialize (Hx y Hy). specialize (Hgl y Hy).
  destruct x, y; simpl in *. by subst.
Qed.

Lemma exc_map_pure {A B} (f : A → Exc B) (g : A → B) l :
  (∀ x, x ∈ l → f x = inr (g x)) → exc_map f l = inr (g <$> l).
Proof.
  induction l as [|x l IH]; intros Hf; [done|]. simpl.
  rewrite (Hf x) by left. simpl. rewrite IH; [done|].
  intros y Hy. apply Hf. by right.
Qed.

(** ** [hamming] counts the bits that differ *)

(** The Hamming distance of the specification: the number of positions,
    among the [n] positions of the bit vectors, at which [a] and [b] have
    a different bit. *)
Definition bit_distance (n : nat) (a b : Z) : nat :=
  length (filter (λ i, Z.testbit a (Z.of_nat i) ≠ Z.testbit b (Z.of_nat i))
                 (seq 0 n)).

Lemma length_filter_seq_S (P : nat → Prop) `{!∀ i, Decision (P i)} k n :
  length (filter P (seq (S k) n)) = length (filter (λ i, P (S i)) (seq k n)).
Proof.
  revert k. induction n as [|n IH]; intros k; [done|].
  simpl. rewrite !filter_cons.
  destruct (decide (P (S k))); simpl; by rewrite IH.
Qed.

Lemma pos_ones_testbit n p :
  (Z.pos p < 2 ^ Z.of_nat n)%Z →
  pos_ones p
  = length (filter (λ i, Z.testbit (Z.pos p) (Z.of_nat i) = true) (seq 0 n)).
Proof.
  revert n. induction p as [p IH|p IH|]; intros [|n] Hlt;
    try (simpl in Hlt; lia).
  - rewrite Nat2Z.inj_succ, Z.pow_succ_r in Hlt by lia.
    cbn [seq]. rewrite filter_cons_True by done.
    cbn [pos_ones length]. f_equal.
    rewrite (length_filter_seq_S
               (λ i, Z.testbit (Z.pos p~1) (Z.of_nat i) = true) 0 n).
    rewrite (IH n) by lia. f_equal. apply list_filter_iff. intros i.
    rewrite Nat2Z.inj_succ.
    change (Z.pos p~1) with (2 * Z.pos p + 1)%Z.
    by rewrite Z.testbit_odd_succ by lia.
  - rewrite Nat2Z.inj_succ, Z.pow_succ_r in Hlt by lia.
    cbn [seq]. rewrite filter_cons_False by done.
    cbn [pos_ones].
    rewrite (length_filter_seq_S
               (λ i, Z.testbit (Z.pos p~0) (Z.of_nat i) = true) 0 n).
    rewrite (IH n) by lia. f_equal. apply list_filter_iff. intros i.
    rewrite Nat2Z.inj_succ.
    change (Z.pos p~0) with (2 * Z.pos p)%Z.
    by rewrite Z.testbit_even_succ by lia.
  - cbn [seq]. rewrite filter_cons_True by done.
    cbn [pos_ones length]. f_equal.
    symmetry. apply length_zero_iff_nil.
    assert (Hk : ∀ i, i ∈ seq 1 n → 1 ≤ i).
    { intros i Hi%elem_of_seq. lia. }
    induction (seq 1 n) as [|i l IHl]; [done|].
    rewrite filter_cons_False.
    + apply IHl. intros j Hj. apply Hk. by right.
    + specialize (Hk i). destruct i as [|i];
        [exfalso; apply (Nat.nle_succ_0 0), Hk; by left|].
      change (Z.of_nat (S i)) with (Z.pos (Pos.of_succ_nat i)). simpl.
      by destruct (Pos.of_succ_nat i).
Qed.

Lemma lxor_below n a b :
  (0 ≤ a < 2 ^ Z.of_nat n)%Z → (0 ≤ b < 2 ^ Z.of_nat n)%Z →
  (0 ≤ Z.lxor a b < 2 ^ Z.of_nat n)%Z.
Proof.
  intros Ha Hb. split; [apply Z.lxor_nonneg; lia|].
  destruct (decide (a = 0%Z)) as [->|Ha0].
  { rewrite Z.lxor_0_l. lia. }
  destruct (decide (b = 0%Z)) as [->|Hb0].
  { rewrite Z.lxor_0_r. lia. }
  destruct (decide (Z.lxor a b = 0%Z)) as [->|Hx0]; [lia|].
  assert (0 ≤ Z.lxor a b)%Z by (apply Z.lxor_nonneg; lia).
  apply Z.log2_lt_pow2; [lia|].
  eapply Z.le_lt_trans; [apply Z.log2_lxor; lia|].
  apply Z.max_lub_lt; apply Z.log2_lt_pow2; lia.
Qed.

(** On hashes of [n] bits, [hamming] is the Hamming distance of the
    bit vectors. *)
Lemma hamming_bit_distance n a b :
  (0 ≤ a < 2 ^ Z.of_nat n)%Z → (0 ≤ b < 2 ^ Z.of_nat n)%Z →
  hamming a b = bit_distance n a b.
Proof.
  intros Ha Hb. unfold hamming, bit_distance.
  pose proof (lxor_below n a b Ha Hb) as [Hx0 Hxn].
  transitivity
    (length (filter (λ i, Z.testbit (Z.lxor a b) (Z.of_nat i) = true)
                    (seq 0 n))).
  - destruct (Z.lxor a b) as [|p|p]; [|by apply pos_ones_testbit|lia].
    simpl. symmetry. apply length_zero_iff_nil.
    induction (seq 0 n) as [|i l IHl]; [done|].
    rewrite filter_cons_False; [done|]. by rewrite Z.testbit_0_l.
  - f_equal. apply list_filter_iff. intros i. rewrite Z.lxor_spec.
    by destruct (Z.testbit a _), (Z.testbit b _).
Qed.

(** ** The candidate list *)

Section MatchingFacts.
Variable afters : list Path.
Variables be_ph af_ph : list Z.
Variables be_desc af_desc : gmap string (option (list D)).
Variable threshold : Q.

Local Abbreviation items := (af_items afters af_ph).

(** The fingerprint distance from hash [ph] to after-image [j]. *)
Definition after_dist (ph : Z) (j : nat) : nat :=
  from_option (λ item : Path * Z, hamming ph item.2) 0 (items !! j).

(** The after-indices not yet used, in increasing order. *)
Definition unused_indices (used : gmap nat bool) : list nat :=
  filter (λ j, unused used j) (seq 0 (length items)).

(** [dlist] when [be_ph[idx]] is [ph]. *)
Definition dlist_of (ph : Z) (used : gmap nat bool) : list (nat * nat) :=
  (λ x : nat * (Path * Z), (x.1, hamming ph x.2.2))
    <$> filter (λ x : nat * (Path * Z), unused used x.1) (imap pair items).

Lemma dlist_eq idx ph used :
  be_ph !! idx = Some ph → dlist afters be_ph af_ph idx used = inr (dlist_of ph used).
Proof.
  intros Hph. unfold dlist, dlist_of. apply exc_map_pure.
  intros x _. unfold list_index. by rewrite Hph.
Qed.

Lemma dlist_of_fst ph used : (dlist_of ph used).*1 = unused_indices used.
Proof.
  unfold dlist_of, unused_indices. rewrite <- list_fmap_compose.
  rewrite <- (imap_pair_fst_filter (λ j, unused used j) items 0).
  done.
Qed.

Lemma dlist_of_elem ph used x :
  x ∈ dlist_of ph used →
  x.2 = after_dist ph x.1 ∧ x.1 < length items ∧ unused used x.1 = true.
Proof.
  unfold dlist_of. intros Hx.
  apply list_elem_of_fmap in Hx as ([j item] & -> & Hin).
  apply list_elem_of_filter in Hin as [Hu Hin].
  apply elem_of_lookup_imap in Hin as (i & y & Heq & Hi).
  injection Heq as -> ->. simpl in *. unfold after_dist. rewrite Hi.
  split; [done|]. split; [by eapply lookup_lt_Some|].
  by apply Is_true_true.
Qed.

Lemma dlist_of_sorted ph used : StronglySorted idx_lt (dlist_of ph used).
Proof.
  unfold dlist_of.
  apply (StronglySorted_fmap _ (λ x y : nat * (Path * Z), x.1 < y.1));
    [by intros [] []|].
  apply StronglySorted_filter. apply (imap_pair_sorted items 0).
Qed.

Lemma sorted_dlist_elem ph used x :
  x ∈ sort_by snd (dlist_of ph used) ↔ x ∈ dlist_of ph used.
Proof. by rewrite sort_by_perm. Qed.

Lemma unused_indices_elem used j :
  j ∈ unused_indices used ↔ j < length items ∧ unused used j = true.
Proof.
  unfold unused_indices. rewrite list_elem_of_filter, elem_of_seq.
  rewrite Is_true_true. split; intros []; split; (done || lia).
Qed.

Lemma dlist_of_complete ph used j :
  j < length items → unused used j = true →
  (j, after_dist ph j) ∈ dlist_of ph used.
Proof.
  intros Hj Hu.
  assert (Hin : j ∈ (dlist_of ph used).*1).
  { rewrite dlist_of_fst. by apply unused_indices_elem. }
  apply list_elem_of_fmap in Hin as ([j' d] & -> & Hin).
  apply dlist_of_elem in Hin as Hd. simpl in Hd.
  destruct Hd as [-> _]. done.
Qed.

(** What [dlist], the sort and the slice give, for a before-image whose
    hash is [ph]. *)
Lemma cand_of_dlist_facts idx ph used :
  be_ph !! idx = Some ph →
  ∃ dl, dlist afters be_ph af_ph idx used = inr dl ∧
    let cand := cand_of dl in
    let before_in_order j j' :=
      lex_lt (j, after_dist ph j) (j', after_dist ph j') in
    (∀ j, j ∈ cand → j < length afters ∧ j < length af_ph
                     ∧ unused used j = true) ∧
    length cand = top_k `min` length (unused_indices used) ∧
    length cand ≤ top_k ∧
    NoDup cand ∧
    StronglySorted before_in_order cand ∧
    (∀ j j', j ∈ cand → j' ∈ unused_indices used → j' ∉ cand →
             before_in_order j j') ∧
    (length (unused_indices used) ≤ top_k → cand ≡ₚ unused_indices used).
Proof.
  intros Hph. exists (dlist_of ph used). split; [by apply dlist_eq|].
  intros cand before_in_order.
  set (s := sort_by snd (dlist_of ph used)).
  assert (Hs : StronglySorted lex_lt s).
  { apply sort_by_lex. apply dlist_of_sorted. }
  assert (Hg : Forall (λ x, x.2 = after_dist ph x.1) s).
  { rewrite Forall_forall. intros x Hx. apply sorted_dlist_elem in Hx.
    by apply dlist_of_elem in Hx as [? _]. }
  assert (Hlen : length s = length (unused_indices used)).
  { unfold s. rewrite sort_by_perm, <- (dlist_of_fst ph). by rewrite length_fmap. }
  assert (Hsplit : s = take top_k s ++ drop top_k s) by by rewrite take_drop.
  assert (Hcand : ∀ j, j ∈ cand → (j, after_dist ph j) ∈ take top_k s).
  { intros j Hj. unfold cand, cand_of in Hj. fold s in Hj.
    apply list_elem_of_fmap in Hj as ([j' d] & -> & Hin).
    assert (Hin' : (j', d) ∈ s).
    { rewrite Hsplit. apply elem_of_app. by left. }
    rewrite Forall_forall in Hg. specialize (Hg _ Hin'). simpl in Hg.
    by subst d. }
  assert (Hlen_items : length items = length afters `min` length af_ph).
  { unfold af_items. apply length_zip_with. }
  split; [|repeat split].
  - intros j Hj. apply Hcand in Hj.
    assert (Hin : (j, after_dist ph j) ∈ s).
    { rewrite Hsplit. apply elem_of_app. by left. }
    apply sorted_dlist_elem, dlist_of_elem in Hin. simpl in Hin.
    destruct Hin as (_ & Hlt & Hu). split; [lia|]. split; [lia|done].
  - unfold cand, cand_of. fold s. by rewrite length_fmap, length_take, Hlen.
  - unfold cand, cand_of. fold s. rewrite length_fmap, length_take. lia.
  - unfold cand, cand_of. fold s.
    assert (Hnd : NoDup (s.*1)).
    { unfold s. rewrite sort_by_perm, dlist_of_fst. unfold unused_indices.
      apply NoDup_filter, NoDup_seq. }
    rewrite Hsplit, fmap_app in Hnd. by apply NoDup_app in Hnd as [? _].
  - unfold cand, cand_of. fold s. apply StronglySorted_fst.
    + rewrite Hsplit in Hs. by apply StronglySorted_app_1_l in Hs.
    + rewrite Hsplit in Hg. by apply Forall_app in Hg as [? _].
  - intros j j' Hj Hj' Hnot. apply Hcand in Hj.
    apply unused_indices_elem in Hj' as [Hlt Hu].
    pose proof (dlist_of_complete ph used j' Hlt Hu) as Hin.
    apply sorted_dlist_elem in Hin. fold s in Hin.
    rewrite Hsplit in Hin. apply elem_of_app in Hin as [Hin|Hin].
    + exfalso. apply Hnot. unfold cand, cand_of. fold s.
      apply list_elem_of_fmap. by exists (j', after_dist ph j').
    + rewrite Hsplit in Hs.
      by apply (StronglySorted_app_1_elem_of _ _ _ _ _ Hs).
  - intros Hle. unfold cand, cand_of. fold s.
    rewrite take_ge by lia. unfold s.
    by rewrite sort_by_perm, dlist_of_fst.
Qed.

(** ** The similarity score *)

Lemma score_pair_range des_a des_b :
  (0 <= score_pair des_a des_b <= 1)%Q.
Proof.
  unfold score_pair.
  destruct des_a as [a|], des_b as [b|]; try (split; discriminate).
  destruct (_ || _); [split; discriminate|].
  destruct (knnMatch a b) as [matches|]; [|split; discriminate].
  split; [|apply Q.le_min_l].
  apply Q.min_glb; [discriminate|].
  unfold Qle. simpl. lia.
Qed.

Lemma sentinel_below_score des_a des_b :
  (sentinel < score_pair des_a des_b)%Q.
Proof.
  apply Qlt_le_trans with 0%Q; [reflexivity|]. apply score_pair_range.
Qed.

Lemma pair_score_range b j s :
  pair_score afters af_ph be_desc af_desc b j = inr s → (0 <= s <= 1)%Q.
Proof.
  unfold pair_score. intros H.
  destruct (list_index _ j) as [|item]; [done|]. simpl in H.
  destruct (dict_index be_desc b) as [|da]; [done|]. simpl in H.
  destruct (dict_index af_desc _) as [|db]; [done|]. simpl in H.
  injection H as <-. apply score_pair_range.
Qed.

(** ** The choice among the candidates *)

(** [best_loop] when every candidate's score is computed: it keeps the
    first candidate that beats every earlier one and the start value. *)
Lemma best_loop_first_max b (sc : nat → Q) cand best :
  (∀ j, j ∈ cand → pair_score afters af_ph be_desc af_desc b j = inr (sc j)) →
  ∃ best', best_loop afters af_ph be_desc af_desc b cand best = inr best' ∧
    ((best' = best ∧ ∀ j, j ∈ cand → (sc j <= best.2)%Q) ∨
     (∃ j l1 l2, best' = (Some j, sc j) ∧ cand = l1 ++ j :: l2 ∧
        (best.2 < sc j)%Q ∧
        (∀ j1, j1 ∈ l1 → (sc j1 < sc j)%Q) ∧
        (∀ j2, j2 ∈ l2 → (sc j2 <= sc j)%Q))).
Proof.
  revert best. induction cand as [|j cand IH]; intros best Hsc.
  - exists best. split; [done|]. left. split; [done|]. by intros j Hj%elem_of_nil.
  - simpl. unfold score_step. rewrite (Hsc j) by left. simpl.
    destruct (IH (if Qlt_bool best.2 (sc j) then (Some j, sc j) else best))
      as (best' & Hrun & Hcase).
    { intros j' Hj'. apply Hsc. by right. }
    exists best'. split; [done|].
    destruct (Qlt_bool best.2 (sc j)) eqn:Hlt.
    + apply Qlt_bool_iff in Hlt. right.
      destruct Hcase as [[-> Hall]|(j' & l1 & l2 & -> & -> & Hgt & H1 & H2)].
      * exists j, [], cand. simpl in Hall.
        repeat split; [done| |done]. by intros j1 Hj1%elem_of_nil.
      * simpl in Hgt. exists j', (j :: l1), l2.
        repeat split; [by eapply Qlt_trans| |done].
        intros j1 Hj1. apply elem_of_cons in Hj1 as [->|Hj1]; [done|by apply H1].
    + apply Qlt_bool_false in Hlt.
      destruct Hcase as [[-> Hall]|(j' & l1 & l2 & -> & -> & Hgt & H1 & H2)].
      * left. split; [done|]. intros j1 Hj1.
        apply elem_of_cons in Hj1 as [->|Hj1]; [done|by apply Hall].
      * right. exists j', (j :: l1), l2.
        repeat split; [done| |done].
        intros j1 Hj1. apply elem_of_cons in Hj1 as [->|Hj1]; [|by apply H1].
        by eapply Qle_lt_trans.
Qed.

(** The score of the pair (before-image [b], after-image [j]) when the
    tables hold both. *)
Definition score_at (b : Path) (j : nat) : Q :=
  match pair_score afters af_ph be_desc af_desc b j with
  | inr s => s
  | inl _ => 0%Q
  end.

Lemma pair_score_total b j :
  is_Some (be_desc !! b) →
  (∀ a, a ∈ afters → is_Some (af_desc !! a)) →
  j < length items →
  pair_score afters af_ph be_desc af_desc b j = inr (score_at b j).
Proof.
  intros [da Hda] Haf Hj. unfold score_at, pair_score, list_index, dict_index.
  apply lookup_lt_is_Some in Hj as [[a aph] Hitem].
  rewrite Hitem. simpl. rewrite Hda. simpl.
  destruct (Haf a) as [db Hdb].
  { unfold af_items in Hitem. apply lookup_zip_with_Some in Hitem
      as (a' & aph' & Heq & Ha & _). injection Heq as -> ->.
    by eapply list_elem_of_lookup_2. }
  by rewrite Hdb.
Qed.

Lemma score_at_range b j : (0 <= score_at b j <= 1)%Q.
Proof.
  unfold score_at.
  destruct (pair_score _ _ _ _ b j) as [|s] eqn:E; [split; discriminate|].
  by eapply pair_score_range.
Qed.

(** The scoring loop on a candidate list that is not empty. *)
Lemma best_loop_selects idx b ph used :
  be_ph !! idx = Some ph →
  is_Some (be_desc !! b) →
  (∀ a, a ∈ afters → is_Some (af_desc !! a)) →
  ∃ dl, dlist afters be_ph af_ph idx used = inr dl ∧
    (cand_of dl ≠ [] →
     ∃ best_j best_s,
       best_loop afters af_ph be_desc af_desc b (cand_of dl) (None, sentinel)
         = inr (Some best_j, best_s) ∧
       best_j ∈ cand_of dl ∧
       pair_score afters af_ph be_desc af_desc b best_j = inr best_s ∧
       ∀ j s, j ∈ cand_of dl →
              pair_score afters af_ph be_desc af_desc b j = inr s →
              (s <= best_s)%Q ∧
              (s == best_s → j ≠ best_j →
               lex_lt (best_j, after_dist ph best_j) (j, after_dist ph j))).
Proof.
  intros Hph Hbe Haf.
  destruct (cand_of_dlist_facts idx ph used Hph)
    as (dl & Hdl & Hin & _ & _ & _ & Hsorted & _).
  exists dl. split; [done|]. intros Hne.
  assert (Hsc : ∀ j, j ∈ cand_of dl →
            pair_score afters af_ph be_desc af_desc b j = inr (score_at b j)).
  { intros j Hj. apply pair_score_total; [done..|].
    destruct (Hin j Hj) as (? & ? & _).
    unfold af_items. rewrite length_zip_with. lia. }
  destruct (best_loop_first_max b (score_at b) (cand_of dl) (None, sentinel) Hsc)
    as (best' & Hrun & [[-> Hall]|(j & l1 & l2 & -> & Hcand & _ & H1 & H2)]).
  - exfalso. destruct (cand_of dl) as [|j l]; [done|].
    specialize (Hall j (list_elem_of_here _ _)). simpl in Hall.
    pose proof (score_at_range b j) as [Hge _].
    assert (Hbad : (0 <= sentinel)%Q) by by eapply Qle_trans.
    by apply Hbad.
  - exists j, (score_at b j). split; [done|].
    assert (Hj : j ∈ cand_of dl).
    { rewrite Hcand. apply elem_of_app. right. left. }
    split; [done|]. split; [by apply Hsc|].
    intros j' s Hj' Hs. rewrite (Hsc j' Hj') in Hs. injection Hs as <-.
    rewrite Hcand in Hj'. apply elem_of_app in Hj' as [Hj'|Hj'].
    + split; [by apply Qlt_le_weak, H1|]. intros Heq _.
      exfalso. specialize (H1 j' Hj'). rewrite Heq in H1.
      by apply (Qlt_irrefl (score_at b j)).
    + apply elem_of_cons in Hj' as [->|Hj']; [split; [apply Qle_refl|done]|].
      split; [by apply H2|]. intros _ _.
      rewrite Hcand in Hsorted.
      apply StronglySorted_app_1_r, StronglySorted_cons in Hsorted as [Hall _].
      rewrite Forall_forall in Hall. by apply Hall.
Qed.

(** ** The candidates in the terms of the specification

    The distance as the number of differing bits, and "not used" as the
    content of the dict [used]. *)

Lemma unused_lookup (used : gmap nat bool) j :
  unused used j = true ↔ used !! j ≠ Some true.
Proof.
  unfold unused. destruct (used !! j) as [[|]|]; simpl; split; congruence.
Qed.

Lemma StronglySorted_on {A} (R R' : A → A → Prop) (l : list A) :
  StronglySorted R l →
  (∀ x y, x ∈ l → y ∈ l → R x y → R' x y) →
  StronglySorted R' l.
Proof.
  induction 1 as [|x l Hl IH Hx]; intros Himp; constructor.
  - apply IH. intros y z Hy Hz. apply Himp; by right.
  - rewrite Forall_forall in Hx |- *. intros y Hy.
    apply Himp; [left|by right|by apply Hx].
Qed.

Lemma after_dist_bits n ph j :
  (0 ≤ ph < 2 ^ Z.of_nat n)%Z →
  Forall (λ h, (0 ≤ h < 2 ^ Z.of_nat n)%Z) af_ph →
  j < length afters → j < length af_ph →
  after_dist ph j = from_option (bit_distance n ph) 0 (af_ph !! j).
Proof.
  intros Hph Haf Hja Hjp. unfold after_dist, af_items.
  destruct (lookup_lt_is_Some_2 afters j Hja) as [a Ha].
  destruct (lookup_lt_is_Some_2 af_ph j Hjp) as [h Hh].
  rewrite (proj2 (lookup_zip_with_Some pair afters af_ph j (a, h))).
  2:{ by exists a, h. }
  rewrite Hh. simpl. apply hamming_bit_distance; [done|].
  rewrite Forall_forall in Haf. apply Haf. by eapply list_elem_of_lookup_2.
Qed.

Lemma unused_indices_free used :
  unused_indices used
  = filter (λ j, used !! j ≠ Some true)
           (seq 0 (length afters `min` length af_ph)).
Proof.
  unfold unused_indices, af_items. rewrite length_zip_with.
  apply list_filter_iff. intros j. rewrite Is_true_true. apply unused_lookup.
Qed.

(** [cand_of_dlist_facts] in those terms, for hashes of [n] bits. *)
Lemma cand_of_bits idx ph used n :
  be_ph !! idx = Some ph →
  (0 ≤ ph < 2 ^ Z.of_nat n)%Z →
  Forall (λ h, (0 ≤ h < 2 ^ Z.of_nat n)%Z) af_ph →
  ∃ dl, dlist afters be_ph af_ph idx used = inr dl ∧
    let cand := cand_of dl in
    let free := filter (λ j, used !! j ≠ Some true)
                       (seq 0 (length afters `min` length af_ph)) in
    let dist j := from_option (bit_distance n ph) 0 (af_ph !! j) in
    let before_in_order j j' :=
      dist j < dist j' ∨ (dist j = dist j' ∧ j < j') in
    (∀ j, j ∈ cand → j < length afters ∧ j < length af_ph
                     ∧ used !! j ≠ Some true) ∧
    length cand = top_k `min` length free ∧
    NoDup cand ∧
    StronglySorted before_in_order cand ∧
    (∀ j j', j ∈ cand → j' ∈ free → j' ∉ cand → before_in_order j j') ∧
    (length free ≤ top_k → cand ≡ₚ free).
Proof.
  intros Hph Hphn Hafn.
  destruct (cand_of_dlist_facts idx ph used Hph)
    as (dl & Hdl & Hin & Hlen & _ & Hnd & Hsorted & Hout & Hall).
  exists dl. split; [done|]. intros cand free dist before_in_order.
  assert (Hfree : unused_indices used = free) by apply unused_indices_free.
  assert (Hdist : ∀ j, j < length afters → j < length af_ph →
                       after_dist ph j = dist j).
  { intros j ? ?. by apply (after_dist_bits n). }
  assert (Hcand : ∀ j, j ∈ cand → after_dist ph j = dist j).
  { intros j Hj. destruct (Hin j Hj) as (? & ? & _). by apply Hdist. }
  assert (Hfr : ∀ j, j ∈ free → after_dist ph j = dist j).
  { intros j Hj. apply list_elem_of_filter in Hj as [_ Hj].
    apply elem_of_seq in Hj. apply Hdist; lia. }
  split_and!.
  - intros j Hj. destruct (Hin j Hj) as (? & ? & Hu).
    split_and!; [done..|]. by apply unused_lookup.
  - by rewrite <- Hfree.
  - done.
  - apply (StronglySorted_on _ _ _ Hsorted). intros j j' Hj Hj' Hlt.
    unfold before_in_order. rewrite <- (Hcand j Hj), <- (Hcand j' Hj').
    exact Hlt.
  - intros j j' Hj Hj' Hnot. unfold before_in_order.
    rewrite <- (Hcand j Hj), <- (Hfr j' Hj').
    apply (Hout j j' Hj); [by rewrite Hfree|done].
  - rewrite <- Hfree. exact Hall.
Qed.


(** ** One turn of the matching loop *)

(** The path [afters[j]] (the empty path if there is none). *)
Definition after_path (j : nat) : Path := default ""%string (afters !! j).

Lemma after_path_lookup j :
  j < length afters → afters !! j = Some (after_path j).
Proof.
  intros Hj. apply lookup_lt_is_Some in Hj as [a Ha].
  unfold after_path. by rewrite Ha.
Qed.

(** What a resolution appends to [pairs], marks in [used], and counts
    in the progress dict. *)
Definition pair_of (b : Path) (r : Resolution) : list Pair :=
  match r with
  | Confident j s => [(b, after_path j, s)]
  | Fallback j => [(b, after_path j, sentinel)]
  | Unpaired => []
  end.

Definition mark (r : Resolution) (used : gmap nat bool) : gmap nat bool :=
  match assigned_after r with
  | Some j => <[j := true]> used
  | None => used
  end.

Definition bump (r : Resolution) (p : Progress) : Progress :=
  match r with
  | Confident _ _ => incr_matched p
  | Fallback _ => incr_unmatched p
  | Unpaired => p
  end.

(** What holds of a resolution made when the used marks are [used]. *)
Definition sound (idx : nat) (used : gmap nat bool) (r : Resolution) : Prop :=
  match r with
  | Confident j s =>
      j < length afters ∧ unused used j = true ∧
      (threshold <= s)%Q ∧ (0 <= s <= 1)%Q
  | Fallback j => j = idx ∧ idx < length afters ∧ unused used idx = true
  | Unpaired => ¬ (idx < length afters ∧ unused used idx = true)
  end.

Lemma fallback_sound idx used : sound idx used (fallback afters idx used).
Proof.
  unfold fallback.
  destruct (bool_decide (idx < length afters)) eqn:Hlt;
    destruct (unused used idx) eqn:Hu; simpl;
    try apply bool_decide_eq_true in Hlt;
    try apply bool_decide_eq_false in Hlt; try done.
  - intros [_ ?]. congruence.
  - intros [? _]. done.
  - intros [? _]. done.
Qed.

(** The candidates and the best of them, for a before-image whose rows
    are in the tables. *)
Lemma resolve_run idx b ph used :
  be_ph !! idx = Some ph →
  is_Some (be_desc !! b) →
  (∀ a, a ∈ afters → is_Some (af_desc !! a)) →
  ∃ dl best,
    dlist afters be_ph af_ph idx used = inr dl ∧
    best_loop afters af_ph be_desc af_desc b (cand_of dl) (None, sentinel)
      = inr best ∧
    resolve afters be_ph af_ph be_desc af_desc threshold idx b used
      = inr (decide_pair afters threshold idx used best) ∧
    ((cand_of dl = [] ∧ best = (None, sentinel)) ∨
     (∃ j s, best = (Some j, s) ∧ j ∈ cand_of dl ∧
             pair_score afters af_ph be_desc af_desc b j = inr s)).
Proof.
  intros Hph Hbe Haf.
  destruct (best_loop_selects idx b ph used Hph Hbe Haf) as (dl & Hdl & Hsel).
  destruct (decide (cand_of dl = [])) as [Hnil|Hne].
  - exists dl, (None, sentinel). unfold resolve. rewrite Hdl. simpl.
    rewrite Hnil. simpl. repeat split; try done. by left.
  - destruct (Hsel Hne) as (j & s & Hrun & Hj & Hs & _).
    exists dl, (Some j, s). unfold resolve. rewrite Hdl. simpl.
    rewrite Hrun. simpl. repeat split; try done. right. by exists j, s.
Qed.

Lemma resolve_sound idx b ph used :
  be_ph !! idx = Some ph →
  is_Some (be_desc !! b) →
  (∀ a, a ∈ afters → is_Some (af_desc !! a)) →
  ∃ r, resolve afters be_ph af_ph be_desc af_desc threshold idx b used = inr r
       ∧ sound idx used r.
Proof.
  intros Hph Hbe Haf.
  destruct (resolve_run idx b ph used Hph Hbe Haf)
    as (dl & best & Hdl & Hrun & Hres & Hcase).
  eexists. split; [exact Hres|].
  destruct Hcase as [[_ ->]|(j & s & -> & Hj & Hs)]; simpl.
  - apply fallback_sound.
  - destruct (Qle_bool threshold s) eqn:Hle; [|apply fallback_sound].
    destruct (cand_of_dlist_facts idx ph used Hph) as (dl' & Hdl' & Hin & _).
    rewrite Hdl in Hdl'. injection Hdl' as <-.
    destruct (Hin j Hj) as (? & ? & ?). simpl.
    repeat split; try done.
    + by apply Qle_bool_iff.
    + by eapply pair_score_range.
    + by eapply pair_score_range.
Qed.

Lemma commit_run b r pairs used p idx :
  sound idx used r →
  commit afters b r (pairs, used) p
  = (bump r p, inr (pairs ++ pair_of b r, mark r used)).
Proof.
  unfold commit, after_path, pair_of, mark, bump.
  destruct r as [j s|j|]; simpl.
  - intros (Hj & _). apply lookup_lt_is_Some in Hj as [a Ha].
    unfold m_bind, m_lift, m_modify, m_ret, list_index, after_path.
    by rewrite Ha.
  - intros (-> & Hj & _). apply lookup_lt_is_Some in Hj as [a Ha].
    unfold m_bind, m_lift, m_modify, m_ret, list_index, after_path.
    by rewrite Ha.
  - intros _. unfold m_ret. by rewrite app_nil_r.
Qed.

Lemma iteration_run idx b ph pairs used p :
  be_ph !! idx = Some ph →
  is_Some (be_desc !! b) →
  (∀ a, a ∈ afters → is_Some (af_desc !! a)) →
  ∃ r, resolve afters be_ph af_ph be_desc af_desc threshold idx b used = inr r
       ∧ sound idx used r
       ∧ iteration afters be_ph af_ph be_desc af_desc threshold idx b
                   (pairs, used) p
         = (set_done (Z.of_nat idx + 1) (bump r p),
            inr (r, (pairs ++ pair_of b r, mark r used))).
Proof.
  intros Hph Hbe Haf.
  destruct (resolve_sound idx b ph used Hph Hbe Haf) as (r & Hres & Hs).
  exists r. repeat split; [done..|].
  unfold iteration, m_bind, m_lift. simpl. rewrite Hres.
  by rewrite (commit_run b r pairs used p idx Hs).
Qed.

(** ** The whole matching loop *)

(** The pairs appended for the before-images [bs], resolved as [trace]. *)
Fixpoint pairs_of (bs : list Path) (trace : list Resolution) : list Pair :=
  match bs, trace with
  | b :: bs', r :: trace' => pair_of b r ++ pairs_of bs' trace'
  | _, _ => []
  end.

(** The used marks and the progress dict after the turns of [trace],
    the first of them for position [idx]. *)
Fixpoint marks (trace : list Resolution) (used : gmap nat bool)
    : gmap nat bool :=
  match trace with
  | [] => used
  | r :: trace' => marks trace' (mark r used)
  end.

Fixpoint progress_after (idx : nat) (trace : list Resolution) (p : Progress)
    : Progress :=
  match trace with
  | [] => p
  | r :: trace' =>
      progress_after (S idx) trace' (set_done (Z.of_nat idx + 1) (bump r p))
  end.

(** Every resolution of [trace] is sound for the marks left by the
    turns before it. *)
Fixpoint trace_sound (idx : nat) (used : gmap nat bool)
    (trace : list Resolution) : Prop :=
  match trace with
  | [] => True
  | r :: trace' => sound idx used r ∧ trace_sound (S idx) (mark r used) trace'
  end.

(** The rows the loop reads for the before-images [bs], the first at
    position [idx]. *)
Definition rows_ok (idx : nat) (bs : list Path) : Prop :=
  (∀ k b, bs !! k = Some b →
          is_Some (be_ph !! (idx + k)) ∧ is_Some (be_desc !! b)) ∧
  (∀ a, a ∈ afters → is_Some (af_desc !! a)).

Lemma rows_ok_tail idx b bs : rows_ok idx (b :: bs) → rows_ok (S idx) bs.
Proof.
  intros [Hbs Haf]. split; [|done]. intros k b' Hk.
  replace (S idx + k) with (idx + S k) by lia. by apply Hbs.
Qed.

Lemma matching_run bs idx pairs used p :
  rows_ok idx bs →
  ∃ trace,
    matching afters be_ph af_ph be_desc af_desc threshold idx bs (pairs, used) p
    = (progress_after idx trace p,
       inr (trace, (pairs ++ pairs_of bs trace, marks trace used))) ∧
    length trace = length bs ∧
    trace_sound idx used trace.
Proof.
  revert idx pairs used p.
  induction bs as [|b bs IH]; intros idx pairs used p Hok.
  - exists []. simpl. unfold m_ret. by rewrite app_nil_r.
  - destruct Hok as [Hbs Haf].
    destruct (Hbs 0 b eq_refl) as [[ph Hph] Hbe].
    replace (idx + 0) with idx in Hph by lia.
    destruct (iteration_run idx b ph pairs used p Hph Hbe Haf)
      as (r & _ & Hs & Hit).
    destruct (IH (S idx) (pairs ++ pair_of b r) (mark r used)
                 (set_done (Z.of_nat idx + 1) (bump r p)))
      as (trace & Hrun & Hlen & Hts).
    { by apply (rows_ok_tail idx b). }
    exists (r :: trace). split; [|split].
    + simpl. unfold m_bind. rewrite Hit. simpl. rewrite Hrun.
      unfold m_ret. simpl. by rewrite <- app_assoc.
    + simpl. by rewrite Hlen.
    + by split.
Qed.

(** *** Consequences of soundness *)

Lemma unused_spec (used : gmap nat bool) j :
  unused used j = true ↔ used !! j ≠ Some true.
Proof.
  unfold unused. destruct (used !! j) as [[]|]; simpl; split; done.
Qed.

Lemma unused_mark r used j :
  unused (mark r used) j = true ↔
  unused used j = true ∧ assigned_after r ≠ Some j.
Proof.
  unfold mark. destruct (assigned_after r) as [i|].
  - unfold unused. destruct (decide (i = j)) as [->|Hne].
    + rewrite lookup_insert_eq. simpl. split; [done|]. by intros [_ []].
    + rewrite lookup_insert_ne by done.
      split; [intros ?; split; [done|congruence]|by intros [? _]].
  - split; [by intros ?|by intros [? _]].
Qed.

Lemma sound_assigned idx used r j :
  sound idx used r → assigned_after r = Some j →
  j < length afters ∧ unused used j = true.
Proof.
  destruct r as [j' s|j'|]; simpl; intros Hs Heq; [| |done];
    injection Heq as ->.
  - by destruct Hs as (? & ? & _).
  - by destruct Hs as (-> & ? & ?).
Qed.

Lemma trace_assigned idx used trace j :
  trace_sound idx used trace → j ∈ omap assigned_after trace →
  j < length afters ∧ unused used j = true.
Proof.
  revert idx used. induction trace as [|r trace IH]; intros idx used Hts Hj.
  - by apply elem_of_nil in Hj.
  - destruct Hts as [Hs Hts]. simpl in Hj.
    destruct (assigned_after r) as [i|] eqn:Hr.
    + apply elem_of_cons in Hj as [->|Hj].
      * by eapply sound_assigned.
      * destruct (IH _ _ Hts Hj) as [? Hu].
        apply unused_mark in Hu as [? _]. done.
    + destruct (IH _ _ Hts Hj) as [? Hu].
      apply unused_mark in Hu as [? _]. done.
Qed.

Lemma trace_assigned_NoDup idx used trace :
  trace_sound idx used trace → NoDup (omap assigned_after trace).
Proof.
  revert idx used. induction trace as [|r trace IH]; intros idx used Hts.
  - constructor.
  - destruct Hts as [Hs Hts]. simpl.
    destruct (assigned_after r) as [i|] eqn:Hr; [|by eapply IH].
    constructor; [|by eapply IH].
    intros Hin. destruct (trace_assigned _ _ _ _ Hts Hin) as [_ Hu].
    apply unused_mark in Hu as [_ Hne]. congruence.
Qed.

Lemma trace_confident idx used trace j s :
  trace_sound idx used trace → Confident j s ∈ trace →
  (threshold <= s)%Q ∧ (0 <= s <= 1)%Q.
Proof.
  revert idx used. induction trace as [|r trace IH]; intros idx used Hts Hin.
  - by apply elem_of_nil in Hin.
  - destruct Hts as [Hs Hts]. apply elem_of_cons in Hin as [<-|Hin].
    + simpl in Hs. by destruct Hs as (_ & _ & ? & ?).
    + by eapply IH.
Qed.

Lemma trace_fallback idx used trace k j :
  trace_sound idx used trace → trace !! k = Some (Fallback j) → j = idx + k.
Proof.
  revert idx used k. induction trace as [|r trace IH]; intros idx used k Hts Hk.
  - done.
  - destruct Hts as [Hs Hts]. destruct k as [|k]; simpl in Hk.
    + injection Hk as ->. simpl in Hs. lia.
    + rewrite (IH _ _ _ Hts Hk). lia.
Qed.

(** *** Counting the resolutions *)

Definition is_confident (r : Resolution) : bool :=
  match r with Confident _ _ => true | _ => false end.
Definition is_fallback (r : Resolution) : bool :=
  match r with Fallback _ => true | _ => false end.
Definition is_unpaired (r : Resolution) : bool :=
  match r with Unpaired => true | _ => false end.

Definition count (f : Resolution → bool) (trace : list Resolution) : nat :=
  length (filter (λ r, f r) trace).

Lemma count_cons f r trace :
  count f (r :: trace) = (if f r then 1 else 0) + count f trace.
Proof.
  unfold count. rewrite filter_cons.
  by destruct (f r) eqn:E; case_decide as H; simpl.
Qed.

Lemma count_partition trace :
  count is_confident trace + count is_fallback trace + count is_unpaired trace
  = length trace.
Proof.
  induction trace as [|r trace IH]; [done|].
  rewrite !count_cons. simpl length. destruct r; simpl; lia.
Qed.

Lemma length_pairs_of bs trace :
  length bs = length trace →
  length (pairs_of bs trace)
  = count is_confident trace + count is_fallback trace.
Proof.
  revert trace. induction bs as [|b bs IH]; intros [|r trace] Hlen;
    try done.
  simpl. rewrite length_app, !count_cons, IH by (simpl in Hlen; lia).
  destruct r; simpl; lia.
Qed.

Lemma pairs_of_afters bs trace :
  length bs = length trace →
  (pairs_of bs trace).*1.*2 = after_path <$> omap assigned_after trace.
Proof.
  revert trace. induction bs as [|b bs IH]; intros [|r trace] Hlen;
    try done.
  simpl. rewrite !fmap_app, IH by (simpl in Hlen; lia).
  by destruct r.
Qed.

Lemma progress_after_fields idx trace p :
  let p' := progress_after idx trace p in
  matched p' = (matched p + Z.of_nat (count is_confident trace))%Z ∧
  unmatched p' = (unmatched p + Z.of_nat (count is_fallback trace))%Z ∧
  done p' = (if trace is [] then done p
             else Z.of_nat (idx + length trace))%Z ∧
  state p' = state p ∧ total p' = total p ∧ before p' = before p ∧
  after p' = after p ∧ pages p' = pages p ∧ download p' = download p ∧
  error p' = error p.
Proof.
  revert idx p. induction trace as [|r trace IH]; intros idx p; simpl.
  - unfold count. simpl. repeat split; lia.
  - destruct (IH (S idx) (set_done (Z.of_nat idx + 1) (bump r p)))
      as (Hm & Hu & Hd & Hs & Ht & Hb & Ha & Hp & Hdl & He).
    rewrite !count_cons. rewrite Hm, Hu, Hd, Hs, Ht, Hb, Ha, Hp, Hdl, He.
    repeat split; try (by destruct r).
    + destruct r; simpl; lia.
    + destruct r; simpl; lia.
    + destruct trace; simpl; lia.
Qed.

End MatchingFacts.

(** ** Preprocessing *)

Lemma fingerprint_run ps ph desc :
  (∀ p, p ∈ ps → (∃ h, phash p = inr h) ∧ (∃ d, describe p = inr d)) →
  ∃ ph' desc',
    fingerprint ps ph desc = inr (ph', desc') ∧
    length ph' = length ph + length ps ∧
    (∀ p, p ∈ ps ∨ is_Some (desc !! p) → is_Some (desc' !! p)).
Proof.
  revert ph desc. induction ps as [|p ps IH]; intros ph desc Hok.
  - exists ph, desc. simpl. repeat split; [lia|].
    intros p [Hp|Hp]; [by apply elem_of_nil in Hp|done].
  - destruct (Hok p) as [[h Hh] [d Hd]]; [left|].
    destruct (IH (ph ++ [h]) (<[p := d]> desc)) as (ph' & desc' & Hrun & Hlen & Hdom).
    { intros q Hq. apply Hok. by right. }
    exists ph', desc'. simpl. rewrite Hh, Hd. simpl.
    split; [done|]. split.
    + rewrite Hlen, length_app. simpl. lia.
    + intros q [Hq|Hq]; apply Hdom.
      * apply elem_of_cons in Hq as [->|Hq]; [right|by left].
        rewrite lookup_insert_eq. by eexists.
      * right. destruct (decide (p = q)) as [->|Hne].
        -- rewrite lookup_insert_eq. by eexists.
        -- by rewrite lookup_insert_ne.
Qed.

(** ** The document part *)

(** The call that adds the table of a pair. *)
Definition tbl (pr : Pair) : doc_op := DocPairTable pr.1.1 pr.1.2.

(** The calls of a page after the first, for the pairs [c] on it. *)
Definition page_of (c : list Pair) : Doc :=
  DocPageBreak :: DocHeader :: (tbl <$> c).

Lemma m_bind_ext {St A B} (c : M St A) (k k' : A → M St B) st :
  (∀ a st', k a st' = k' a st') → m_bind c k st = m_bind c k' st.
Proof. intros Hk. unfold m_bind. by destruct (c st) as [st' [e|a]]. Qed.

Lemma doc_do_ok op doc p :
  (∀ op, docx_call op = inr tt) → doc_do op doc p = (p, inr (doc ++ [op])).
Proof. intros Hdoc. unfold doc_do, m_bind, m_lift, m_ret. by rewrite Hdoc. Qed.

Lemma add_pair_table_ok pairs j pr doc p :
  (∀ op, docx_call op = inr tt) → pairs !! j = Some pr →
  add_pair_table pairs j doc p = (p, inr (doc ++ [tbl pr])).
Proof.
  intros Hdoc Hj. unfold add_pair_table, m_bind, m_lift, list_index.
  rewrite Hj. by apply doc_do_ok.
Qed.

Lemma first_page_ok n i pairs doc p :
  (∀ op, docx_call op = inr tt) → i + n ≤ length pairs →
  first_page (seq i n) pairs doc p
  = (p, inr (doc ++ (tbl <$> take n (drop i pairs)))).
Proof.
  intros Hdoc. revert i doc.
  induction n as [|n IH]; intros i doc Hlen; simpl.
  - by rewrite app_nil_r.
  - destruct (lookup_lt_is_Some_2 pairs i) as [pr Hpr]; [lia|].
    unfold m_bind. rewrite (add_pair_table_ok pairs i pr) by done.
    rewrite IH by lia. rewrite (drop_S pairs pr i Hpr). simpl.
    by rewrite <- app_assoc.
Qed.

Lemma page_tables_ok n k idx pairs doc p :
  (∀ op, docx_call op = inr tt) →
  page_tables (seq k n) idx pairs doc p
  = (p, inr (doc ++ (tbl <$> take n (drop (idx + k) pairs)))).
Proof.
  intros Hdoc. revert k doc.
  induction n as [|n IH]; intros k doc; simpl.
  - by rewrite app_nil_r.
  - case_bool_decide as Hj.
    + rewrite drop_ge by done. simpl. by rewrite app_nil_r.
    + destruct (lookup_lt_is_Some_2 pairs (idx + k)) as [pr Hpr]; [lia|].
      unfold m_bind. rewrite (add_pair_table_ok pairs (idx + k) pr) by done.
      rewrite IH. rewrite (drop_S pairs pr (idx + k) Hpr). simpl.
      replace (idx + S k) with (S (idx + k)) by lia.
      by rewrite <- app_assoc.
Qed.

(** The fuel [render] gives to the [while] loop is enough: one more turn
    changes nothing. *)
Lemma pages_loop_fuel fuel idx pgs pairs doc p :
  length pairs ≤ idx + 4 * fuel →
  pages_loop (S fuel) idx pgs pairs doc p = pages_loop fuel idx pgs pairs doc p.
Proof.
  revert idx pgs doc p.
  induction fuel as [|fuel IH]; intros idx pgs doc p Hlen.
  - simpl. rewrite bool_decide_eq_false_2 by lia. done.
  - cbn [pages_loop] in *. case_bool_decide; [|done].
    apply m_bind_ext; intros d1 p1. apply m_bind_ext; intros d2 p2.
    apply m_bind_ext; intros d3 p3. apply m_bind_ext; intros [] p4.
    specialize (IH (idx + 4) (pgs + 1) d3 p4). cbn [pages_loop] in IH.
    apply IH. lia.
Qed.

Lemma pages_loop_enough extra pairs doc p :
  pages_loop (extra + length pairs) 4 1 pairs doc p
  = pages_loop (length pairs) 4 1 pairs doc p.
Proof.
  induction extra as [|extra IH]; [done|].
  simpl plus. rewrite pages_loop_fuel by lia. exact IH.
Qed.

(** The [while] loop when no call raises: the page count it leaves and
    the pages it adds, [later] holding the pairs of each page. *)
Lemma pages_loop_ok fuel idx pgs pairs doc p :
  (∀ op, docx_call op = inr tt) →
  length pairs ≤ idx + 4 * fuel →
  ∃ later,
    pages_loop fuel idx pgs pairs doc p
    = (if bool_decide (idx < length pairs)
       then set_pages (Z.of_nat (pgs + (length pairs - idx + 3) / 4)) p
       else p,
       inr (doc ++ mjoin (page_of <$> later))) ∧
    mjoin later = drop idx pairs ∧
    Forall (λ c, 0 < length c ≤ 4) later.
Proof.
  intros Hdoc. revert idx pgs doc p.
  induction fuel as [|fuel IH]; intros idx pgs doc p Hlen; cbn [pages_loop].
  - exists []. rewrite bool_decide_eq_false_2 by lia.
    split_and!; [by rewrite app_nil_r|by rewrite drop_ge by lia|done].
  - case_bool_decide as Hidx.
    2:{ exists []. split_and!;
          [by rewrite app_nil_r|by rewrite drop_ge by lia|done]. }
    unfold m_bind at 1. rewrite doc_do_ok by done.
    unfold m_bind at 1. rewrite doc_do_ok by done.
    unfold m_bind at 1. rewrite (page_tables_ok 4 0) by done.
    unfold m_bind at 1, m_modify.
    destruct (IH (idx + 4) (pgs + 1)
                 (((doc ++ [DocPageBreak]) ++ [DocHeader])
                    ++ (tbl <$> take 4 (drop (idx + 0) pairs)))
                 (set_pages (Z.of_nat (pgs + 1)) p))
      as (later & Hrun & Hjoin & Hall); [lia|].
    exists (take 4 (drop idx pairs) :: later). rewrite Hrun.
    rewrite Nat.add_0_r. split_and!.
    + f_equal.
      * assert (Hdiv : (length pairs - idx + 3) / 4
                       = S ((length pairs - (idx + 4) + 3) / 4)
                         ∨ (length pairs ≤ idx + 4
                            ∧ (length pairs - idx + 3) / 4 = 1)).
        { destruct (decide (length pairs ≤ idx + 4)) as [Hle|Hgt].
          - right. split; [done|]. symmetry.
            apply (Nat.div_unique _ 4 1 (length pairs - idx + 3 - 4)); lia.
          - left.
            replace (length pairs - idx + 3)
              with ((length pairs - (idx + 4) + 3) + 1 * 4) by lia.
            rewrite Nat.div_add by lia. lia. }
        case_bool_decide as Hnext.
        -- destruct Hdiv as [->|[? _]]; [|lia].
           unfold set_pages; simpl; f_equal; lia.
        -- destruct Hdiv as [Hd|[_ Hd]]; rewrite Hd.
           ++ assert (Hz : (length pairs - (idx + 4) + 3) / 4 = 0).
              { apply Nat.div_small. lia. }
              rewrite Hz. unfold set_pages; f_equal; lia.
           ++ done.
      * f_equal. simpl. unfold page_of at 2. rewrite <- !app_assoc. done.
    + simpl. rewrite Hjoin, <- drop_drop. apply take_drop.
    + constructor; [|done]. rewrite length_take, length_drop. lia.
Qed.

(** [render] when no call raises: the page count and the document. *)
Lemma render_ok pairs out_path p :
  (∀ op, docx_call op = inr tt) →
  ∃ first later,
    render pairs out_path p
    = (if bool_decide (4 < length pairs)
       then set_pages (Z.of_nat ((length pairs + 3) / 4)) p
       else p,
       inr ([DocHeader; DocTitle] ++ (tbl <$> first)
            ++ mjoin (page_of <$> later) ++ [DocSave out_path])) ∧
    first ++ mjoin later = pairs ∧
    length first = 4 `min` length pairs ∧
    Forall (λ c, 0 < length c ≤ 4) later.
Proof.
  intros Hdoc. unfold render.
  unfold m_bind at 1. rewrite doc_do_ok by done.
  unfold m_bind at 1. rewrite doc_do_ok by done.
  unfold m_bind at 1. rewrite first_page_ok by (done || lia).
  rewrite drop_0. unfold m_bind at 1.
  replace (take (4 `min` length pairs) pairs) with (take 4 pairs).
  2:{ destruct (decide (4 ≤ length pairs)).
      - by rewrite Nat.min_l.
      - rewrite Nat.min_r by lia. by rewrite !take_ge by lia. }
  case_bool_decide as Hn.
  - destruct (pages_loop_ok (length pairs) 4 1 pairs
                ((([] ++ [DocHeader]) ++ [DocTitle]) ++ (tbl <$> take 4 pairs))
                p Hdoc) as (later & Hrun & Hjoin & Hall); [lia|].
    rewrite Hrun.
    rewrite bool_decide_eq_true_2 by lia. rewrite doc_do_ok by done.
    exists (take 4 pairs), later. split_and!; [|by rewrite Hjoin, take_drop| |done].
    + f_equal.
      * do 2 f_equal.
        replace (length pairs + 3) with ((length pairs - 4 + 3) + 1 * 4) by lia.
        rewrite Nat.div_add by lia. lia.
      * f_equal. simpl. by rewrite <- !app_assoc.
    + rewrite length_take. lia.
  - unfold m_ret at 1. rewrite doc_do_ok by done.
    exists (take 4 pairs), []. split; [|split; [|split; [|done]]].
    + reflexivity.
    + simpl. rewrite app_nil_r. apply take_ge. lia.
    + rewrite length_take. lia.
Qed.

Lemma render_run pairs out_path p :
  (∀ op, docx_call op = inr tt) →
  ∃ n doc, render pairs out_path p = (set_pages n p, inr doc).
Proof.
  intros Hdoc. destruct (render_ok pairs out_path p Hdoc)
    as (first & later & Hrun & _).
  rewrite Hrun. case_bool_decide.
  - by eexists _, _.
  - exists (pages p). eexists. by destruct p.
Qed.

(** ** [build_report] from start to end *)

(** The environment does not fail under the job: every listed file can
    be hashed and read, and python-docx raises nothing. *)
Definition env_ok (befores afters : list Path) : Prop :=
  (∀ p, p ∈ befores ++ afters →
        (∃ h, phash p = inr h) ∧ (∃ d, describe p = inr d)) ∧
  (∀ op, docx_call op = inr tt).

Lemma build_report_run input_root out_path company zone title threshold p :
  let befores := load_images (path_join input_root "before") in
  let afters := load_images (path_join input_root "after") in
  befores ≠ [] → afters ≠ [] → env_ok befores afters →
  ∃ be_ph be_desc af_ph af_desc trace n,
    fingerprint befores [] ∅ = inr (be_ph, be_desc) ∧
    fingerprint afters [] ∅ = inr (af_ph, af_desc) ∧
    length af_ph = length afters ∧
    rows_ok afters be_ph be_desc af_desc 0 befores ∧
    matching afters be_ph af_ph be_desc af_desc threshold 0 befores ([], ∅)
             (update_matching
                (update_preprocess (length befores) (length afters) p))
    = (progress_after 0 trace
         (update_matching
            (update_preprocess (length befores) (length afters) p)),
       inr (trace, (pairs_of afters befores trace, marks trace ∅))) ∧
    length trace = length befores ∧
    trace_sound afters threshold 0 ∅ trace ∧
    build_report input_root out_path company zone title threshold p
    = (update_done out_path
         (set_pages n
            (progress_after 0 trace
               (update_matching
                  (update_preprocess (length befores) (length afters) p)))),
       inr (trace, pairs_of afters befores trace)).
Proof.
  intros befores afters Hb Ha [Hfiles Hdoc].
  destruct (fingerprint_run befores [] ∅) as (be_ph & be_desc & Hbe & Hbl & Hbd).
  { intros q Hq. apply Hfiles, elem_of_app. by left. }
  destruct (fingerprint_run afters [] ∅) as (af_ph & af_desc & Haf & Hal & Had).
  { intros q Hq. apply Hfiles, elem_of_app. by right. }
  assert (Hrows : rows_ok afters be_ph be_desc af_desc 0 befores).
  { split.
    - intros k b Hk. split.
      + apply lookup_lt_is_Some. apply lookup_lt_Some in Hk. simpl in *. lia.
      + apply Hbd. left. by eapply list_elem_of_lookup_2.
    - intros a Hin. apply Had. by left. }
  destruct (matching_run afters be_ph af_ph be_desc af_desc threshold befores 0
              [] ∅ (update_matching
                      (update_preprocess (length befores) (length afters) p))
              Hrows) as (trace & Hrun & Hlen & Hts).
  destruct (render_run (pairs_of afters befores trace) out_path
              (progress_after 0 trace
                 (update_matching
                    (update_preprocess (length befores) (length afters) p)))
              Hdoc) as (n & doc & Hn).
  exists be_ph, be_desc, af_ph, af_desc, trace, n.
  split; [done|]. split; [done|]. split; [simpl in Hal; lia|].
  split; [done|]. split; [done|]. split; [done|]. split; [done|].
  unfold build_report. fold befores afters. unfold m_bind at 1.
    unfold m_modify at 1.
    rewrite !bool_decide_eq_false_2 by done. simpl.
    unfold m_bind at 1. unfold m_lift at 1. rewrite Hbe.
    unfold m_bind at 1. unfold m_lift at 1. rewrite Haf.
    unfold m_bind at 1. unfold m_modify at 1.
    unfold m_bind at 1. simpl. rewrite Hrun. simpl.
    unfold m_bind at 1. rewrite Hn.
    unfold m_bind, m_modify, m_ret. done.
Qed.

(** ** [run_job] and [start] *)

(** The record a job ends with, from the record [build_report] leaves
    and what it returned or raised. *)
Definition final_record {A} (out : Progress * Exc A) : Progress :=
  match out.2 with
  | inr _ => out.1
  | inl e => update_error e out.1
  end.

(** [run_job] on a registered job: two events are put on its queue, the
    ["starting"] record and the final record. *)
Lemma run_job_registered w s p0 q :
  JOBS s !! w_job_id w = Some p0 →
  EVENTS s !! w_job_id w = Some q →
  let out :=
    build_report (input_root_of (w_month w) (w_site w) (w_task w))
      (path_join REPORT_ROOT (out_name (w_month w) (w_site w) (w_task w)))
      (w_company w) (w_zone w) (w_title w) (w_threshold w)
      (update_starting p0) in
  run_job w s
  = (mkServer (<[w_job_id w := final_record out]> (JOBS s))
              (<[w_job_id w := q ++ [update_starting p0; final_record out]]>
                 (EVENTS s)),
     inr tt).
Proof.
  intros Hj Hq out. unfold run_job, m_catch.
  unfold m_bind at 1. unfold with_job at 1. rewrite Hj.
  unfold m_modify at 1. unfold m_bind at 1. unfold push at 1. simpl.
  rewrite Hq, lookup_insert_eq.
  unfold m_bind at 1. unfold with_job at 1. simpl. rewrite lookup_insert_eq.
  fold out. unfold final_record.
  destruct out as [p1 [e|res]]; simpl.
  - unfold m_bind, with_job, m_modify, push. simpl.
    rewrite !lookup_insert_eq. simpl. rewrite !lookup_insert_eq.
    rewrite !insert_insert_eq. by rewrite <- app_assoc.
  - unfold push. simpl. rewrite !lookup_insert_eq.
    rewrite !insert_insert_eq. by rewrite <- app_assoc.
Qed.

Definition worker_of (form : Form) (job_id : string) (t : Q) : Worker :=
  mkWorker job_id (form_month form) (form_site form) (form_task form)
           (form_company form) (form_zone form) (form_title form) t.

Definition registered (job_id : string) (s : Server) : Server :=
  mkServer (<[job_id := queued]> (JOBS s)) (<[job_id := []]> (EVENTS s)).

(** [start] accepts every threshold that [float] returns. *)
Lemma start_accepts form job_id s t :
  float_of_string (form_threshold form) = inr t →
  form_month form ≠ ""%string → form_site form ≠ ""%string →
  start form job_id s
  = (registered job_id s, Json200 job_id, Some (worker_of form job_id t)).
Proof.
  intros Ht Hm Hs. unfold start. rewrite Ht.
  by rewrite !bool_decide_eq_false_2.
Qed.

Lemma run_job_started form job_id s t :
  let w := worker_of form job_id t in
  let out :=
    build_report (input_root_of (w_month w) (w_site w) (w_task w))
      (path_join REPORT_ROOT (out_name (w_month w) (w_site w) (w_task w)))
      (w_company w) (w_zone w) (w_title w) t (update_starting queued) in
  run_job w (registered job_id s)
  = (mkServer (<[job_id := final_record out]> (JOBS s))
              (<[job_id := [update_starting queued; final_record out]]>
                 (EVENTS s)),
     inr tt).
Proof.
  intros w out.
  rewrite (run_job_registered w (registered job_id s) queued []);
    [|apply lookup_insert_eq..].
  simpl. fold out. by rewrite !insert_insert_eq.
Qed.

(** [build_report] on an empty collection. *)
Lemma build_report_empty input_root out_path company zone title threshold p :
  let befores := load_images (path_join input_root "before") in
  let afters := load_images (path_join input_root "after") in
  befores = [] ∨ afters = [] →
  build_report input_root out_path company zone title threshold p
  = (update_preprocess (length befores) (length afters) p, inl no_images).
Proof.
  intros befores afters Hempty. unfold build_report. fold befores afters.
  unfold m_bind, m_modify, m_raise.
  destruct Hempty as [-> | ->]; simpl; [done|].
  by rewrite orb_true_r.
Qed.

(** ** [best_pairs] of [report_menu_table.py] *)

Section BestPairsFacts.
Variable orb_score : Path → Path → Q.
Variable afters : list Path.
Variable threshold : Q.

Definition cli_mark (r : Resolution) (used : gset nat) : gset nat :=
  match assigned_after r with
  | Some j => {[j]} ∪ used
  | None => used
  end.

Definition cli_sound (bi : nat) (used : gset nat) (r : Resolution) : Prop :=
  match r with
  | Confident j s => j < length afters ∧ (j ∉ used) ∧ (threshold <= s)%Q
  | Fallback j => j = bi ∧ bi < length afters ∧ bi ∉ used
  | Unpaired => ¬ (bi < length afters ∧ bi ∉ used)
  end.

Fixpoint cli_trace_sound (bi : nat) (used : gset nat)
    (trace : list Resolution) : Prop :=
  match trace with
  | [] => True
  | r :: trace' =>
      cli_sound bi used r ∧ cli_trace_sound (S bi) (cli_mark r used) trace'
  end.

Fixpoint cli_marks (trace : list Resolution) (used : gset nat) : gset nat :=
  match trace with
  | [] => used
  | r :: trace' => cli_marks trace' (cli_mark r used)
  end.

Lemma scan_fold_found b used l best :
  (∀ ja, ja ∈ l → ja.1 < length afters) →
  (∀ j, best.1 = Some j → j < length afters ∧ j ∉ used) →
  ∀ j, (foldl (scan_step orb_score b used) best l).1 = Some j →
       j < length afters ∧ j ∉ used.
Proof.
  revert best. induction l as [|ja l IH]; intros best Hl Hbest; [done|].
  simpl. apply IH.
  - intros ja' Hin. apply Hl. by right.
  - unfold scan_step. case_bool_decide as Hused; [done|].
    destruct (Qlt_bool _ _); [|done]. simpl.
    intros j [= <-]. split; [|done]. apply Hl. by left.
Qed.

Lemma scan_found b used j s :
  scan orb_score afters b used = (Some j, s) → j < length afters ∧ j ∉ used.
Proof.
  intros Hscan. apply (scan_fold_found b used (imap pair afters) (None, sentinel)).
  - intros ja Hin. apply elem_of_lookup_imap in Hin as (i & a & -> & Hi).
    by eapply lookup_lt_Some.
  - done.
  - unfold scan in Hscan. by rewrite Hscan.
Qed.

Lemma cli_fallback_sound bi used :
  cli_sound bi used (cli_fallback afters bi used).
Proof.
  unfold cli_fallback.
  case_bool_decide as Hlt; case_bool_decide as Hu; simpl; try done.
  - by intros [_ ?].
  - by intros [? _].
  - by intros [? _].
Qed.

Lemma cli_resolve_sound bi b used :
  cli_sound bi used (cli_resolve orb_score afters threshold bi b used).
Proof.
  unfold cli_resolve.
  destruct (scan orb_score afters b used) as [[j|] s] eqn:Hscan;
    [|apply cli_fallback_sound].
  destruct (Qle_bool threshold s) eqn:Hle; [|apply cli_fallback_sound].
  destruct (scan_found b used j s Hscan). simpl.
  repeat split; [done..|]. by apply Qle_bool_iff.
Qed.

Lemma cli_commit_run bi b r pairs used :
  cli_sound bi used r →
  cli_commit afters b r (pairs, used)
  = inr (pairs ++ pair_of afters b r, cli_mark r used).
Proof.
  unfold cli_commit, pair_of, cli_mark, after_path, list_index.
  destruct r as [j s|j|]; simpl.
  - intros (Hj & _). apply lookup_lt_is_Some in Hj as [a Ha]. by rewrite Ha.
  - intros (-> & Hj & _). apply lookup_lt_is_Some in Hj as [a Ha].
    by rewrite Ha.
  - intros _. by rewrite app_nil_r.
Qed.

Lemma best_pairs_from_run bs bi pairs used :
  ∃ trace,
    best_pairs_from orb_score afters threshold bi bs (pairs, used)
    = inr (trace, (pairs ++ pairs_of afters bs trace, cli_marks trace used)) ∧
    length trace = length bs ∧
    cli_trace_sound bi used trace.
Proof.
  revert bi pairs used. induction bs as [|b bs IH]; intros bi pairs used.
  - exists []. simpl. by rewrite app_nil_r.
  - pose proof (cli_resolve_sound bi b used) as Hs.
    set (r := cli_resolve orb_score afters threshold bi b used) in *.
    destruct (IH (S bi) (pairs ++ pair_of afters b r) (cli_mark r used))
      as (trace & Hrun & Hlen & Hts).
    exists (r :: trace). split; [|split].
    + simpl. fold r. rewrite (cli_commit_run bi b r pairs used Hs). simpl.
      rewrite Hrun. simpl. by rewrite <- app_assoc.
    + simpl. by rewrite Hlen.
    + by split.
Qed.

Lemma cli_mark_elem r used j :
  j ∈ cli_mark r used ↔ j ∈ used ∨ assigned_after r = Some j.
Proof.
  unfold cli_mark. destruct (assigned_after r) as [i|].
  - rewrite elem_of_union, elem_of_singleton.
    split.
    + intros [->|H]; [by right|by left].
    + intros [H|[= ->]]; [by right|by left].
  - split; [by left|]. by intros [?|?].
Qed.

Lemma cli_trace_assigned bi used trace j :
  cli_trace_sound bi used trace → j ∈ omap assigned_after trace →
  j < length afters ∧ j ∉ used.
Proof.
  revert bi used. induction trace as [|r trace IH]; intros bi used Hts Hj.
  - by apply elem_of_nil in Hj.
  - destruct Hts as [Hs Hts]. simpl in Hj.
    assert (Hrest : j ∈ omap assigned_after trace → j < length afters ∧ j ∉ used).
    { intros Hin. destruct (IH _ _ Hts Hin) as [? Hnot]. split; [done|].
      intros Hu. apply Hnot. apply cli_mark_elem. by left. }
    destruct (assigned_after r) as [i|] eqn:Hr; [|by apply Hrest].
    apply elem_of_cons in Hj as [->|Hj]; [|by apply Hrest].
    destruct r as [j' s|j'|]; simpl in Hr, Hs; [| |done]; injection Hr as ->.
    + by destruct Hs as (? & ? & _).
    + by destruct Hs as (-> & ? & ?).
Qed.

Lemma cli_trace_assigned_NoDup bi used trace :
  cli_trace_sound bi used trace → NoDup (omap assigned_after trace).
Proof.
  revert bi used. induction trace as [|r trace IH]; intros bi used Hts.
  - constructor.
  - destruct Hts as [Hs Hts]. simpl.
    destruct (assigned_after r) as [i|] eqn:Hr; [|by eapply IH].
    constructor; [|by eapply IH].
    intros Hin. destruct (cli_trace_assigned _ _ _ _ Hts Hin) as [_ Hnot].
    apply Hnot. apply cli_mark_elem. by right.
Qed.

End BestPairsFacts.

(** * The claims about the pairing engine *)

(** C1. In every job the after-indices assigned, as a confident match or
    as a positional fallback, are pairwise distinct. For [build_report]
    (with an environment that does not fail): it returns, with one
    resolution per before-image; the after-indices of these resolutions
    have no duplicate and are positions of [afters]; and the after-images
    of [pairs] are the images at these indices, in order. The same for
    [best_pairs] of the command-line builder, whatever [orb_score] is. *)
Theorem after_indices_distinct :
  (∀ input_root out_path company zone title threshold p,
     let befores := load_images (path_join input_root "before") in
     let afters := load_images (path_join input_root "after") in
     befores ≠ [] → afters ≠ [] → env_ok befores afters →
     ∃ p' trace pairs,
       build_report input_root out_path company zone title threshold p
       = (p', inr (trace, pairs)) ∧
       length trace = length befores ∧
       NoDup (omap assigned_after trace) ∧
       (∀ j, j ∈ omap assigned_after trace → j < length afters) ∧
       pairs.*1.*2 = after_path afters <$> omap assigned_after trace) ∧
  (∀ orb_score befores afters threshold,
     ∃ trace pairs,
       best_pairs orb_score afters threshold befores = inr (trace, pairs) ∧
       length trace = length befores ∧
       NoDup (omap assigned_after trace) ∧
       (∀ j, j ∈ omap assigned_after trace → j < length afters) ∧
       pairs.*1.*2 = after_path afters <$> omap assigned_after trace).
Proof.
  split.
  - intros input_root out_path company zone title threshold p befores afters
      Hb Ha Henv.
    destruct (build_report_run input_root out_path company zone title
                threshold p Hb Ha Henv)
      as (be_ph & be_desc & af_ph & af_desc & trace & n & _ & _ & _ & _ & _
          & Hlen & Hts & Hrun).
    eexists _, trace, _. split; [exact Hrun|]. split; [done|].
    split; [by eapply trace_assigned_NoDup|].
    split; [intros j Hj; by eapply trace_assigned|].
    by apply pairs_of_afters.
  - intros orb_score befores afters threshold.
    destruct (best_pairs_from_run orb_score afters threshold befores 0 [] ∅)
      as (trace & Hrun & Hlen & Hts).
    exists trace, (pairs_of afters befores trace).
    split; [unfold best_pairs; by rewrite Hrun|]. split; [done|].
    split; [by eapply cli_trace_assigned_NoDup|].
    split; [intros j Hj; by eapply cli_trace_assigned|].
    by apply pairs_of_afters.
Qed.



(** C4, as the code has it. The candidate list of a before-image (with
    hash [ph]) holds only after-indices that exist and that the dict
    [used] does not mark; it has [min K n] entries, so at most [K], for
    [K = max(1, TOPK)] and [n] the number of unmarked after-indices; it
    has no duplicate and is in the order of the Hamming distance (the
    number of bit positions at which the hashes, of [n] bits, differ),
    equal distances by increasing index; every unmarked after-index left
    out comes later in that order than each candidate; and when at most
    [K] after-indices are unmarked the candidates are all of them. With a
    configured [TOPK] of at least 1, [K] is [TOPK]. *)
Theorem candidates_top_k afters be_ph af_ph idx ph used n :
  be_ph !! idx = Some ph →
  (0 ≤ ph < 2 ^ Z.of_nat n)%Z →
  Forall (λ h, (0 ≤ h < 2 ^ Z.of_nat n)%Z) af_ph →
  ∃ dl, dlist afters be_ph af_ph idx used = inr dl ∧
    let cand := cand_of dl in
    let K := Z.to_nat (Z.max 1 TOPK) in
    let free := filter (λ j, used !! j ≠ Some true)
                       (seq 0 (length afters `min` length af_ph)) in
    let dist j := from_option (bit_distance n ph) 0 (af_ph !! j) in
    let before_in_order j j' :=
      dist j < dist j' ∨ (dist j = dist j' ∧ j < j') in
    (∀ j, j ∈ cand → j < length afters ∧ j < length af_ph
                     ∧ used !! j ≠ Some true) ∧
    length cand = K `min` length free ∧
    length cand ≤ K ∧
    NoDup cand ∧
    StronglySorted before_in_order cand ∧
    (∀ j j', j ∈ cand → j' ∈ free → j' ∉ cand → before_in_order j j') ∧
    (length free ≤ K → cand ≡ₚ free) ∧
    ((1 ≤ TOPK)%Z → K = Z.to_nat TOPK).
Proof.
  intros Hph Hphn Hafn.
  destruct (cand_of_bits afters be_ph af_ph idx ph used n Hph Hphn Hafn)
    as (dl & Hdl & H1 & H2 & H4 & H5 & H6 & H7).
  exists dl. split; [done|]. intros cand K free dist before_in_order.
  split; [done|]. split; [done|].
  split; [unfold cand, K; rewrite H2; fold top_k; lia|].
  split; [done|]. split; [done|]. split; [done|]. split; [done|].
  intros HK. unfold K. by rewrite Z.max_r.
Qed.

Lemma pairs_of_elem afters bs trace pr :
  pr ∈ pairs_of afters bs trace →
  (∃ b j s, pr = (b, after_path afters j, s) ∧ Confident j s ∈ trace) ∨
  (∃ b j, pr = (b, after_path afters j, sentinel) ∧ Fallback j ∈ trace).
Proof.
  revert trace. induction bs as [|b bs IH]; intros [|r trace] Hin;
    try by apply elem_of_nil in Hin.
  simpl in Hin. apply elem_of_app in Hin as [Hin|Hin].
  - destruct r as [j s|j|]; simpl in Hin.
    + apply list_elem_of_singleton in Hin as ->. left. exists b, j, s.
      split; [done|left].
    + apply list_elem_of_singleton in Hin as ->. right. exists b, j.
      split; [done|left].
    + by apply elem_of_nil in Hin.
  - destruct (IH trace Hin) as [(b' & j & s & -> & Hr)|(b' & j & -> & Hr)].
    + left. exists b', j, s. split; [done|by right].
    + right. exists b', j. split; [done|by right].
Qed.

(** C5. In the pairing [build_report] produces, every pair comes from a
    confident match or from a positional fallback ([pairs_of] lists them
    in order); a confident match has a score that is at least the
    threshold (and above the sentinel); a fallback pair has the score
    [-1] exactly; and the progress dict counts the first kind in
    [matched] and the second in [unmatched]. *)
Theorem confident_and_fallback_scores
    input_root out_path company zone title threshold p :
  let befores := load_images (path_join input_root "before") in
  let afters := load_images (path_join input_root "after") in
  befores ≠ [] → afters ≠ [] → env_ok befores afters →
  ∃ p' trace pairs,
    build_report input_root out_path company zone title threshold p
    = (p', inr (trace, pairs)) ∧
    length trace = length befores ∧
    pairs = pairs_of afters befores trace ∧
    (∀ j s, Confident j s ∈ trace → (threshold <= s)%Q ∧ (sentinel < s)%Q) ∧
    (∀ pr, pr ∈ pairs →
       (∃ b j s, pr = (b, after_path afters j, s) ∧ Confident j s ∈ trace ∧
                 (threshold <= s)%Q ∧ (sentinel < s)%Q) ∨
       (∃ b j, pr = (b, after_path afters j, sentinel) ∧ Fallback j ∈ trace)) ∧
    matched p' = Z.of_nat (count is_confident trace) ∧
    unmatched p' = Z.of_nat (count is_fallback trace).
Proof.
  intros befores afters Hb Ha Henv.
  destruct (build_report_run input_root out_path company zone title
              threshold p Hb Ha Henv)
    as (be_ph & be_desc & af_ph & af_desc & trace & n & _ & _ & _ & _ & _
        & Hlen & Hts & Hrun).
  assert (Hconf : ∀ j s, Confident j s ∈ trace →
                         (threshold <= s)%Q ∧ (sentinel < s)%Q).
  { intros j s Hin.
    destruct (trace_confident _ _ _ _ _ _ _ Hts Hin) as [Hle [Hge _]].
    split; [done|]. by apply Qlt_le_trans with 0%Q. }
  eexists _, trace, _. split; [exact Hrun|]. split; [done|].
  split; [done|]. split; [done|]. split.
  - intros pr Hin.
    destruct (pairs_of_elem _ _ _ _ Hin)
      as [(b & j & s & -> & Hr)|(b & j & -> & Hr)].
    + left. exists b, j, s. destruct (Hconf j s Hr). by repeat split.
    + right. by exists b, j.
  - fold befores afters.
    destruct (progress_after_fields 0 trace
                (update_matching
                   (update_preprocess (length befores) (length afters) p)))
      as (Hm & Hu & _).
    simpl. rewrite Hm, Hu. simpl. split; lia.
Qed.

Lemma top_k_pos : 1 ≤ top_k.
Proof. unfold top_k. lia. Qed.

(** C10. With threshold [0.0], a before-image processed while some
    after-image is still unused is always resolved as a confident match:
    the candidate list is not empty, every score is at least [0], so the
    test [best_s >= threshold] holds and the turn appends a pair with the
    best candidate and counts it as matched. *)
Theorem zero_threshold_always_matches
    afters be_ph af_ph be_desc af_desc idx b ph pairs used p j0 :
  be_ph !! idx = Some ph →
  is_Some (be_desc !! b) →
  (∀ a, a ∈ afters → is_Some (af_desc !! a)) →
  length af_ph = length afters →
  j0 < length afters → unused used j0 = true →
  ∃ j s,
    (0 <= s)%Q ∧ j < length afters ∧ unused used j = true ∧
    iteration afters be_ph af_ph be_desc af_desc 0 idx b (pairs, used) p
    = (set_done (Z.of_nat idx + 1) (incr_matched p),
       inr (Confident j s,
            (pairs ++ [(b, after_path afters j, s)], <[j := true]> used))).
Proof.
  intros Hph Hbe Haf Hlen Hj0 Hu0.
  destruct (resolve_run afters be_ph af_ph be_desc af_desc 0 idx b ph used
              Hph Hbe Haf) as (dl & best & Hdl & Hrun & Hres & Hcase).
  destruct (cand_of_dlist_facts afters be_ph af_ph idx ph used Hph)
    as (dl' & Hdl' & Hin & Hcount & _).
  rewrite Hdl in Hdl'. injection Hdl' as <-.
  destruct Hcase as [[Hnil _]|(j & s & -> & Hj & Hs)].
  - exfalso. rewrite Hnil in Hcount. simpl in Hcount.
    assert (Hmem : j0 ∈ unused_indices afters af_ph used).
    { apply unused_indices_elem. split; [|done].
      unfold af_items. rewrite length_zip_with. lia. }
    destruct (unused_indices afters af_ph used); [by apply elem_of_nil in Hmem|].
    pose proof top_k_pos. simpl in Hcount. lia.
  - destruct (pair_score_range _ _ _ _ _ _ _ Hs) as [Hge _].
    destruct (Hin j Hj) as (Hlt & _ & Hu).
    assert (Hdec : decide_pair afters 0 idx used (Some j, s) = Confident j s).
    { unfold decide_pair. apply Qle_bool_iff in Hge. by rewrite Hge. }
    rewrite Hdec in Hres.
    destruct (iteration_run afters be_ph af_ph be_desc af_desc 0 idx b ph
                pairs used p Hph Hbe Haf) as (r & Hres' & _ & Hit).
    rewrite Hres in Hres'. injection Hres' as <-.
    exists j, s. by repeat split.
Qed.

(** * The claims about the job pipeline *)

(** The collections of the job that a form asks for. *)
Definition befores_of (form : Form) : list Path :=
  load_images
    (path_join (input_root_of (form_month form) (form_site form)
                              (form_task form)) "before").
Definition afters_of (form : Form) : list Path :=
  load_images
    (path_join (input_root_of (form_month form) (form_site form)
                              (form_task form)) "after").

(** A job on two collections that are not empty, in an environment that
    does not fail: the worker ends it in state ["done"], and the final
    record counts the confident matches and the fallback pairs. *)
Lemma job_run_done form job_id s t :
  befores_of form ≠ [] → afters_of form ≠ [] →
  env_ok (befores_of form) (afters_of form) →
  ∃ trace pairs rec,
    build_report
      (input_root_of (form_month form) (form_site form) (form_task form))
      (path_join REPORT_ROOT
         (out_name (form_month form) (form_site form) (form_task form)))
      (form_company form) (form_zone form) (form_title form) t
      (update_starting queued)
    = (rec, inr (trace, pairs)) ∧
    run_job (worker_of form job_id t) (registered job_id s)
    = (mkServer (<[job_id := rec]> (JOBS s))
                (<[job_id := [update_starting queued; rec]]> (EVENTS s)),
       inr tt) ∧
    length trace = length (befores_of form) ∧
    length pairs
    = count is_confident trace + count is_fallback trace ∧
    state rec = "done"%string ∧ error rec = None ∧
    done rec = Z.of_nat (length (befores_of form)) ∧
    total rec = Z.of_nat (length (befores_of form)) ∧
    before rec = Z.of_nat (length (befores_of form)) ∧
    after rec = Z.of_nat (length (afters_of form)) ∧
    matched rec = Z.of_nat (count is_confident trace) ∧
    unmatched rec = Z.of_nat (count is_fallback trace).
Proof.
  intros Hb Ha Henv. unfold befores_of, afters_of in *.
  rewrite run_job_started. simpl.
  destruct (build_report_run
              (input_root_of (form_month form) (form_site form) (form_task form))
              (path_join REPORT_ROOT
                 (out_name (form_month form) (form_site form) (form_task form)))
              (form_company form) (form_zone form) (form_title form) t
              (update_starting queued) Hb Ha Henv)
    as (be_ph & be_desc & af_ph & af_desc & trace & n & _ & _ & _ & _ & _
        & Hlen & Hts & Hrun).
  rewrite Hrun. unfold final_record. simpl.
  eexists trace, _, _. split; [reflexivity|]. split; [reflexivity|].
  split; [done|]. split; [by apply length_pairs_of|].
  match goal with
  | |- context [progress_after 0 trace ?p0] =>
      destruct (progress_after_fields 0 trace p0)
        as (Hm & Hu & Hd & _ & Ht & Hbf & Haf & _ & _ & He)
  end.
  simpl. rewrite Hm, Hu, Hd, Ht, Hbf, Haf, He. simpl.
  split; [done|]. split; [done|]. split.
  { destruct trace; [|lia]. simpl in Hlen.
    exfalso. apply Hb. by apply nil_length_inv. }
  repeat split; lia.
Qed.

(** C6, as the code has it. A submission with a month and a site, whose
    threshold text [float] converts (to [t]) and whose before- or
    after-collection is empty, is accepted by [start]: the
    answer is the job id and the worker thread is started. The job fails
    inside the worker: [build_report] raises, and [run_job] ends the job
    in state ["error"] with the message ["No images in before/ or
    after/"], which is the last of the two events on the job's queue. *)
Theorem empty_input_fails_in_worker form job_id s t :
  float_of_string (form_threshold form) = inr t →
  form_month form ≠ ""%string → form_site form ≠ ""%string →
  befores_of form = [] ∨ afters_of form = [] →
  let rec :=
    update_error no_images
      (update_preprocess (length (befores_of form)) (length (afters_of form))
                         (update_starting queued)) in
  start form job_id s
  = (registered job_id s, Json200 job_id, Some (worker_of form job_id t)) ∧
  run_job (worker_of form job_id t) (registered job_id s)
  = (mkServer (<[job_id := rec]> (JOBS s))
              (<[job_id := [update_starting queued; rec]]> (EVENTS s)),
     inr tt) ∧
  state rec = "error"%string ∧ error rec = Some no_images.
Proof.
  intros Ht Hm Hs Hempty rec. split; [by apply start_accepts|].
  split; [|done].
  rewrite run_job_started. simpl.
  by rewrite build_report_empty.
Qed.

(** C7, as the code has it. The threshold is not range-checked. Whatever
    finite number [float] returns for the submitted text, in [[0,1]] or
    not, [start] (given a month and a site) answers with the job id and
    starts the worker with that threshold; and when both collections are not
    empty and the environment does not fail, the worker ends the job in
    state ["done"] with no error. *)
Theorem threshold_not_validated form job_id s t :
  float_of_string (form_threshold form) = inr t →
  form_month form ≠ ""%string → form_site form ≠ ""%string →
  start form job_id s
  = (registered job_id s, Json200 job_id, Some (worker_of form job_id t)) ∧
  w_threshold (worker_of form job_id t) = t ∧
  (befores_of form ≠ [] → afters_of form ≠ [] →
   env_ok (befores_of form) (afters_of form) →
   ∃ rec,
     run_job (worker_of form job_id t) (registered job_id s)
     = (mkServer (<[job_id := rec]> (JOBS s))
                 (<[job_id := [update_starting queued; rec]]> (EVENTS s)),
        inr tt) ∧
     state rec = "done"%string ∧ error rec = None).
Proof.
  intros Ht Hm Hs. split; [by apply start_accepts|]. split; [done|].
  intros Hb Ha Henv.
  destruct (job_run_done form job_id s t Hb Ha Henv)
    as (trace & pairs & rec & _ & Hrun & _ & _ & Hst & Herr & _).
  by exists rec.
Qed.

(** C8, as the code has it. The progress dict has no counter of the
    before-images left unpaired. In the final record of a job,
    [unmatched] counts the fallback pairs, and the number of unpaired
    before-images is [total - matched - unmatched]. *)
Theorem unpaired_count_from_counters form job_id s t :
  befores_of form ≠ [] → afters_of form ≠ [] →
  env_ok (befores_of form) (afters_of form) →
  ∃ trace pairs rec,
    build_report
      (input_root_of (form_month form) (form_site form) (form_task form))
      (path_join REPORT_ROOT
         (out_name (form_month form) (form_site form) (form_task form)))
      (form_company form) (form_zone form) (form_title form) t
      (update_starting queued)
    = (rec, inr (trace, pairs)) ∧
    run_job (worker_of form job_id t) (registered job_id s)
    = (mkServer (<[job_id := rec]> (JOBS s))
                (<[job_id := [update_starting queued; rec]]> (EVENTS s)),
       inr tt) ∧
    length trace = length (befores_of form) ∧
    matched rec = Z.of_nat (count is_confident trace) ∧
    unmatched rec = Z.of_nat (count is_fallback trace) ∧
    Z.of_nat (length pairs) = (matched rec + unmatched rec)%Z ∧
    Z.of_nat (count is_unpaired trace)
    = (total rec - matched rec - unmatched rec)%Z.
Proof.
  intros Hb Ha Henv.
  destruct (job_run_done form job_id s t Hb Ha Henv)
    as (trace & pairs & rec & Hbr & Hrun & Hlen & Hpairs & _ & _ & _ & Htot
        & _ & _ & Hm & Hu).
  exists trace, pairs, rec. split; [done|]. split; [done|]. split; [done|].
  split; [done|]. split; [done|].
  pose proof (count_partition trace). split; lia.
Qed.

(** * Further properties of the engine *)

(** ** [score_pair] *)

Lemma good_matches_from_le (rows : list knn_row) acc :
  foldl (λ good m_n,
           match m_n with
           | Knn2 m n => if Qlt_bool m (RATIO * n) then S good else good
           | _ => good
           end) acc rows ≤ acc + length rows.
Proof.
  revert acc. induction rows as [|r rows IH]; intros acc; simpl; [lia|].
  destruct r as [|m|m n]; try (specialize (IH acc); lia).
  destruct (Qlt_bool m (RATIO * n)).
  - specialize (IH (S acc)). lia.
  - specialize (IH acc). lia.
Qed.

Lemma good_matches_le rows : good_matches rows ≤ length rows.
Proof. apply (good_matches_from_le rows 0). Qed.

(** X3. The similarity score is normalised: it is always between 0 and
    1, and it is exactly 0 when there is no match evidence (a descriptor
    set that is absent or empty, or [knnMatch] raising [cv2.error]). *)
Theorem score_pair_normalised des_a des_b :
  (0 <= score_pair des_a des_b <= 1)%Q ∧
  (des_a = None ∨ des_b = None ∨ des_a = Some [] ∨ des_b = Some [] ∨
   (∃ a b, des_a = Some a ∧ des_b = Some b ∧ knnMatch a b = None) →
   score_pair des_a des_b = 0%Q).
Proof.
  split; [apply score_pair_range|].
  unfold score_pair.
  intros [->|[->|[->|[->|(a & b & -> & -> & Hknn)]]]]; try done.
  - by destruct des_a.
  - by destruct des_b.
  - destruct des_a as [a|]; [|done]. simpl. by rewrite orb_true_r.
  - rewrite Hknn. by destruct (_ || _).
Qed.

(** X4. The score reaches 1 only with at least 200 good matches, and a
    good match needs its own row of the [knnMatch] result: with fewer
    than 200 rows the score is [good/200], strictly below 1. *)
Theorem score_pair_below_one a b rows :
  a ≠ [] → b ≠ [] → knnMatch a b = Some rows → length rows < 200 →
  score_pair (Some a) (Some b) = (Z.of_nat (good_matches rows) # 200) ∧
  (score_pair (Some a) (Some b) < 1)%Q.
Proof.
  intros Ha Hb Hknn Hlen. unfold score_pair. rewrite Hknn.
  destruct a as [|x a]; [done|]. destruct b as [|y b]; [done|]. simpl.
  pose proof (good_matches_le rows) as Hgood.
  assert (Hlt : (Z.of_nat (good_matches rows) # 200 < 1)%Q).
  { unfold Qlt. simpl. lia. }
  split; [|by rewrite Q.min_r by by apply Qlt_le_weak].
  unfold Qmin, GenericMinMax.gmin.
  destruct (1 ?= Z.of_nat (good_matches rows) # 200)%Q eqn:Hcmp; try done.
  - apply Qeq_alt in Hcmp. rewrite <- Hcmp in Hlt. by apply Qlt_irrefl in Hlt.
  - apply Qlt_alt in Hcmp. exfalso. apply (Qlt_irrefl 1). by eapply Qlt_trans.
Qed.

(** ** The pages of the document *)

(** X5. When no docx call raises, [render] returns, and the document
    it saved is: the header and the title, the tables of the first page,
    then for every later page a page break, the header and the tables of
    that page, and the save at the end. The pairs on the pages, taken in
    order, are exactly [pairs]: every pair gets one table, in the order of
    [pairs]. The first page holds the first [min(4, len(pairs))] pairs and
    every later page between one and four. *)
Theorem render_places_every_pair_once pairs out_path p :
  (∀ op, docx_call op = inr tt) →
  ∃ p' first later,
    render pairs out_path p
    = (p', inr ([DocHeader; DocTitle]
                ++ ((λ pr : Pair, DocPairTable pr.1.1 pr.1.2) <$> first)
                ++ mjoin ((λ c : list Pair,
                             DocPageBreak :: DocHeader
                             :: ((λ pr : Pair, DocPairTable pr.1.1 pr.1.2)
                                   <$> c)) <$> later)
                ++ [DocSave out_path])) ∧
    first ++ mjoin later = pairs ∧
    length first = 4 `min` length pairs ∧
    Forall (λ c, 0 < length c ≤ 4) later.
Proof.
  intros Hdoc.
  destruct (render_ok pairs out_path p Hdoc)
    as (first & later & Hrun & Hjoin & Hlen & Hall).
  eexists _, first, later. split; [exact Hrun|]. by repeat split.
Qed.

(** X6. When no docx call raises, [render] leaves in the progress dict
    the number of pages of a report of more than four pairs, [(n + 3) / 4]
    for [n] pairs; for at most four pairs it does not write [pages] at
    all, so a report of one page keeps the value the dict had (0 from
    [start]). *)
Theorem render_page_count pairs out_path p :
  (∀ op, docx_call op = inr tt) →
  ∃ doc,
    render pairs out_path p
    = (if bool_decide (4 < length pairs)
       then set_pages (Z.of_nat ((length pairs + 3) / 4)) p
       else p,
       inr doc).
Proof.
  intros Hdoc.
  destruct (render_ok pairs out_path p Hdoc) as (first & later & Hrun & _).
  eexists. exact Hrun.
Qed.

(** ** The job boundary *)

(** A computation that leaves every job but [job_id] as it was. *)
Definition only_job {A} (job_id : string) (c : M Server A) : Prop :=
  ∀ s other, other ≠ job_id →
    JOBS (c s).1 !! other = JOBS s !! other ∧
    EVENTS (c s).1 !! other = EVENTS s !! other.

Lemma only_job_with_job {A} job_id (c : M Progress A) :
  only_job job_id (with_job job_id c).
Proof.
  intros s other Hne. unfold with_job.
  destruct (JOBS s !! job_id) as [p|]; [|done].
  destruct (c p) as [p' r]. simpl. by rewrite lookup_insert_ne.
Qed.

Lemma only_job_push job_id : only_job job_id (push job_id).
Proof.
  intros s other Hne. unfold push.
  destruct (EVENTS s !! job_id) as [q|]; [|done].
  destruct (JOBS s !! job_id) as [p|]; [|done].
  simpl. by rewrite lookup_insert_ne.
Qed.

Lemma only_job_bind {A B} job_id (c : M Server A) (k : A → M Server B) :
  only_job job_id c → (∀ a, only_job job_id (k a)) →
  only_job job_id (m_bind c k).
Proof.
  intros Hc Hk s other Hne. unfold m_bind.
  destruct (Hc s other Hne) as [Hj He].
  destruct (c s) as [s' [e|a]]; simpl in *; [done|].
  destruct (Hk a s' other Hne) as [Hj' He']. by rewrite Hj', He'.
Qed.

Lemma only_job_catch {A} job_id (c : M Server A) (h : string → M Server A) :
  only_job job_id c → (∀ e, only_job job_id (h e)) →
  only_job job_id (m_catch c h).
Proof.
  intros Hc Hh s other Hne. unfold m_catch.
  destruct (Hc s other Hne) as [Hj He].
  destruct (c s) as [s' [e|a]]; simpl in *; [|done].
  destruct (Hh e s' other Hne) as [Hj' He']. by rewrite Hj', He'.
Qed.

Lemma only_job_run_job w : only_job (w_job_id w) (run_job w).
Proof.
  unfold run_job. apply only_job_catch.
  - apply only_job_bind; [apply only_job_with_job|]. intros _.
    apply only_job_bind; [apply only_job_push|]. intros _.
    apply only_job_bind; [apply only_job_with_job|]. intros _.
    apply only_job_push.
  - intros e. apply only_job_bind; [apply only_job_with_job|]. intros _.
    apply only_job_push.
Qed.

(** X7. Jobs are isolated: a submission, from [start] to the end of its
    worker, changes the record and the queue of its own job id only,
    whatever happens in it; every other job's record and queue are as
    they were. *)
Theorem submit_touches_only_its_job form job_id s other :
  other ≠ job_id →
  JOBS (submit form job_id s).1 !! other = JOBS s !! other ∧
  EVENTS (submit form job_id s).1 !! other = EVENTS s !! other.
Proof.
  intros Hne. unfold submit, start.
  destruct (float_of_string (form_threshold form)) as [e|t]; [done|].
  destruct (_ || _); [done|]. simpl.
  match goal with
  | |- context [run_job ?w ?s0] =>
      destruct (only_job_run_job w s0 other Hne) as [Hj He]
  end.
  rewrite Hj, He. simpl. by rewrite !lookup_insert_ne.
Qed.

(** A computation on the progress dict that does not write [download]
    nor [error]. *)
Definition keeps_outcome {A} (c : M Progress A) : Prop :=
  ∀ p, download (c p).1 = download p ∧ error (c p).1 = error p.

Lemma keeps_ret {A} (a : A) : keeps_outcome (m_ret a).
Proof. by intros p. Qed.

Lemma keeps_lift {A} (c : Exc A) : keeps_outcome (m_lift c).
Proof. by intros p. Qed.

Lemma keeps_raise {A} e : keeps_outcome (@m_raise Progress A e).
Proof. by intros p. Qed.

Lemma keeps_modify (f : Progress → Progress) :
  (∀ p, download (f p) = download p ∧ error (f p) = error p) →
  keeps_outcome (m_modify f).
Proof. intros Hf p. apply Hf. Qed.

Lemma keeps_bind {A B} (c : M Progress A) (k : A → M Progress B) :
  keeps_outcome c → (∀ a, keeps_outcome (k a)) → keeps_outcome (m_bind c k).
Proof.
  intros Hc Hk p. unfold m_bind. destruct (Hc p) as [Hd He].
  destruct (c p) as [p' [e|a]]; simpl in *; [done|].
  destruct (Hk a p') as [Hd' He']. by rewrite Hd', He'.
Qed.

Lemma keeps_matching afters be_ph af_ph be_desc af_desc threshold bs idx st :
  keeps_outcome
    (matching afters be_ph af_ph be_desc af_desc threshold idx bs st).
Proof.
  revert idx st. induction bs as [|b bs IH]; intros idx st; simpl.
  - apply keeps_ret.
  - apply keeps_bind.
    + unfold iteration. apply keeps_bind; [apply keeps_lift|]. intros r.
      apply keeps_bind.
      * unfold commit. destruct r.
        -- apply keeps_bind; [apply keeps_lift|]. intros a.
           apply keeps_bind; [by apply keeps_modify|]. intros _.
           apply keeps_ret.
        -- apply keeps_bind; [apply keeps_lift|]. intros a.
           apply keeps_bind; [by apply keeps_modify|]. intros _.
           apply keeps_ret.
        -- apply keeps_ret.
      * intros st'. apply keeps_bind; [by apply keeps_modify|]. intros _.
        apply keeps_ret.
    + intros step. apply keeps_bind; [apply IH|]. intros rest.
      apply keeps_ret.
Qed.

Lemma keeps_doc_do op doc : keeps_outcome (doc_do op doc).
Proof.
  unfold doc_do. apply keeps_bind; [apply keeps_lift|]. intros _.
  apply keeps_ret.
Qed.

Lemma keeps_add_pair_table pairs j doc :
  keeps_outcome (add_pair_table pairs j doc).
Proof.
  unfold add_pair_table. apply keeps_bind; [apply keeps_lift|]. intros pr.
  apply keeps_doc_do.
Qed.

Lemma keeps_first_page ixs pairs doc : keeps_outcome (first_page ixs pairs doc).
Proof.
  revert doc. induction ixs as [|i ixs IH]; intros doc; simpl.
  - apply keeps_ret.
  - apply keeps_bind; [apply keeps_add_pair_table|]. intros d. apply IH.
Qed.

Lemma keeps_page_tables ks idx pairs doc :
  keeps_outcome (page_tables ks idx pairs doc).
Proof.
  revert doc. induction ks as [|k ks IH]; intros doc; simpl.
  - apply keeps_ret.
  - case_bool_decide; [apply keeps_ret|].
    apply keeps_bind; [apply keeps_add_pair_table|]. intros d. apply IH.
Qed.

Lemma keeps_pages_loop fuel idx pgs pairs doc :
  keeps_outcome (pages_loop fuel idx pgs pairs doc).
Proof.
  revert idx pgs doc.
  induction fuel as [|fuel IH]; intros idx pgs doc; cbn [pages_loop].
  - apply keeps_ret.
  - case_bool_decide; [|apply keeps_ret].
    apply keeps_bind; [apply keeps_doc_do|]. intros d1.
    apply keeps_bind; [apply keeps_doc_do|]. intros d2.
    apply keeps_bind; [apply keeps_page_tables|]. intros d3.
    apply keeps_bind; [by apply keeps_modify|]. intros _. apply IH.
Qed.

Lemma keeps_render pairs out_path : keeps_outcome (render pairs out_path).
Proof.
  unfold render. apply keeps_bind; [apply keeps_doc_do|]. intros d1.
  apply keeps_bind; [apply keeps_doc_do|]. intros d2.
  apply keeps_bind; [apply keeps_first_page|]. intros d3.
  apply keeps_bind.
  - case_bool_decide; [apply keeps_pages_loop|apply keeps_ret].
  - intros d4. apply keeps_doc_do.
Qed.

(** What [build_report] leaves in [state], [download] and [error]. *)
Lemma build_report_outcome input_root out_path company zone title threshold
    p p' r :
  build_report input_root out_path company zone title threshold p = (p', r) →
  error p' = error p ∧
  match r with
  | inr _ => state p' = "done"%string ∧ download p' = Some out_path
  | inl _ => download p' = download p
  end.
Proof.
  unfold build_report.
  set (befores := load_images (path_join input_root "before")).
  set (afters := load_images (path_join input_root "after")).
  unfold m_bind, m_modify, m_lift, m_raise, m_ret.
  destruct (_ || _); [by intros [= <- <-]|].
  destruct (fingerprint befores [] ∅) as [e|be]; [by intros [= <- <-]|].
  destruct (fingerprint afters [] ∅) as [e|af]; [by intros [= <- <-]|].
  match goal with
  | |- context [matching ?a ?b ?c ?d ?e ?f ?g ?h ?i ?p1] =>
      pose proof (keeps_matching a b c d e f h g i p1) as [Hd2 He2];
      destruct (matching a b c d e f g h i p1) as [p2 [e1|res]]
  end; simpl in *.
  { intros [= <- <-]. by rewrite He2. }
  pose proof (keeps_render res.2.1 out_path p2) as [Hd3 He3].
  destruct (render res.2.1 out_path p2) as [p3 [e1|doc]]; simpl in *.
  { intros [= <- <-]. by rewrite He3, Hd3, He2, Hd2. }
  intros [= <- <-]. simpl. by rewrite He3, He2.
Qed.

(** X8. Nothing escapes the job boundary. For every accepted submission
    and whatever the libraries and the file system do, the worker returns
    normally and puts exactly two events on the job's queue: the
    ["starting"] record and the final record, which is also the job's
    record. The final state is ["done"] when [build_report] returned and
    ["error"], with the message of the exception, when it raised. *)
Theorem worker_ends_done_or_error form job_id s t :
  ∃ rec,
    run_job (worker_of form job_id t) (registered job_id s)
    = (mkServer (<[job_id := rec]> (JOBS s))
                (<[job_id := [update_starting queued; rec]]> (EVENTS s)),
       inr tt) ∧
    ((state rec = "done"%string ∧ error rec = None ∧ is_Some (download rec)) ∨
     (state rec = "error"%string ∧ is_Some (error rec) ∧ download rec = None)).
Proof.
  rewrite run_job_started. simpl.
  match goal with
  | |- context [final_record ?o] =>
      destruct o as [p1 [e|res]] eqn:Hbr;
      destruct (build_report_outcome _ _ _ _ _ _ _ _ _ Hbr) as [He Hout]
  end; unfold final_record; simpl in *.
  - exists (update_error e p1). split; [done|]. right.
    split; [done|]. split; [by eexists|]. done.
  - exists p1. split; [done|]. left. destruct Hout as [Hst Hdl].
    split; [done|]. split; [done|]. by rewrite Hdl.
Qed.

(** X9. A worker for a job id that [JOBS] does not hold: the
    [KeyError] of the first statement is caught, the handler raises it
    again, and it escapes from [run_job] with the text of
    [str(KeyError(job_id))], which is [repr(job_id)]; the registries are
    unchanged and nothing is put on any queue. [push] for an id without a
    queue does nothing and raises nothing. *)
Theorem run_job_unregistered w s :
  JOBS s !! w_job_id w = None →
  run_job w s = (s, inl (repr (w_job_id w))) ∧
  (EVENTS s !! w_job_id w = None → push (w_job_id w) s = (s, inr tt)).
Proof.
  intros Hj. split.
  - unfold run_job, m_catch, m_bind, with_job. by rewrite !Hj.
  - intros Hq. unfold push. by rewrite Hq.
Qed.

(** ** The pairing as a whole *)

Lemma filter_all {A} (P : A → Prop) `{!∀ x, Decision (P x)} (l : list A) :
  (∀ x, x ∈ l → P x) → filter P l = l.
Proof.
  induction l as [|x l IH]; intros Hall; [done|].
  rewrite filter_cons_True by (apply Hall; left).
  f_equal. apply IH. intros y Hy. apply Hall. by right.
Qed.

Lemma pairs_of_befores afters bs trace :
  (pairs_of afters bs trace).*1.*1 `sublist_of` bs.
Proof.
  revert trace. induction bs as [|b bs IH]; intros [|r trace]; simpl;
    try apply sublist_nil_l.
  rewrite !fmap_app. destruct r; simpl.
  - by apply sublist_skip.
  - by apply sublist_skip.
  - by apply sublist_cons.
Qed.

Lemma length_pairs_of_le afters bs trace :
  length (pairs_of afters bs trace) ≤ length bs.
Proof.
  pose proof (sublist_length _ _ (pairs_of_befores afters bs trace)) as H.
  by rewrite !length_fmap in H.
Qed.

Lemma NoDup_below_length (l : list nat) n :
  NoDup l → (∀ j, j ∈ l → j < n) → length l ≤ n.
Proof.
  intros Hnd Hlt. transitivity (length (seq 0 n)); [|by rewrite length_seq].
  apply submseteq_length, NoDup_submseteq; [done|].
  intros j Hj. apply elem_of_seq. specialize (Hlt j Hj). lia.
Qed.

Lemma length_pairs_of_assigned afters bs trace :
  length bs = length trace →
  length (pairs_of afters bs trace) = length (omap assigned_after trace).
Proof.
  intros Hlen.
  rewrite <- (length_fmap (after_path afters)), <- (pairs_of_afters afters bs)
    by done.
  by rewrite !length_fmap.
Qed.

(** X11. The pairing of [build_report] keeps the order of the
    before-images and never has more pairs than either collection: the
    before-images of [pairs] are a subsequence of [befores] (each at most
    once, in order), and the number of pairs is at most [len(befores)]
    and at most [len(afters)]. *)
Theorem build_report_pairs_ordered_and_bounded
    input_root out_path company zone title threshold p :
  let befores := load_images (path_join input_root "before") in
  let afters := load_images (path_join input_root "after") in
  befores ≠ [] → afters ≠ [] → env_ok befores afters →
  ∃ p' trace pairs,
    build_report input_root out_path company zone title threshold p
    = (p', inr (trace, pairs)) ∧
    pairs.*1.*1 `sublist_of` befores ∧
    length pairs ≤ length befores ∧
    length pairs ≤ length afters.
Proof.
  intros befores afters Hb Ha Henv.
  destruct (build_report_run input_root out_path company zone title
              threshold p Hb Ha Henv)
    as (be_ph & be_desc & af_ph & af_desc & trace & n & _ & _ & _ & _ & _
        & Hlen & Hts & Hrun).
  eexists _, trace, _. split; [exact Hrun|].
  split; [apply pairs_of_befores|]. split.
  - apply length_pairs_of_le.
  - rewrite length_pairs_of_assigned by done.
    apply NoDup_below_length.
    + by eapply trace_assigned_NoDup.
    + intros j Hj. by eapply trace_assigned.
Qed.

(** X12. The same for [best_pairs] of the command-line builder, for
    every [orb_score], threshold and pair of collections (also empty
    ones): it returns, the before-images of the result are a subsequence
    of [befores], and there are at most [len(befores)] and at most
    [len(afters)] pairs. *)
Theorem best_pairs_ordered_and_bounded orb_score befores afters threshold :
  ∃ trace pairs,
    best_pairs orb_score afters threshold befores = inr (trace, pairs) ∧
    pairs.*1.*1 `sublist_of` befores ∧
    length pairs ≤ length befores ∧
    length pairs ≤ length afters.
Proof.
  destruct (best_pairs_from_run orb_score afters threshold befores 0 [] ∅)
    as (trace & Hrun & Hlen & Hts).
  exists trace, (pairs_of afters befores trace).
  split; [unfold best_pairs; by rewrite Hrun|].
  split; [apply pairs_of_befores|]. split.
  - apply length_pairs_of_le.
  - rewrite length_pairs_of_assigned by done.
    apply NoDup_below_length.
    + by eapply cli_trace_assigned_NoDup.
    + intros j Hj. by eapply cli_trace_assigned.
Qed.

Lemma unused_marks trace used j :
  unused (marks trace used) j = true ↔
  unused used j = true ∧ j ∉ omap assigned_after trace.
Proof.
  revert used. induction trace as [|r trace IH]; intros used; simpl.
  - split; [intros ?; split; [done|apply not_elem_of_nil]|by intros [? _]].
  - rewrite IH, unused_mark. destruct (assigned_after r) as [i|].
    + rewrite not_elem_of_cons. split.
      * intros [[Hu Hne] Hnot]. split; [done|]. split; [congruence|done].
      * intros [Hu [Hne Hnot]]. split; [|done]. split; [done|congruence].
    + split; [by intros [[? _] ?]|]. intros [? ?]. by split.
Qed.

Lemma trace_sound_lookup afters threshold idx used trace k r :
  trace_sound afters threshold idx used trace → trace !! k = Some r →
  sound afters threshold (idx + k) (marks (take k trace) used) r.
Proof.
  revert idx used k. induction trace as [|r0 trace IH]; intros idx used k Hts Hk;
    [done|].
  destruct Hts as [Hs Hts]. destruct k as [|k]; simpl in *.
  - injection Hk as <-. by rewrite Nat.add_0_r.
  - replace (idx + S k) with (S idx + k) by lia. by apply IH.
Qed.

(** X13. Why a before-image is left without a pair. In the pairing of
    [build_report], the before-image at position [k] is unpaired only if
    [k] is beyond the after-collection or the after-image at position [k]
    was assigned to an earlier before-image; a fallback pair is always
    with the before-image's own position; and no resolution takes an
    after-index that an earlier one took. *)
Theorem build_report_positions
    input_root out_path company zone title threshold p :
  let befores := load_images (path_join input_root "before") in
  let afters := load_images (path_join input_root "after") in
  befores ≠ [] → afters ≠ [] → env_ok befores afters →
  ∃ p' trace pairs,
    build_report input_root out_path company zone title threshold p
    = (p', inr (trace, pairs)) ∧
    ∀ k r, trace !! k = Some r →
      let earlier := omap assigned_after (take k trace) in
      match r with
      | Unpaired => length afters ≤ k ∨ k ∈ earlier
      | Fallback j => j = k ∧ k < length afters ∧ k ∉ earlier
      | Confident j s => j < length afters ∧ j ∉ earlier
      end.
Proof.
  intros befores afters Hb Ha Henv.
  destruct (build_report_run input_root out_path company zone title
              threshold p Hb Ha Henv)
    as (be_ph & be_desc & af_ph & af_desc & trace & n & _ & _ & _ & _ & _
        & Hlen & Hts & Hrun).
  eexists _, trace, _. split; [exact Hrun|].
  intros k r Hk earlier.
  pose proof (trace_sound_lookup _ _ _ _ _ _ _ Hts Hk) as Hs. simpl in Hs.
  destruct r as [j s|j|]; simpl in Hs.
  - destruct Hs as (Hj & Hu & _). apply unused_marks in Hu as [_ Hnot].
    by split.
  - destruct Hs as (-> & Hj & Hu). apply unused_marks in Hu as [_ Hnot].
    by repeat split.
  - destruct (decide (k < length afters)) as [Hlt|Hge]; [|left; lia].
    right. destruct (decide (k ∈ earlier)) as [Hin|Hnot]; [done|].
    exfalso. apply Hs. split; [done|]. apply unused_marks. by split.
Qed.

(** The resolution of position [k] when only the position decides. *)
Definition positional (afters : list Path) (k : nat) : Resolution :=
  if bool_decide (k < length afters) then Fallback k else Unpaired.

Lemma positional_trace afters threshold idx used trace :
  (1 < threshold)%Q →
  trace_sound afters threshold idx used trace →
  (∀ j, idx ≤ j → unused used j = true) →
  trace = positional afters <$> seq idx (length trace).
Proof.
  intros Hthr. revert idx used.
  induction trace as [|r trace IH]; intros idx used Hts Hfree; [done|].
  destruct Hts as [Hs Hts]. simpl.
  assert (Hr : r = positional afters idx).
  { unfold positional. destruct r as [j s|j|]; simpl in Hs.
    - destruct Hs as (_ & _ & Hle & _ & Hle1). exfalso.
      apply (Qlt_irrefl 1). eapply Qlt_le_trans; [exact Hthr|].
      by eapply Qle_trans.
    - destruct Hs as (-> & Hlt & _). by rewrite bool_decide_eq_true_2.
    - case_bool_decide as Hlt; [|done]. exfalso. apply Hs.
      split; [done|]. apply Hfree. lia. }
  f_equal; [done|]. apply (IH (S idx) (mark r used)); [done|].
  intros j Hj. apply unused_mark. split; [apply Hfree; lia|].
  rewrite Hr. unfold positional. case_bool_decide; simpl; [|done].
  intros [= ->]. lia.
Qed.

Lemma pairs_of_positional afters bs idx :
  pairs_of afters bs (positional afters <$> seq idx (length bs))
  = (λ ba : Path * Path, (ba.1, ba.2, sentinel)) <$> zip bs (drop idx afters).
Proof.
  revert idx. induction bs as [|b bs IH]; intros idx; [done|].
  simpl. rewrite IH. unfold positional at 1. case_bool_decide as Hlt.
  - apply lookup_lt_is_Some in Hlt as [a Ha].
    rewrite (drop_S afters a idx Ha). simpl.
    unfold after_path. by rewrite Ha.
  - rewrite !drop_ge by lia. simpl. by destruct bs.
Qed.

Lemma count_confident_positional afters l :
  count is_confident (positional afters <$> l) = 0.
Proof.
  induction l as [|k l IH]; [done|].
  rewrite fmap_cons, count_cons, IH. unfold positional.
  by case_bool_decide.
Qed.

(** X14. With a threshold above 1 no match is ever confident (a score
    is at most 1), and [build_report] pairs by position alone: [pairs] is
    [befores] zipped with [afters], every pair with the score [-1], and
    the before-images beyond [len(afters)] are unpaired. *)
Theorem threshold_above_one_pairs_by_position
    input_root out_path company zone title threshold p :
  let befores := load_images (path_join input_root "before") in
  let afters := load_images (path_join input_root "after") in
  (1 < threshold)%Q →
  befores ≠ [] → afters ≠ [] → env_ok befores afters →
  ∃ p',
    build_report input_root out_path company zone title threshold p
    = (p', inr (positional afters <$> seq 0 (length befores),
                (λ ba : Path * Path, (ba.1, ba.2, sentinel))
                  <$> zip befores afters)) ∧
    matched p' = 0%Z ∧
    unmatched p' = Z.of_nat (length befores `min` length afters).
Proof.
  intros befores afters Hthr Hb Ha Henv.
  destruct (build_report_run input_root out_path company zone title
              threshold p Hb Ha Henv)
    as (be_ph & be_desc & af_ph & af_desc & trace & n & _ & _ & _ & _ & _
        & Hlen & Hts & Hrun).
  fold befores afters in Hlen, Hts, Hrun.
  assert (Htrace : trace = positional afters <$> seq 0 (length befores)).
  { rewrite <- Hlen. eapply positional_trace; [done..|]. by intros j _. }
  assert (Hpairs : pairs_of afters befores trace
                   = (λ ba : Path * Path, (ba.1, ba.2, sentinel))
                       <$> zip befores afters).
  { rewrite Htrace. by rewrite pairs_of_positional. }
  eexists. split; [by rewrite Hrun, Hpairs, <- Htrace|].
  match type of Hrun with
  | context [progress_after 0 trace ?p0] =>
      destruct (progress_after_fields 0 trace p0) as (Hm & Hu & _)
  end.
  pose proof (length_pairs_of afters befores trace (eq_sym Hlen)) as Hcount.
  rewrite Hpairs, length_fmap, length_zip_with in Hcount.
  assert (Hc0 : count is_confident trace = 0).
  { rewrite Htrace. apply count_confident_positional. }
  simpl. rewrite Hm, Hu. simpl. lia.
Qed.

Lemma resolve_confident afters be_ph af_ph be_desc af_desc threshold
    idx b ph used j0 :
  (threshold <= 0)%Q →
  be_ph !! idx = Some ph →
  is_Some (be_desc !! b) →
  (∀ a, a ∈ afters → is_Some (af_desc !! a)) →
  length af_ph = length afters →
  j0 ∈ unused_indices afters af_ph used →
  ∃ j s, resolve afters be_ph af_ph be_desc af_desc threshold idx b used
         = inr (Confident j s).
Proof.
  intros Hthr Hph Hbe Haf Hlen Hj0.
  destruct (resolve_run afters be_ph af_ph be_desc af_desc threshold idx b ph
              used Hph Hbe Haf) as (dl & best & Hdl & Hrun & Hres & Hcase).
  destruct (cand_of_dlist_facts afters be_ph af_ph idx ph used Hph)
    as (dl' & Hdl' & _ & Hcount & _).
  rewrite Hdl in Hdl'. injection Hdl' as <-.
  destruct Hcase as [[Hnil _]|(j & s & -> & Hj & Hs)].
  - exfalso. rewrite Hnil in Hcount. simpl in Hcount.
    destruct (unused_indices afters af_ph used); [by apply elem_of_nil in Hj0|].
    pose proof top_k_pos. simpl in Hcount. lia.
  - destruct (pair_score_range _ _ _ _ _ _ _ Hs) as [Hge _].
    exists j, s. rewrite Hres. unfold decide_pair.
    assert (Hle : Qle_bool threshold s = true).
    { apply Qle_bool_iff. by eapply Qle_trans. }
    by rewrite Hle.
Qed.

Lemma length_filter_weaken {A} (P R : A → Prop)
    `{!∀ x, Decision (P x)} `{!∀ x, Decision (R x)} (l : list A) :
  (∀ x, x ∈ l → P x → R x) → length (filter P l) ≤ length (filter R l).
Proof.
  induction l as [|x l IH]; intros Himp; [done|].
  rewrite !filter_cons.
  assert (Hl : length (filter P l) ≤ length (filter R l)).
  { apply IH. intros y Hy. apply Himp. by right. }
  destruct (decide (P x)) as [HP|HP]; destruct (decide (R x)) as [HQ|HQ];
    simpl; try lia.
  exfalso. apply HQ, Himp; [left|done].
Qed.

Lemma length_filter_except {A} `{!EqDecision A} (P R : A → Prop)
    `{!∀ x, Decision (P x)} `{!∀ x, Decision (R x)} (l : list A) j :
  NoDup l → (∀ x, P x → x ≠ j → R x) →
  length (filter P l) ≤ S (length (filter R l)).
Proof.
  induction 1 as [|x l Hx Hnd IH]; intros Himp; [simpl; lia|].
  rewrite !filter_cons. specialize (IH Himp).
  destruct (decide (P x)) as [HP|HP]; destruct (decide (R x)) as [HQ|HQ];
    simpl; try lia.
  assert (x = j) as ->.
  { destruct (decide (x = j)); [done|]. exfalso. by apply HQ, Himp. }
  assert (length (filter P l) ≤ length (filter R l)); [|lia].
  apply length_filter_weaken. intros y Hy HPy. apply Himp; [done|].
  intros ->. done.
Qed.

Lemma unused_indices_mark afters af_ph used r :
  length (unused_indices afters af_ph used)
  ≤ S (length (unused_indices afters af_ph (mark r used))).
Proof.
  unfold unused_indices, mark. destruct (assigned_after r) as [j|]; [|lia].
  apply (length_filter_except _ _ _ j); [apply NoDup_seq|].
  intros x Hx Hne. apply Is_true_true. apply Is_true_true in Hx.
  unfold unused in *. by rewrite lookup_insert_ne.
Qed.

Lemma matching_all_confident afters be_ph af_ph be_desc af_desc threshold
    bs idx pairs used p :
  (threshold <= 0)%Q →
  rows_ok afters be_ph be_desc af_desc idx bs →
  length af_ph = length afters →
  length bs ≤ length (unused_indices afters af_ph used) →
  ∃ trace st',
    matching afters be_ph af_ph be_desc af_desc threshold idx bs (pairs, used) p
    = (progress_after idx trace p, inr (trace, st')) ∧
    Forall (λ r, is_confident r) trace.
Proof.
  intros Hthr. revert idx pairs used p.
  induction bs as [|b bs IH]; intros idx pairs used p Hok Hlen Hfree.
  - exists [], (pairs, used). by split.
  - pose proof (rows_ok_tail _ _ _ _ _ _ _ Hok) as Hok'.
    destruct Hok as [Hbs Haf].
    destruct (Hbs 0 b eq_refl) as [[ph Hph] Hbe].
    replace (idx + 0) with idx in Hph by lia.
    destruct (unused_indices afters af_ph used) as [|j0 rest] eqn:Hun;
      [simpl in Hfree; lia|].
    destruct (resolve_confident afters be_ph af_ph be_desc af_desc threshold
                idx b ph used j0 Hthr Hph Hbe Haf Hlen)
      as (j & s & Hres); [rewrite Hun; left|].
    destruct (iteration_run afters be_ph af_ph be_desc af_desc threshold
                idx b ph pairs used p Hph Hbe Haf) as (r & Hres' & _ & Hit).
    rewrite Hres in Hres'. injection Hres' as Hr.
    assert (Hconf : is_confident r) by by rewrite <- Hr.
    clear Hr Hres.
    destruct (IH (S idx) (pairs ++ pair_of afters b r) (mark r used)
                 (set_done (Z.of_nat idx + 1) (bump r p))
                 Hok' Hlen) as (trace & st' & Hrun & Hall).
    { pose proof (unused_indices_mark afters af_ph used r) as Hmk.
      rewrite Hun in Hmk. simpl in *. lia. }
    exists (r :: trace), st'. split.
    + simpl. unfold m_bind. rewrite Hit. simpl. rewrite Hrun. done.
    + by constructor.
Qed.

Lemma count_all (f : Resolution → bool) trace :
  Forall (λ r, f r) trace → count f trace = length trace.
Proof.
  induction 1 as [|r trace Hr _ IH]; [done|].
  rewrite count_cons, IH. simpl. by destruct (f r).
Qed.

(** X15. With a threshold of 0 or less and at least as many
    after-images as before-images, [build_report] gives every before-image
    a confident match: all resolutions are confident, there are as many
    pairs as before-images, and the final record has [matched = total] and
    [unmatched = 0]. *)
Theorem zero_threshold_matches_every_before
    input_root out_path company zone title threshold p :
  let befores := load_images (path_join input_root "before") in
  let afters := load_images (path_join input_root "after") in
  (threshold <= 0)%Q → length befores ≤ length afters →
  befores ≠ [] → afters ≠ [] → env_ok befores afters →
  ∃ p' trace pairs,
    build_report input_root out_path company zone title threshold p
    = (p', inr (trace, pairs)) ∧
    Forall (λ r, is_confident r) trace ∧
    length pairs = length befores ∧
    matched p' = total p' ∧ unmatched p' = 0%Z.
Proof.
  intros befores afters Hthr Hle Hb Ha Henv.
  destruct (build_report_run input_root out_path company zone title
              threshold p Hb Ha Henv)
    as (be_ph & be_desc & af_ph & af_desc & trace & n & _ & _ & Hlaf & Hrows
        & Hmatch & Hlen & Hts & Hrun).
  fold befores afters in Hlaf, Hrows, Hmatch, Hlen, Hts, Hrun.
  destruct (matching_all_confident afters be_ph af_ph be_desc af_desc threshold
              befores 0 [] ∅
              (update_matching
                 (update_preprocess (length befores) (length afters) p))
              Hthr Hrows Hlaf) as (trace' & st' & Hmatch' & Hall).
  { unfold unused_indices, af_items.
    rewrite length_zip_with, Hlaf, Nat.min_id.
    rewrite filter_all by (intros j _; done). by rewrite length_seq. }
  rewrite Hmatch in Hmatch'. injection Hmatch' as _ Htr _. subst trace'.
  eexists _, trace, _. split; [exact Hrun|]. split; [done|].
  pose proof (count_all _ _ Hall) as Hcc.
  pose proof (count_partition trace) as Hpart.
  split.
  - rewrite length_pairs_of by done. lia.
  - match type of Hrun with
    | context [progress_after 0 trace ?p0] =>
        destruct (progress_after_fields 0 trace p0)
          as (Hm & Hu & _ & _ & Ht & _)
    end.
    simpl. rewrite Hm, Hu, Ht. simpl. lia.
Qed.

(** ** A file that cannot be read *)

(** The message of the first file of [ps] on which [phash] or
    [describe] raises. *)
Fixpoint first_error (ps : list Path) : option string :=
  match ps with
  | [] => None
  | p :: ps' =>
      match phash p with
      | inl e => Some e
      | inr _ => match describe p with
                 | inl e => Some e
                 | inr _ => first_error ps'
                 end
      end
  end.

Lemma fingerprint_first_error ps ph desc :
  match first_error ps with
  | Some e => fingerprint ps ph desc = inl e
  | None => ∃ r, fingerprint ps ph desc = inr r
  end.
Proof.
  revert ph desc. induction ps as [|q ps IH]; intros ph desc; simpl.
  - by eexists.
  - destruct (phash q) as [e|h]; [done|]. simpl.
    destruct (describe q) as [e|d]; [done|]. simpl. apply IH.
Qed.

Lemma first_error_app l1 l2 :
  first_error (l1 ++ l2)
  = match first_error l1 with Some e => Some e | None => first_error l2 end.
Proof.
  induction l1 as [|q l1 IH]; [done|]. simpl.
  destruct (phash q); [done|]. by destruct (describe q).
Qed.

Lemma first_error_at l1 f l2 e :
  (∀ q, q ∈ l1 → (∃ h, phash q = inr h) ∧ (∃ d, describe q = inr d)) →
  phash f = inl e ∨ ((∃ h, phash f = inr h) ∧ describe f = inl e) →
  first_error (l1 ++ f :: l2) = Some e.
Proof.
  intros Hok Hf. induction l1 as [|q l1 IH]; simpl.
  - destruct Hf as [->|[[h ->] ->]]; done.
  - destruct (Hok q) as [[h ->] [d ->]]; [left|].
    apply IH. intros q' Hq'. apply Hok. by right.
Qed.

(** X16. A listed file that cannot be hashed or read aborts the job
    before any matching. If [f] is the first file, in the order
    [befores] then [afters], on which [phash] or [describe] raises, say
    with message [e], then [build_report] raises [e]; the progress dict is
    left in state ["preprocess"] with the two counts set and [done],
    [matched], [unmatched] untouched. *)
Theorem unreadable_file_aborts_before_matching
    input_root out_path company zone title threshold p l1 f l2 e :
  let befores := load_images (path_join input_root "before") in
  let afters := load_images (path_join input_root "after") in
  befores ≠ [] → afters ≠ [] →
  befores ++ afters = l1 ++ f :: l2 →
  (∀ q, q ∈ l1 → (∃ h, phash q = inr h) ∧ (∃ d, describe q = inr d)) →
  phash f = inl e ∨ ((∃ h, phash f = inr h) ∧ describe f = inl e) →
  build_report input_root out_path company zone title threshold p
  = (update_preprocess (length befores) (length afters) p, inl e).
Proof.
  intros befores afters Hb Ha Hsplit Hok Hf.
  pose proof (first_error_at l1 f l2 e Hok Hf) as Herr.
  rewrite <- Hsplit, first_error_app in Herr.
  unfold build_report. fold befores afters.
  unfold m_bind, m_modify, m_lift, m_raise.
  rewrite !bool_decide_eq_false_2 by done. simpl.
  pose proof (fingerprint_first_error befores [] ∅) as Hbe.
  destruct (first_error befores) as [e'|].
  - injection Herr as ->. by rewrite Hbe.
  - destruct Hbe as [r ->].
    pose proof (fingerprint_first_error afters [] ∅) as Haf.
    rewrite Herr in Haf. by rewrite Haf.
Qed.

End Engine.

(** * The progress channel *)

(** The messages taken off the queue by observer [o], in order. *)
Definition taken_by (o : nat) (log : list (nat * Progress)) : list Progress :=
  (filter (λ e : nat * Progress, e.1 = o) log).*2.

(** What the frames of every observer are, given the delivery log: no
    frame and no delivery without a generator; with one, the ping and
    then the messages the observer took. *)
Definition chan_inv (c : Channel) : Prop :=
  ∀ o, match yielded c !! o with
       | Some fs => fs = Ping :: (Data <$> taken_by o (delivery_log c))
       | None => taken_by o (delivery_log c) = []
       end.

Lemma taken_by_snoc o o' msg log :
  taken_by o (log ++ [(o', msg)])
  = taken_by o log ++ (if decide (o' = o) then [msg] else []).
Proof.
  unfold taken_by. rewrite filter_app, fmap_app. f_equal.
  rewrite filter_cons, filter_nil. simpl. by case_decide.
Qed.

Lemma chan_step_inv c a c' :
  chan_step c a = Some c' → chan_inv c → chan_inv c'.
Proof.
  intros Hstep Hinv o. specialize (Hinv o).
  destruct a as [msg|o'|o']; simpl in Hstep.
  - by injection Hstep as <-.
  - destruct (yielded c !! o') as [fs|] eqn:Ho'; [done|].
    injection Hstep as <-. simpl.
    destruct (decide (o' = o)) as [->|Hne].
    + rewrite lookup_insert_eq. rewrite Ho' in Hinv. by rewrite Hinv.
    + by rewrite lookup_insert_ne.
  - destruct (yielded c !! o') as [fs|] eqn:Ho'; [|done].
    destruct (queue c) as [|msg q']; [done|].
    injection Hstep as <-. simpl. rewrite taken_by_snoc.
    destruct (decide (o' = o)) as [->|Hne].
    + rewrite lookup_insert_eq. rewrite Ho' in Hinv. rewrite Hinv.
      by rewrite fmap_app.
    + rewrite lookup_insert_ne by done. by rewrite app_nil_r.
Qed.

Lemma chan_step_published c a c' :
  chan_step c a = Some c' →
  (delivery_log c').*2 ++ queue c'
  = ((delivery_log c).*2 ++ queue c) ++ published [a].
Proof.
  intros Hstep. destruct a as [msg|o|o]; simpl in Hstep.
  - injection Hstep as <-. simpl. by rewrite app_assoc.
  - destruct (yielded c !! o); [done|]. injection Hstep as <-.
    simpl. by rewrite app_nil_r.
  - destruct (yielded c !! o); [|done].
    destruct (queue c) as [|msg q']; [done|]. injection Hstep as <-.
    simpl. rewrite fmap_app, app_nil_r. simpl. by rewrite <- app_assoc.
Qed.

Lemma chan_run_inv acts c c' :
  chan_run c acts = Some c' → chan_inv c →
  chan_inv c' ∧
  (delivery_log c').*2 ++ queue c'
  = ((delivery_log c).*2 ++ queue c) ++ published acts.
Proof.
  revert c. induction acts as [|a acts IH]; intros c Hrun Hinv; simpl in Hrun.
  - injection Hrun as <-. split; [done|]. by rewrite app_nil_r.
  - destruct (chan_step c a) as [c1|] eqn:Hstep; [|done].
    destruct (IH c1 Hrun (chan_step_inv _ _ _ Hstep Hinv)) as [Hinv' Heq].
    split; [done|]. rewrite Heq, (chan_step_published _ _ _ Hstep).
    rewrite <- app_assoc. f_equal.
    unfold published. simpl. by destruct a.
Qed.

Lemma data_of_Data l : data_of (Ping :: (Data <$> l)) = l.
Proof.
  unfold data_of. simpl.
  induction l as [|m l IH]; [done|]. rewrite fmap_cons. simpl. f_equal.
  exact IH.
Qed.

Lemma taken_by_sublist o log : taken_by o log `sublist_of` log.*2.
Proof.
  unfold taken_by. induction log as [|e log IH]; [done|].
  rewrite filter_cons. case_decide; csimpl.
  - by apply sublist_skip.
  - by apply sublist_cons.
Qed.

(** C9, as the code has it. A job has one queue, and [q.get()] removes
    what it returns: every message put on the queue is either still
    queued or was taken by exactly one observer (the delivery log followed
    by the queue is the list of the published messages, in emission
    order). Every observer first gets the ping; after it, the messages it
    took itself, in emission order: a subsequence of the published
    messages, not all of them when another observer reads the same
    queue. *)
Theorem channel_consume_once acts c :
  chan_run chan_init acts = Some c →
  published acts = (delivery_log c).*2 ++ queue c ∧
  (∀ o fs, yielded c !! o = Some fs →
           fs = Ping :: (Data <$> taken_by o (delivery_log c))) ∧
  (∀ o, received c o = taken_by o (delivery_log c)) ∧
  (∀ o, received c o `sublist_of` published acts).
Proof.
  intros Hrun.
  assert (Hinit : chan_inv chan_init) by (intros o; done).
  destruct (chan_run_inv acts chan_init c Hrun Hinit) as [Hinv Heq].
  simpl in Heq.
  assert (Hrecv : ∀ o, received c o = taken_by o (delivery_log c)).
  { intros o. specialize (Hinv o). unfold received.
    destruct (yielded c !! o) as [fs|]; simpl; [|done].
    rewrite Hinv. apply data_of_Data. }
  split; [done|]. split; [|split; [done|]].
  - intros o fs Ho. specialize (Hinv o). by rewrite Ho in Hinv.
  - intros o. rewrite Hrecv, <- Heq.
    apply sublist_inserts_r, taken_by_sublist.
Qed.

Lemma push_puts repr job_id s p q :
  JOBS s !! job_id = Some p → EVENTS s !! job_id = Some q →
  push repr job_id s
  = (mkServer (JOBS s) (<[job_id := q ++ [p]]> (EVENTS s)), inr tt).
Proof. intros Hp Hq. unfold push. by rewrite Hq, Hp. Qed.

(** * Three sites, worked out *)

Module Demo.

(** ALPHA: two photographs on each side, B1 strongly resembles A2 and
    B2 weakly resembles A1. BRAVO: one before-photograph, no
    after-photograph. CHARLIE: five before-photographs, two
    after-photographs, no resemblance. *)
Definition load_images (folder : Path) : list Path :=
  if bool_decide (folder = "/data/photos/2024-05/ALPHA/grass_cutting/before")
  then ["B1"; "B2"]
  else if bool_decide (folder = "/data/photos/2024-05/ALPHA/grass_cutting/after")
  then ["A1"; "A2"]
  else if bool_decide (folder = "/data/photos/2024-05/BRAVO/grass_cutting/before")
  then ["B1"]
  else if bool_decide
            (folder = "/data/photos/2024-05/CHARLIE/grass_cutting/before")
  then ["C1"; "C2"; "C3"; "C4"; "C5"]
  else if bool_decide
            (folder = "/data/photos/2024-05/CHARLIE/grass_cutting/after")
  then ["D1"; "D2"]
  else [].

Definition image_id (p : Path) : nat :=
  if bool_decide (p = "B1") then 1
  else if bool_decide (p = "B2") then 2
  else if bool_decide (p = "A1") then 3
  else if bool_decide (p = "A2") then 4
  else 0.

Definition phash (p : Path) : Exc Z := inr (Z.of_nat (image_id p)).

Definition describe (p : Path) : Exc (option (list nat)) :=
  inr (Some [image_id p]).

(** The number of good matches between two descriptor arrays. *)
Definition good (a b : list nat) : nat :=
  match a, b with
  | [1], [4] => 180
  | [2], [3] => 60
  | _, _ => 0
  end.

Definition knnMatch (a b : list nat) : option (list knn_row) :=
  Some (replicate (good a b) (Knn2 1 2)).

Definition docx_call (op : doc_op) : Exc unit := inr tt.

(** [repr] on the job ids used here: for a text without quote,
    backslash or non-printable character (the ids of [start] are
    hexadecimal digits) it is the text between single quotes. *)
Definition repr (k : string) : string := ("'" +:+ k +:+ "'")%string.

Definition float_of_string (s : string) : Exc Q :=
  if bool_decide (s = "0.70") then inr (7 # 10)
  else if bool_decide (s = "1.1") then inr (11 # 10)
  else if bool_decide (s = "-0.1") then inr (-1 # 10)
  else inl "could not convert string to float".

Definition RATIO : Q := 3 # 4.
Definition TOPK : Z := 5.
Definition DATA_ROOT : Path := "/data/photos".
Definition REPORT_ROOT : Path := "/data/reports".

Definition form_for (site threshold : string) : Form :=
  mkForm "2024-05" site "grass_cutting" "HW UNGGUL (901587-V)"
         (site +:+ " ZONE") "1. Grass Cutting" threshold.

Definition no_jobs : Server := mkServer ∅ ∅.

Definition alpha_root : Path := "/data/photos/2024-05/ALPHA/grass_cutting".
Definition alpha_out : Path := "/data/reports/2024-05_ALPHA_grass_cutting.docx".

(** The tables of ALPHA after preprocessing. *)
Definition afters : list Path := ["A1"; "A2"].
Definition be_ph : list Z := [1; 2]%Z.
Definition af_ph : list Z := [3; 4]%Z.
Definition be_desc : gmap string (option (list nat)) :=
  <["B2" := Some [2]]> (<["B1" := Some [1]]> ∅).
Definition af_desc : gmap string (option (list nat)) :=
  <["A2" := Some [4]]> (<["A1" := Some [3]]> ∅).

Definition run_build (root out : Path) (threshold : Q) (p : Progress)
    : Progress * Exc (list Resolution * list Pair) :=
  build_report RATIO TOPK knnMatch phash describe load_images docx_call
               root out "" "" "" threshold p.

Definition run_submit (form : Form) : Server * Response :=
  submit RATIO TOPK DATA_ROOT REPORT_ROOT knnMatch phash describe load_images
         docx_call repr float_of_string form "job1" no_jobs.

End Demo.

(** The scenario of the two ALPHA photographs at threshold 0.70: B1 is
    matched with A2; the position of B2 is 1, [afters[1]] is A2, which is
    used, so B2 is left without a pair. *)
Example alpha_run :
  Demo.run_build Demo.alpha_root Demo.alpha_out (7 # 10) queued
  = (mkProgress "done" 2 2 1 0 2 2 0 (Some Demo.alpha_out) None,
     inr ([Confident 1 (180 # 200); Unpaired], [("B1", "A2", 180 # 200)])).
Proof. vm_compute. reflexivity. Qed.

(** ** The theorems at the sites *)

Lemma after_indices_distinct_witness :
  (∃ p' trace pairs,
     Demo.run_build Demo.alpha_root Demo.alpha_out (7 # 10) queued
     = (p', inr (trace, pairs)) ∧
     NoDup (omap assigned_after trace)) ∧
  (∃ trace pairs,
     best_pairs (λ _ _, 1 # 2) ["A1"; "A2"] (7 # 10) ["B1"; "B2"; "B3"]
     = inr (trace, pairs) ∧
     NoDup (omap assigned_after trace)).
Proof.
  pose proof (after_indices_distinct Demo.RATIO Demo.TOPK Demo.knnMatch
                Demo.phash Demo.describe Demo.load_images Demo.docx_call)
    as [Hweb Hcli].
  split.
  - destruct (Hweb Demo.alpha_root Demo.alpha_out ""%string ""%string
                ""%string (7 # 10) queued)
      as (p' & trace & pairs & Hrun & _ & Hnd & _).
    + vm_compute. discriminate.
    + vm_compute. discriminate.
    + split; intros; split; eexists; reflexivity.
    + by exists p', trace, pairs.
  - destruct (Hcli (λ _ _, 1 # 2) ["B1"; "B2"; "B3"]%string
                ["A1"; "A2"]%string (7 # 10))
      as (trace & pairs & Hrun & _ & Hnd & _).
    by exists trace, pairs.
Defined.



Lemma candidates_top_k_witness :
  ∃ dl, dlist Demo.afters Demo.be_ph Demo.af_ph 1 (<[1 := true]> ∅) = inr dl ∧
        length (cand_of Demo.TOPK dl) ≤ 5 ∧
        ∀ j, j ∈ cand_of Demo.TOPK dl →
             (<[1 := true]> ∅ : gmap nat bool) !! j ≠ Some true.
Proof.
  destruct (candidates_top_k Demo.TOPK Demo.afters Demo.be_ph Demo.af_ph
              1 2%Z (<[1 := true]> ∅) 64) as (dl & Hdl & Hin & _ & Hle & _).
  - reflexivity.
  - split; by vm_compute.
  - unfold Demo.af_ph. repeat (constructor; [split; by vm_compute|]).
    constructor.
  - exists dl. split; [done|]. split; [done|].
    intros j Hj. by destruct (Hin j Hj) as (_ & _ & ?).
Defined.

Lemma confident_and_fallback_scores_witness :
  ∃ p' trace pairs,
    Demo.run_build Demo.alpha_root Demo.alpha_out (7 # 10) queued
    = (p', inr (trace, pairs)) ∧
    (∀ j s, Confident j s ∈ trace → (7 # 10 <= s)%Q) ∧
    matched p' = Z.of_nat (count is_confident trace).
Proof.
  destruct (confident_and_fallback_scores Demo.RATIO Demo.TOPK Demo.knnMatch
              Demo.phash Demo.describe Demo.load_images Demo.docx_call
              Demo.alpha_root Demo.alpha_out ""%string ""%string ""%string
              (7 # 10) queued)
    as (p' & trace & pairs & Hrun & _ & _ & Hconf & _ & Hm & _).
  - vm_compute. discriminate.
  - vm_compute. discriminate.
  - split; intros; split; eexists; reflexivity.
  - exists p', trace, pairs. split; [done|]. split; [|done].
    intros j s Hin. by destruct (Hconf j s Hin).
Defined.

Lemma zero_threshold_always_matches_witness :
  ∃ j s,
    iteration Demo.RATIO Demo.TOPK Demo.knnMatch Demo.afters Demo.be_ph
              Demo.af_ph Demo.be_desc Demo.af_desc 0 1 "B2"
              ([("B1", "A2", 180 # 200)], <[1 := true]> ∅) queued
    = (set_done 2 (incr_matched queued),
       inr (Confident j s,
            ([("B1", "A2", 180 # 200)] ++ [("B2", after_path Demo.afters j, s)],
             <[j := true]> (<[1 := true]> ∅)))).
Proof.
  destruct (zero_threshold_always_matches Demo.RATIO Demo.TOPK Demo.knnMatch
              Demo.afters Demo.be_ph Demo.af_ph Demo.be_desc Demo.af_desc
              1 "B2"%string 2%Z [("B1", "A2", 180 # 200)]%string
              (<[1 := true]> ∅) queued 0)
    as (j & s & _ & _ & _ & Hit).
  - reflexivity.
  - by eexists.
  - intros a Ha. unfold Demo.afters in Ha.
    repeat (apply elem_of_cons in Ha as [->|Ha]; [by eexists|]).
    by apply elem_of_nil in Ha.
  - reflexivity.
  - vm_compute. lia.
  - reflexivity.
  - by exists j, s.
Defined.

Lemma empty_input_fails_in_worker_witness :
  Demo.run_submit (Demo.form_for "BRAVO" "0.70")
  = (mkServer
       (<["job1" := mkProgress "error" 0 1 0 0 1 0 0 None (Some no_images)]> ∅)
       (<["job1" := [update_starting queued;
                     mkProgress "error" 0 1 0 0 1 0 0 None (Some no_images)]]>
          ∅),
     Json200 "job1").
Proof.
  destruct (empty_input_fails_in_worker Demo.RATIO Demo.TOPK Demo.DATA_ROOT
              Demo.REPORT_ROOT Demo.knnMatch Demo.phash Demo.describe
              Demo.load_images Demo.docx_call Demo.repr Demo.float_of_string
              (Demo.form_for "BRAVO" "0.70") "job1"%string Demo.no_jobs
              (7 # 10)) as (Hstart & Hrun & _).
  - reflexivity.
  - vm_compute. discriminate.
  - vm_compute. discriminate.
  - right. reflexivity.
  - unfold Demo.run_submit, submit. rewrite Hstart, Hrun. reflexivity.
Defined.

Lemma threshold_not_validated_witness :
  ¬ (0 <= 11 # 10 <= 1)%Q ∧
  start Demo.float_of_string (Demo.form_for "ALPHA" "1.1") "job1" Demo.no_jobs
  = (registered "job1" Demo.no_jobs, Json200 "job1",
     Some (worker_of (Demo.form_for "ALPHA" "1.1") "job1" (11 # 10))) ∧
  ∃ rec,
    (run_job Demo.RATIO Demo.TOPK Demo.DATA_ROOT Demo.REPORT_ROOT
             Demo.knnMatch Demo.phash Demo.describe Demo.load_images
             Demo.docx_call Demo.repr
             (worker_of (Demo.form_for "ALPHA" "1.1") "job1" (11 # 10))
             (registered "job1" Demo.no_jobs)).1
    = mkServer (<["job1" := rec]> ∅)
               (<["job1" := [update_starting queued; rec]]> ∅) ∧
    state rec = "done"%string.
Proof.
  destruct (threshold_not_validated Demo.RATIO Demo.TOPK Demo.DATA_ROOT
              Demo.REPORT_ROOT Demo.knnMatch Demo.phash Demo.describe
              Demo.load_images Demo.docx_call Demo.repr Demo.float_of_string
              (Demo.form_for "ALPHA" "1.1") "job1"%string Demo.no_jobs
              (11 # 10)) as (Hstart & _ & Hdone).
  - reflexivity.
  - vm_compute. discriminate.
  - vm_compute. discriminate.
  - split; [by intros [_ ?]|]. split; [exact Hstart|].
    destruct Hdone as (rec & Hrun & Hst & _).
    + vm_compute. discriminate.
    + vm_compute. discriminate.
    + split; intros; split; eexists; reflexivity.
    + exists rec. rewrite Hrun. done.
Defined.

Lemma unpaired_count_from_counters_witness :
  ∃ trace rec,
    JOBS (Demo.run_submit (Demo.form_for "CHARLIE" "0.70")).1 !! "job1"
    = Some rec ∧
    Z.of_nat (count is_unpaired trace)
    = (total rec - matched rec - unmatched rec)%Z.
Proof.
  destruct (unpaired_count_from_counters Demo.RATIO Demo.TOPK Demo.DATA_ROOT
              Demo.REPORT_ROOT Demo.knnMatch Demo.phash Demo.describe
              Demo.load_images Demo.docx_call Demo.repr
              (Demo.form_for "CHARLIE" "0.70") "job1"%string Demo.no_jobs
              (7 # 10))
    as (trace & pairs & rec & _ & Hrun & _ & _ & _ & _ & Hcount).
  - vm_compute. discriminate.
  - vm_compute. discriminate.
  - split; intros; split; eexists; reflexivity.
  - exists trace, rec. split; [|done].
    unfold Demo.run_submit, submit.
    change (start Demo.float_of_string (Demo.form_for "CHARLIE" "0.70")
                  "job1" Demo.no_jobs)
      with (registered "job1" Demo.no_jobs, Json200 "job1",
            Some (worker_of (Demo.form_for "CHARLIE" "0.70") "job1" (7 # 10))).
    simpl. rewrite Hrun. simpl. apply lookup_insert_eq.
Defined.

Lemma channel_consume_once_witness :
  ∃ c, chan_run chan_init [Subscribe 1; Put queued; Subscribe 2; Get 2]
       = Some c ∧
       received c 2 = [queued] ∧ received c 1 = [].
Proof.
  destruct (chan_run chan_init [Subscribe 1; Put queued; Subscribe 2; Get 2])
    as [c|] eqn:Hrun; [|vm_compute in Hrun; discriminate].
  destruct (channel_consume_once _ c Hrun) as (_ & _ & Hrecv & _).
  exists c. split; [done|]. rewrite !Hrecv.
  vm_compute in Hrun. injection Hrun as <-. by vm_compute.
Defined.

(** ** Where the code departs from the specification *)

(** C4 fails on the code for a configured width below 1. With
    [TOPK = 0] the slice is [dlist[:max(1, 0)]]: the candidate list of B1
    (hash 1, after-hashes 3 and 4, nothing used) holds one index, which is
    more than [K = 0] indices. *)
Lemma zero_width_returns_a_candidate :
  ∃ dl, dlist Demo.afters Demo.be_ph Demo.af_ph 0 ∅ = inr dl ∧
        cand_of 0 dl = [0] ∧
        ¬ length (cand_of 0 dl) ≤ Z.to_nat 0.
Proof.
  eexists. split; [reflexivity|]. split; [by vm_compute|].
  vm_compute. lia.
Qed.

(** C6 fails on the code. BRAVO has no after-photograph; [start] accepts
    the submission and starts the worker, and the job's error is the
    message of the exception raised in the worker, not [empty-input]. *)
Lemma empty_input_accepted_by_start :
  afters_of Demo.DATA_ROOT Demo.load_images (Demo.form_for "BRAVO" "0.70") = [] ∧
  start Demo.float_of_string (Demo.form_for "BRAVO" "0.70") "job1" Demo.no_jobs
  = (registered "job1" Demo.no_jobs, Json200 "job1",
     Some (worker_of (Demo.form_for "BRAVO" "0.70") "job1" (7 # 10))) ∧
  error <$> (JOBS (Demo.run_submit (Demo.form_for "BRAVO" "0.70")).1 !! "job1")
  = Some (Some "No images in before/ or after/"%string) ∧
  "No images in before/ or after/"%string ≠ "empty-input"%string.
Proof. repeat split; (vm_compute; done). Qed.

(** C7 fails on the code. The threshold text ["1.1"] is a number
    outside [[0,1]]; [start] accepts it, the worker runs with it, and the
    job ends in state ["done"] with no error. *)
Lemma threshold_above_one_accepted :
  Demo.float_of_string "1.1" = inr (11 # 10) ∧
  ¬ (0 <= 11 # 10 <= 1)%Q ∧
  start Demo.float_of_string (Demo.form_for "ALPHA" "1.1") "job1" Demo.no_jobs
  = (registered "job1" Demo.no_jobs, Json200 "job1",
     Some (worker_of (Demo.form_for "ALPHA" "1.1") "job1" (11 # 10))) ∧
  JOBS (Demo.run_submit (Demo.form_for "ALPHA" "1.1")).1 !! "job1"
  = Some (mkProgress "done" 2 2 0 2 2 2 0
            (Some "/data/reports/2024-05_ALPHA_grass_cutting.docx"%string)
            None).
Proof.
  split; [reflexivity|]. split; [by intros [_ ?]|].
  split; [reflexivity|]. vm_compute. reflexivity.
Qed.

(** The numbers a progress record holds. *)
Definition counters (p : Progress) : list Z :=
  [done p; total p; matched p; unmatched p; before p; after p; pages p].

(** C8 fails on the code. CHARLIE has five before-photographs and two
    after-photographs: two positional pairs are made and three
    before-images are left unpaired. No number of the final record, nor
    of any event put on the job's queue, is that count. *)
Lemma unpaired_count_not_reported :
  (Demo.run_build "/data/photos/2024-05/CHARLIE/grass_cutting"
                  "/data/reports/2024-05_CHARLIE_grass_cutting.docx"
                  (7 # 10) (update_starting queued)).2
  = inr ([Fallback 0; Fallback 1; Unpaired; Unpaired; Unpaired],
         [("C1", "D1", sentinel); ("C2", "D2", sentinel)]) ∧
  JOBS (Demo.run_submit (Demo.form_for "CHARLIE" "0.70")).1 !! "job1"
  = Some (mkProgress "done" 5 5 0 2 5 2 0
            (Some "/data/reports/2024-05_CHARLIE_grass_cutting.docx"%string)
            None) ∧
  ∀ q msg,
    EVENTS (Demo.run_submit (Demo.form_for "CHARLIE" "0.70")).1 !! "job1"
    = Some q →
    msg ∈ q → 3%Z ∉ counters msg.
Proof.
  split; [vm_compute; reflexivity|]. split; [vm_compute; reflexivity|].
  intros q msg Hq Hmsg. vm_compute in Hq. injection Hq as <-.
  repeat (apply elem_of_cons in Hmsg as [->|Hmsg];
          [vm_compute; intros Hin;
           repeat (apply elem_of_cons in Hin as [Hin|Hin]; [done|]);
           by apply elem_of_nil in Hin|]).
  by apply elem_of_nil in Hmsg.
Qed.

(** The messages published after observer [o] subscribed. *)
Fixpoint published_since (o : nat) (acts : list Action) : list Progress :=
  match acts with
  | [] => []
  | Subscribe o' :: acts' =>
      if decide (o' = o) then published acts' else published_since o acts'
  | _ :: acts' => published_since o acts'
  end.

(** C9 fails on the code. Two observers read the queue of one job; the
    message put after both subscribed is taken by the first, the queue is
    empty, and the second has received nothing and stays blocked. *)
Lemma broadcast_to_every_observer_fails :
  ¬ (∀ acts c o,
       chan_run chan_init acts = Some c → queue c = [] →
       is_Some (yielded c !! o) →
       received c o = published_since o acts).
Proof.
  intros Hclaim.
  specialize (Hclaim [Subscribe 1; Subscribe 2; Put queued; Get 1]
                (mkChannel [] (<[1 := [Ping; Data queued]]> (<[2 := [Ping]]> (<[1 := [Ping]]> ∅)))
                           [(1, queued)]) 2).
  assert (Hrun : chan_run chan_init [Subscribe 1; Subscribe 2; Put queued; Get 1]
                 = Some (mkChannel []
                           (<[1 := [Ping; Data queued]]>
                              (<[2 := [Ping]]> (<[1 := [Ping]]> ∅)))
                           [(1, queued)])) by reflexivity.
  specialize (Hclaim Hrun eq_refl).
  assert (Hsub : is_Some ((<[1 := [Ping; Data queued]]>
                             (<[2 := [Ping]]> (<[1 := [Ping]]> ∅)) : gmap nat (list Frame)) !! 2))
    by (by eexists).
  specialize (Hclaim Hsub). vm_compute in Hclaim. discriminate.
Qed.

(** * Further properties *)

(** ** [hamming] *)

(** [bin(n).count("1")] for a natural number. *)
Definition N_ones (n : N) : nat :=
  match n with
  | N0 => 0
  | Npos p => pos_ones p
  end.

Lemma pos_ones_pos p : 1 ≤ pos_ones p.
Proof. induction p; simpl; lia. Qed.

Lemma N_ones_double n : N_ones (Pos.Ndouble n) = N_ones n.
Proof. by destruct n. Qed.

Lemma N_ones_succ_double n : N_ones (Pos.Nsucc_double n) = S (N_ones n).
Proof. by destruct n. Qed.

Lemma pos_ones_lxor p q :
  N_ones (Pos.lxor p q) ≤ pos_ones p + pos_ones q.
Proof.
  revert q. induction p as [p IH|p IH|]; intros [q|q|];
    try specialize (IH q).
  - change (Pos.lxor p~1 q~1) with (Pos.Ndouble (Pos.lxor p q)).
    rewrite N_ones_double. simpl. lia.
  - change (Pos.lxor p~1 q~0) with (Pos.Nsucc_double (Pos.lxor p q)).
    rewrite N_ones_succ_double. simpl. lia.
  - simpl. lia.
  - change (Pos.lxor p~0 q~1) with (Pos.Nsucc_double (Pos.lxor p q)).
    rewrite N_ones_succ_double. simpl. lia.
  - change (Pos.lxor p~0 q~0) with (Pos.Ndouble (Pos.lxor p q)).
    rewrite N_ones_double. simpl. lia.
  - simpl. lia.
  - simpl. lia.
  - simpl. lia.
  - simpl. lia.
Qed.

Lemma bin_count_ones_lxor a b :
  (0 ≤ a)%Z → (0 ≤ b)%Z →
  bin_count_ones (Z.lxor a b) ≤ bin_count_ones a + bin_count_ones b.
Proof.
  intros Ha Hb. destruct a as [|p|p], b as [|q|q]; try lia; simpl; try lia.
  pose proof (pos_ones_lxor p q) as H.
  change (Z.lxor (Z.pos p) (Z.pos q)) with (Z.of_N (Pos.lxor p q)).
  destruct (Pos.lxor p q); simpl in *; lia.
Qed.

Lemma pos_ones_bound p n :
  (Zpos p < 2 ^ Z.of_nat n)%Z → pos_ones p ≤ n.
Proof.
  revert n. induction p as [p IH|p IH|]; intros [|n] Hlt; simpl in *;
    try lia.
  - rewrite Nat2Z.inj_succ, Z.pow_succ_r in Hlt by lia.
    specialize (IH n). lia.
  - rewrite Nat2Z.inj_succ, Z.pow_succ_r in Hlt by lia.
    specialize (IH n). lia.
Qed.

(** X1. [hamming] is a distance on the hashes (the non-negative
    integers [phash] returns): it is symmetric, it is zero exactly between
    equal numbers, and it obeys the triangle inequality. *)
Theorem hamming_is_a_distance :
  (∀ a b, hamming a b = hamming b a) ∧
  (∀ a b, hamming a b = 0 ↔ a = b) ∧
  (∀ a b c, (0 ≤ a)%Z → (0 ≤ b)%Z → (0 ≤ c)%Z →
            hamming a c ≤ hamming a b + hamming b c).
Proof.
  split; [|split].
  - intros a b. unfold hamming. by rewrite Z.lxor_comm.
  - intros a b. unfold hamming. rewrite <- Z.lxor_eq_0_iff.
    destruct (Z.lxor a b) as [|p|p]; simpl; split; try done;
      pose proof (pos_ones_pos p); lia.
  - intros a b c Ha Hb Hc. unfold hamming.
    replace (Z.lxor a c) with (Z.lxor (Z.lxor a b) (Z.lxor b c)).
    + apply bin_count_ones_lxor; by apply Z.lxor_nonneg.
    + rewrite Z.lxor_assoc, <- (Z.lxor_assoc b b c).
      by rewrite Z.lxor_nilpotent, Z.lxor_0_l.
Qed.

(** X2. Two hashes of [n] bits differ in at most [n] bits: for the
    64-bit perceptual hash, the distance is at most 64. *)
Theorem hamming_at_most_width n a b :
  (0 ≤ a < 2 ^ Z.of_nat n)%Z → (0 ≤ b < 2 ^ Z.of_nat n)%Z →
  hamming a b ≤ n.
Proof.
  intros Ha Hb. unfold hamming.
  assert (Hnn : (0 ≤ Z.lxor a b)%Z) by (apply Z.lxor_nonneg; lia).
  destruct (Z.lxor a b) as [|p|p] eqn:Hx; simpl; [lia| |lia].
  apply pos_ones_bound. rewrite <- Hx.
  destruct (decide (a = 0%Z)) as [->|Ha0].
  { rewrite Z.lxor_0_l. lia. }
  destruct (decide (b = 0%Z)) as [->|Hb0].
  { rewrite Z.lxor_0_r. lia. }
  apply Z.log2_lt_pow2; [lia|].
  eapply Z.le_lt_trans; [apply Z.log2_lxor; lia|].
  apply Z.max_lub_lt; apply Z.log2_lt_pow2; lia.
Qed.

(** ** One observer *)

Lemma chan_run_log acts c c' o msg :
  chan_run c acts = Some c' → (o, msg) ∈ delivery_log c' →
  (o, msg) ∈ delivery_log c ∨ Get o ∈ acts.
Proof.
  revert c. induction acts as [|a acts IH]; intros c Hrun Hin; simpl in Hrun.
  - injection Hrun as <-. by left.
  - destruct (chan_step c a) as [c1|] eqn:Hstep; [|done].
    destruct (IH c1 Hrun Hin) as [Hlog|Hget]; [|right; by right].
    destruct a as [m|o'|o']; simpl in Hstep.
    + injection Hstep as <-. by left.
    + destruct (yielded c !! o'); [done|]. injection Hstep as <-. by left.
    + destruct (yielded c !! o'); [|done].
      destruct (queue c); [done|]. injection Hstep as <-. simpl in Hlog.
      apply elem_of_app in Hlog as [Hlog|Hlog]; [by left|].
      apply list_elem_of_singleton in Hlog as [= -> ->]. right. left.
Qed.

(** X10. With a single observer on a job's queue nothing is lost: the
    messages the observer has received, followed by those still queued,
    are exactly the published messages in emission order, whenever the
    observer subscribed; once the queue is drained it has received every
    one of them. *)
Theorem single_observer_receives_everything acts c o :
  chan_run chan_init acts = Some c →
  (∀ o', Get o' ∈ acts → o' = o) →
  published acts = received c o ++ queue c ∧
  (queue c = [] → received c o = published acts).
Proof.
  intros Hrun Honly.
  assert (Hinit : chan_inv chan_init) by (intros o'; done).
  destruct (chan_run_inv acts chan_init c Hrun Hinit) as [Hinv Heq].
  simpl in Heq.
  assert (Hall : taken_by o (delivery_log c) = (delivery_log c).*2).
  { unfold taken_by. f_equal. apply filter_all.
    intros [o' msg] Hin. simpl.
    destruct (chan_run_log acts chan_init c o' msg Hrun Hin) as [Hnil|Hget].
    - by apply elem_of_nil in Hnil.
    - by apply Honly. }
  assert (Hrecv : received c o = (delivery_log c).*2).
  { rewrite <- Hall. specialize (Hinv o). unfold received.
    destruct (yielded c !! o) as [fs|]; simpl; [|done].
    rewrite Hinv. apply data_of_Data. }
  split.
  - by rewrite Hrecv.
  - intros Hq. rewrite Hrecv, <- Heq, Hq. by rewrite app_nil_r.
Qed.

(** ** [web.py]: month folders, [is_month_name] and [scan_months_sites]

    The pattern of [is_month_name] is the raw string
    [r"^\\d{4}-\\d{2}$"]. In a raw string the two backslashes reach [re]
    as they are, and [re] reads [\\] as one literal backslash, so that
    [d{4}] and [d{2}] repeat the letter [d]: the pattern is the literal
    text below between [^] and [$]. Names are byte strings, and the
    pattern has ASCII characters only. *)

Definition month_literal : string := "\dddd-\dd".

(** [re.match] of a literal text at the start of [s]: what is left of [s]
    after it. *)
Fixpoint match_literal (pat s : string) : option string :=
  match pat with
  | EmptyString => Some s
  | String a pat' =>
      match s with
      | EmptyString => None
      | String c s' =>
          if bool_decide (c = a) then match_literal pat' s' else None
      end
  end.

Definition newline : string := String (Ascii.ascii_of_nat 10) EmptyString.

(** [$] without [re.MULTILINE]: at the end of the string, or just before
    a newline that ends it. *)
Definition at_dollar (rest : string) : bool :=
  bool_decide (rest = EmptyString) || bool_decide (rest = newline).

Definition is_month_name (name : string) : bool :=
  match match_literal month_literal name with
  | Some rest => at_dollar rest
  | None => false
  end.

Section ScanMonths.
Variable DATA_ROOT : Path.
(** [Path.exists]. *)
Variable path_exists : Path → bool.
(** [list_dirs p], by name: the names of the sub-directories of [p], in
    sorted order. *)
Variable dir_names : Path → list string.

Definition has_task (s : Path) : bool :=
  path_exists (path_join s "grass_cutting")
  || path_exists (path_join s "drainage_cleaning").

(** The inner loop over [list_dirs(m)]. *)
Definition sites_of (m : Path) : list string :=
  filter (λ s, has_task (path_join m s) = true) (dir_names m).

(** One round of the loop over [list_dirs(DATA_ROOT)]. *)
Definition month_step (out : gmap string (list string)) (name : string)
  : gmap string (list string) :=
  if negb (is_month_name name) then out
  else
    let sites := sites_of (path_join DATA_ROOT name) in
    if bool_decide (sites = []) then out else <[name := sites]> out.

Definition scan_months_sites : gmap string (list string) :=
  if negb (path_exists DATA_ROOT) then ∅
  else foldl month_step ∅ (dir_names DATA_ROOT).

Lemma month_steps_lookup names name sites :
  foldl month_step ∅ names !! name = Some sites ↔
  name ∈ names ∧ is_month_name name = true
  ∧ sites = sites_of (path_join DATA_ROOT name) ∧ sites ≠ [].
Proof.
  induction names as [|x names IH] using rev_ind.
  - simpl. rewrite lookup_empty. split; [done|].
    intros [H _]. by apply elem_of_nil in H.
  - rewrite foldl_app. simpl. unfold month_step at 1.
    rewrite elem_of_app, list_elem_of_singleton.
    destruct (is_month_name x) eqn:Hx; simpl.
    + destruct (bool_decide_reflect (sites_of (path_join DATA_ROOT x) = []))
        as [Hs|Hs].
      * rewrite IH. split.
        -- intros (? & ? & ? & ?). split_and!; [by left|done..].
        -- intros ([?| ->] & ? & -> & ?); [done|]. congruence.
      * destruct (decide (name = x)) as [->|Hnx].
        -- rewrite lookup_insert_eq. split.
           ++ intros [= <-]. split_and!; [by right|done..].
           ++ by intros (_ & _ & -> & _).
        -- rewrite lookup_insert_ne by done. rewrite IH. split.
           ++ intros (? & ? & ? & ?). split_and!; [by left|done..].
           ++ by intros ([?| ->] & ? & -> & ?).
    + rewrite IH. split.
      * intros (? & ? & ? & ?). split_and!; [by left|done..].
      * intros ([?| ->] & ? & -> & ?); [done|]. congruence.
Qed.

End ScanMonths.

Example month_names :
  is_month_name "2024-05" = false ∧
  is_month_name "\dddd-\dd" = true ∧
  is_month_name ("\dddd-\dd" +:+ newline) = true ∧
  is_month_name ("\dddd-\dd" +:+ newline +:+ newline) = false.
Proof. by vm_compute. Qed.

Lemma at_dollar_spec rest :
  at_dollar rest = true ↔ rest = EmptyString ∨ rest = newline.
Proof.
  unfold at_dollar. rewrite orb_true_iff, !bool_decide_eq_true. done.
Qed.

Lemma match_literal_spec pat s rest :
  match_literal pat s = Some rest ↔ s = (pat +:+ rest)%string.
Proof.
  revert s. induction pat as [|a pat IH]; intros s; simpl.
  - split; [by intros [= ->]|by intros ->].
  - destruct s as [|c s]; [done|].
    destruct (bool_decide_reflect (c = a)) as [->|Hne].
    + rewrite IH. split; [by intros ->|by intros [= ->]].
    + split; [done|]. intros [= ? ?]. done.
Qed.

(** X17. [is_month_name] of [web.py] accepts exactly two names: a
    backslash, [dddd], a dash, a backslash and [dd]; and that text followed
    by one newline. Its pattern escapes the backslash of [\d], so no name
    made of digits, such as [2024-05], is a month name. *)
Theorem is_month_name_literal_only name :
  is_month_name name = true ↔
  name = month_literal ∨ name = (month_literal +:+ newline)%string.
Proof.
  unfold is_month_name.
  destruct (match_literal month_literal name) as [rest|] eqn:Hm.
  - apply match_literal_spec in Hm as ->. rewrite at_dollar_spec.
    split.
    + intros [->| ->]; [by left|by right].
    + intros [H|H].
      * left. by injection H.
      * right. by injection H.
  - split; [done|].
    intros [->| ->]; vm_compute in Hm; discriminate.
Qed.

(** X18. The month menu computed by [scan_months_sites]: a name is a key
    exactly when the data root exists, the name is one of its
    sub-directories, [is_month_name] accepts it and at least one of its own
    sub-directories holds a [grass_cutting] or a [drainage_cleaning]
    entry; the value lists those sub-directories in directory order. *)
Theorem scan_months_sites_lookup DATA_ROOT path_exists dir_names name sites :
  scan_months_sites DATA_ROOT path_exists dir_names !! name = Some sites ↔
  path_exists DATA_ROOT = true
  ∧ name ∈ dir_names DATA_ROOT
  ∧ is_month_name name = true
  ∧ sites = sites_of path_exists dir_names (path_join DATA_ROOT name)
  ∧ sites ≠ [].
Proof.
  unfold scan_months_sites. destruct (path_exists DATA_ROOT); simpl.
  - rewrite month_steps_lookup. split.
    + by intros (? & ? & ? & ?).
    + by intros (_ & ? & ? & ? & ?).
  - rewrite lookup_empty. split; [done|]. by intros [? _].
Qed.

(** X19. A data root whose month folders are named by digits
    ([YYYY-MM], as [target_dir] of the bot creates them) gives an empty
    month menu: no sub-directory name that starts with another character
    than a backslash is kept. *)
Theorem scan_months_sites_empty DATA_ROOT path_exists dir_names :
  (∀ name, name ∈ dir_names DATA_ROOT →
           ∃ c rest, name = String c rest ∧ c ≠ Ascii.ascii_of_nat 92) →
  scan_months_sites DATA_ROOT path_exists dir_names = ∅.
Proof.
  intros Hnames. unfold scan_months_sites.
  destruct (path_exists DATA_ROOT); simpl; [|done].
  apply map_eq. intros name. rewrite lookup_empty.
  destruct (foldl _ _ _ !! name) as [sites|] eqn:Hl; [|done].
  apply month_steps_lookup in Hl as (Hin & Hm & _).
  destruct (Hnames name Hin) as (c & rest & -> & Hc).
  exfalso. apply Hc. unfold is_month_name in Hm.
  destruct (match_literal _ _) as [r|] eqn:Hml; [|done].
  apply match_literal_spec in Hml. by injection Hml as -> _.
Qed.

(** ** [telegram_bot.py]: chat context and [unique_path] *)

(** [CTX]: chat id to a dict of fields. *)
Abbreviation Ctx := (gmap Z (gmap string string)).

(** [if v: d[key] = v]: [None] and the empty string are falsy. *)
Definition truthy (v : option string) : option string :=
  match v with
  | Some s => if bool_decide (s = EmptyString) then None else Some s
  | None => None
  end.

Definition set_field (key : string) (v : option string)
    (d : gmap string string) : gmap string string :=
  match truthy v with
  | Some s => <[key := s]> d
  | None => d
  end.

Definition set_ctx (chat_id : Z) (site task when : option string)
    (CTX : Ctx) : Ctx :=
  let d := default ∅ (CTX !! chat_id) in
  <[chat_id := set_field "when" when
                 (set_field "task" task (set_field "site" site d))]> CTX.

Definition get_ctx (chat_id : Z) (key : string) (CTX : Ctx)
  : option string :=
  default ∅ (CTX !! chat_id) !! key.

(** [CTX.pop(chat_id, None)] of [cmd_reset]. *)
Definition reset_ctx (chat_id : Z) (CTX : Ctx) : Ctx := delete chat_id CTX.

(** The argument of [set_ctx] that is stored under [key]. *)
Definition arg_of (key : string) (site task when : option string)
  : option string :=
  if bool_decide (key = "site"%string) then site
  else if bool_decide (key = "task"%string) then task
  else if bool_decide (key = "when"%string) then when
  else None.

Section UniquePath.
(** [Path.exists]. *)
Variable path_exists : Path → bool.
(** [path.parent], [path.stem] and [path.suffix]. *)
Variables parent stem suf : string.

(** [parent / f"{stem}-{i}{suf}"]. *)
Definition cand (i : nat) : Path :=
  path_join parent (stem +:+ "-" +:+ pretty i +:+ suf).



End UniquePath.

Lemma get_ctx_set_field key key' v d :
  set_field key' v d !! key =
  if bool_decide (key = key')
  then match truthy v with Some s => Some s | None => d !! key end
  else d !! key.
Proof.
  unfold set_field. destruct (truthy v) as [s|].
  - destruct (bool_decide_reflect (key = key')) as [->|Hne].
    + by rewrite lookup_insert_eq.
    + by rewrite lookup_insert_ne.
  - by destruct (bool_decide (key = key')).
Qed.

(** X20. [set_ctx] followed by [get_ctx]: a field of the chat holds the
    argument given for it when that argument is a non-empty string, and
    keeps its earlier value otherwise; fields of other names and the
    contexts of other chats are left as they were. *)
Theorem set_ctx_then_get_ctx chat_id site task when CTX chat key :
  get_ctx chat key (set_ctx chat_id site task when CTX) =
  if bool_decide (chat = chat_id)
  then match truthy (arg_of key site task when) with
       | Some s => Some s
       | None => get_ctx chat_id key CTX
       end
  else get_ctx chat key CTX.
Proof.
  unfold get_ctx, set_ctx.
  destruct (bool_decide_reflect (chat = chat_id)) as [->|Hne].
  - rewrite lookup_insert_eq. simpl. rewrite !get_ctx_set_field.
    unfold arg_of.
    destruct (bool_decide_reflect (key = "site"%string)) as [->|Hs].
    + simpl. by destruct (truthy when), (truthy task), (truthy site).
    + destruct (bool_decide_reflect (key = "task"%string)) as [->|Ht].
      * simpl. by destruct (truthy when), (truthy task).
      * destruct (bool_decide_reflect (key = "when"%string)) as [->|Hw].
        -- done.
        -- done.
  - by rewrite lookup_insert_ne.
Qed.

(** X21. After [cmd_reset] a chat has no field, whatever was set before,
    and a following [set_ctx] leaves it with exactly the non-empty
    arguments. *)
Theorem reset_then_set_ctx chat_id site task when CTX key :
  get_ctx chat_id key (reset_ctx chat_id CTX) = None ∧
  get_ctx chat_id key (set_ctx chat_id site task when (reset_ctx chat_id CTX))
  = truthy (arg_of key site task when).
Proof.
  assert (H0 : get_ctx chat_id key (reset_ctx chat_id CTX) = None).
  { unfold get_ctx, reset_ctx. by rewrite lookup_delete_eq. }
  split; [done|].
  unfold get_ctx, set_ctx, reset_ctx.
  rewrite lookup_insert_eq, lookup_delete_eq. simpl.
  rewrite !get_ctx_set_field, lookup_empty. unfold arg_of.
  destruct (bool_decide_reflect (key = "site"%string)) as [->|Hs].
  { simpl. by destruct (truthy site). }
  destruct (bool_decide_reflect (key = "task"%string)) as [->|Ht].
  { simpl. by destruct (truthy task). }
  destruct (bool_decide_reflect (key = "when"%string)) as [->|Hw].
  { by destruct (truthy when). }
  done.
Qed.




(** The operator [/] of [pathlib] on the parents ["."] and ["/"], on an
    absolute right operand and on a right operand that is not in normal
    form. *)
Example candidate_texts :
  cand "/data/photos" "x" ".jpg" 2 = "/data/photos/x-2.jpg"%string ∧
  cand "." "a" ".jpg" 3 = "a-3.jpg"%string ∧
  cand "/" "name" ".jpg" 1 = "/name-1.jpg"%string ∧
  path_join "a/b" "/etc" = "/etc"%string ∧
  path_join "a" "b//c/./d/" = "a/b/c/d"%string ∧
  path_join "a" "" = "a"%string ∧
  path_join "//x" "y" = "//x/y"%string.
Proof. vm_compute. repeat split. Qed.

(** ** The further properties on concrete inputs *)

Module Sample.

(** ALPHA with an after-photograph that [imagehash] cannot open. *)
Definition phash (p : Path) : Exc Z :=
  if bool_decide (p = "A1"%string) then inl "cannot identify image file"%string
  else Demo.phash p.

(** A data root as the bot lays it out. *)
Definition dir_names (p : Path) : list string :=
  if bool_decide (p = "/data/photos"%string) then ["2024-05"; "2024-06"]
  else ["ALPHA"].


Definition five_pairs : list Pair :=
  [("B1", "A1", sentinel); ("B2", "A2", sentinel); ("B3", "A3", sentinel);
   ("B4", "A4", sentinel); ("B5", "A5", sentinel)]%string.

End Sample.

Lemma hamming_is_a_distance_witness :
  hamming 5 3 ≤ hamming 5 6 + hamming 6 3.
Proof.
  destruct hamming_is_a_distance as (_ & _ & Htri).
  apply Htri; lia.
Defined.

Lemma hamming_at_most_width_witness : hamming 5 3 ≤ 3.
Proof. apply (hamming_at_most_width 3 5 3); simpl; lia. Defined.

Lemma score_pair_normalised_witness :
  score_pair Demo.RATIO Demo.knnMatch None (Some [4%nat]) = 0%Q.
Proof.
  destruct (score_pair_normalised Demo.RATIO Demo.knnMatch None (Some [4%nat]))
    as [_ Hzero].
  apply Hzero. by left.
Defined.

Lemma score_pair_below_one_witness :
  (score_pair Demo.RATIO Demo.knnMatch (Some [1%nat]) (Some [4%nat]) < 1)%Q.
Proof.
  destruct (score_pair_below_one Demo.RATIO Demo.knnMatch [1%nat] [4%nat]
              (replicate 180 (Knn2 1 2))) as [_ Hlt].
  - discriminate.
  - discriminate.
  - reflexivity.
  - rewrite length_replicate. lia.
  - exact Hlt.
Defined.

(** The document of a report of five pairs: four tables on the first
    page, a page break, the header again and the fifth table. *)
Example five_pairs_document :
  render Demo.docx_call Sample.five_pairs Demo.alpha_out queued
  = (set_pages 2 queued,
     inr [DocHeader; DocTitle;
          DocPairTable "B1" "A1"; DocPairTable "B2" "A2";
          DocPairTable "B3" "A3"; DocPairTable "B4" "A4";
          DocPageBreak; DocHeader; DocPairTable "B5" "A5";
          DocSave Demo.alpha_out]).
Proof. reflexivity. Qed.

Lemma render_places_every_pair_once_witness :
  ∃ p' first later,
    render Demo.docx_call Sample.five_pairs Demo.alpha_out queued
    = (p', inr ([DocHeader; DocTitle]
                ++ ((λ pr : Pair, DocPairTable pr.1.1 pr.1.2) <$> first)
                ++ mjoin ((λ c : list Pair,
                             DocPageBreak :: DocHeader
                             :: ((λ pr : Pair, DocPairTable pr.1.1 pr.1.2)
                                   <$> c)) <$> later)
                ++ [DocSave Demo.alpha_out])) ∧
    first ++ mjoin later = Sample.five_pairs ∧
    length first = 4 ∧
    Forall (λ c, 0 < length c ≤ 4) later.
Proof.
  apply (render_places_every_pair_once Demo.docx_call Sample.five_pairs
           Demo.alpha_out queued).
  intros op. reflexivity.
Defined.

Lemma render_page_count_witness :
  (render Demo.docx_call Sample.five_pairs Demo.alpha_out queued).1
  = set_pages 2 queued.
Proof.
  destruct (render_page_count Demo.docx_call Sample.five_pairs Demo.alpha_out
              queued) as [doc Hrun].
  - intros op. reflexivity.
  - by rewrite Hrun.
Defined.

Lemma submit_touches_only_its_job_witness :
  JOBS (Demo.run_submit (Demo.form_for "ALPHA" "0.70")).1 !! "job2" = None.
Proof.
  destruct (submit_touches_only_its_job Demo.RATIO Demo.TOPK Demo.DATA_ROOT
              Demo.REPORT_ROOT Demo.knnMatch Demo.phash Demo.describe
              Demo.load_images Demo.docx_call Demo.repr Demo.float_of_string
              (Demo.form_for "ALPHA" "0.70") "job1"%string Demo.no_jobs
              "job2"%string) as [Hjobs _].
  - discriminate.
  - unfold Demo.run_submit. rewrite Hjobs. reflexivity.
Defined.

Lemma run_job_unregistered_witness :
  run_job Demo.RATIO Demo.TOPK Demo.DATA_ROOT Demo.REPORT_ROOT Demo.knnMatch
          Demo.phash Demo.describe Demo.load_images Demo.docx_call Demo.repr
          (worker_of (Demo.form_for "ALPHA" "0.70") "job1" (7 # 10))
          Demo.no_jobs
  = (Demo.no_jobs, inl "'job1'"%string).
Proof.
  destruct (run_job_unregistered Demo.RATIO Demo.TOPK Demo.DATA_ROOT
              Demo.REPORT_ROOT Demo.knnMatch Demo.phash Demo.describe
              Demo.load_images Demo.docx_call Demo.repr
              (worker_of (Demo.form_for "ALPHA" "0.70") "job1" (7 # 10))
              Demo.no_jobs) as [Hrun _].
  - reflexivity.
  - exact Hrun.
Defined.

Lemma single_observer_receives_everything_witness :
  ∃ c, chan_run chan_init
         [Subscribe 1; Put queued; Put (update_starting queued); Get 1; Get 1]
       = Some c ∧
       received c 1 = [queued; update_starting queued].
Proof.
  destruct (chan_run chan_init
              [Subscribe 1; Put queued; Put (update_starting queued);
               Get 1; Get 1]) as [c|] eqn:Hrun;
    [|vm_compute in Hrun; discriminate].
  destruct (single_observer_receives_everything _ c 1 Hrun) as [_ Hall].
  - intros o' Hin.
    repeat (apply elem_of_cons in Hin as [Heq|Hin];
            [by (discriminate || injection Heq)|]).
    by apply elem_of_nil in Hin.
  - exists c. split; [done|]. rewrite Hall; [reflexivity|].
    vm_compute in Hrun. by injection Hrun as <-.
Defined.

Lemma build_report_pairs_ordered_and_bounded_witness :
  ∃ p' trace pairs,
    Demo.run_build Demo.alpha_root Demo.alpha_out (7 # 10) queued
    = (p', inr (trace, pairs)) ∧
    pairs.*1.*1 `sublist_of` ["B1"; "B2"]%string ∧
    length pairs ≤ 2.
Proof.
  destruct (build_report_pairs_ordered_and_bounded Demo.RATIO Demo.TOPK
              Demo.knnMatch Demo.phash Demo.describe Demo.load_images
              Demo.docx_call Demo.alpha_root Demo.alpha_out ""%string
              ""%string ""%string (7 # 10) queued)
    as (p' & trace & pairs & Hrun & Hsub & Hlen & _).
  - vm_compute. discriminate.
  - vm_compute. discriminate.
  - split; intros; split; eexists; reflexivity.
  - by exists p', trace, pairs.
Defined.

Lemma build_report_positions_witness :
  ∃ p' trace pairs,
    Demo.run_build Demo.alpha_root Demo.alpha_out (7 # 10) queued
    = (p', inr (trace, pairs)) ∧
    ∀ k, trace !! k = Some Unpaired →
         2 ≤ k ∨ k ∈ omap assigned_after (take k trace).
Proof.
  destruct (build_report_positions Demo.RATIO Demo.TOPK
              Demo.knnMatch Demo.phash Demo.describe Demo.load_images
              Demo.docx_call Demo.alpha_root Demo.alpha_out ""%string
              ""%string ""%string (7 # 10) queued)
    as (p' & trace & pairs & Hrun & Hpos).
  - vm_compute. discriminate.
  - vm_compute. discriminate.
  - split; intros; split; eexists; reflexivity.
  - exists p', trace, pairs. split; [done|].
    intros k Hk. exact (Hpos k Unpaired Hk).
Defined.

Lemma threshold_above_one_pairs_by_position_witness :
  ∃ p',
    Demo.run_build Demo.alpha_root Demo.alpha_out (11 # 10) queued
    = (p', inr ([Fallback 0; Fallback 1],
                [("B1", "A1", sentinel); ("B2", "A2", sentinel)]%string)) ∧
    matched p' = 0%Z ∧ unmatched p' = 2%Z.
Proof.
  destruct (threshold_above_one_pairs_by_position Demo.RATIO Demo.TOPK
              Demo.knnMatch Demo.phash Demo.describe Demo.load_images
              Demo.docx_call Demo.alpha_root Demo.alpha_out ""%string
              ""%string ""%string (11 # 10) queued)
    as (p' & Hrun & Hm & Hu).
  - reflexivity.
  - vm_compute. discriminate.
  - vm_compute. discriminate.
  - split; intros; split; eexists; reflexivity.
  - exists p'. split; [exact Hrun|]. split; [exact Hm|exact Hu].
Defined.

Lemma zero_threshold_matches_every_before_witness :
  ∃ p' trace pairs,
    Demo.run_build Demo.alpha_root Demo.alpha_out 0 queued
    = (p', inr (trace, pairs)) ∧
    length pairs = 2 ∧ matched p' = total p' ∧ unmatched p' = 0%Z.
Proof.
  destruct (zero_threshold_matches_every_before Demo.RATIO Demo.TOPK
              Demo.knnMatch Demo.phash Demo.describe Demo.load_images
              Demo.docx_call Demo.alpha_root Demo.alpha_out ""%string
              ""%string ""%string 0 queued)
    as (p' & trace & pairs & Hrun & _ & Hlen & Hm & Hu).
  - vm_compute. discriminate.
  - vm_compute. lia.
  - vm_compute. discriminate.
  - vm_compute. discriminate.
  - split; intros; split; eexists; reflexivity.
  - by exists p', trace, pairs.
Defined.

Lemma unreadable_file_aborts_before_matching_witness :
  build_report Demo.RATIO Demo.TOPK Demo.knnMatch Sample.phash Demo.describe
               Demo.load_images Demo.docx_call Demo.alpha_root Demo.alpha_out
               "" "" "" (7 # 10) queued
  = (update_preprocess 2 2 queued, inl "cannot identify image file"%string).
Proof.
  apply (unreadable_file_aborts_before_matching Demo.RATIO Demo.TOPK
           Demo.knnMatch Sample.phash Demo.describe Demo.load_images
           Demo.docx_call Demo.alpha_root Demo.alpha_out ""%string ""%string
           ""%string (7 # 10) queued ["B1"; "B2"]%string "A1"%string
           ["A2"]%string "cannot identify image file"%string).
  - vm_compute. discriminate.
  - vm_compute. discriminate.
  - reflexivity.
  - intros q Hq.
    repeat (apply elem_of_cons in Hq as [->|Hq];
            [split; eexists; reflexivity|]).
    by apply elem_of_nil in Hq.
  - left. reflexivity.
Defined.

Lemma scan_months_sites_empty_witness :
  scan_months_sites "/data/photos" (λ _, true) Sample.dir_names = ∅.
Proof.
  apply scan_months_sites_empty. intros name Hin.
  change (Sample.dir_names "/data/photos")
    with ["2024-05"; "2024-06"]%string in Hin.
  repeat (apply elem_of_cons in Hin as [->|Hin];
          [eexists _, _; split; [reflexivity|discriminate]|]).
  by apply elem_of_nil in Hin.
Defined.

